(** * cascadia: CSS selectors — parser, matchers, specificity, serializer

    A shallow embedding of the Go package [cascadia].  The document tree
    ([html.Node], package golang.org/x/net/html) is external to the
    package; it is modelled as a finite tree together with a zipper, so
    that a node knows its parent and its siblings, as the pointers
    [Parent], [FirstChild], [LastChild], [PrevSibling] and [NextSibling]
    do in Go. *)

From Stdlib Require Import ZArith List Bool Ascii String Lia Arith.
Import ListNotations.

Set Warnings "-register-all".

Local Open Scope string_scope.
Local Open Scope list_scope.
Local Open Scope Z_scope.

(** ** Go's [int] (64 bits, two's complement) *)

Module GoInt.

Definition min_int : Z := - 2 ^ 63.
Definition max_int : Z := 2 ^ 63 - 1.

(** Wrap-around of a mathematical integer into the range of [int]. *)
Definition wrap (z : Z) : Z := (z + 2 ^ 63) mod 2 ^ 64 - 2 ^ 63.

Definition in_range (z : Z) : Prop := min_int <= z <= max_int.

Definition sub (x y : Z) : Z := wrap (x - y).
Definition neg (x : Z) : Z := wrap (- x).

(** [x / y] and [x % y] of Go truncate toward zero; the only overflow is
    [min_int / -1], which wraps. *)
Definition quo (x y : Z) : Z := wrap (Z.quot x y).
Definition rem (x y : Z) : Z := Z.rem x y.

End GoInt.

(** ** Go strings (byte sequences) *)

Abbreviation byte := ascii.

(** Concatenation of strings, Go's [+]. *)
Infix "+++" := String.append (at level 60, right associativity).

Definition between (lo c hi : byte) : bool :=
  (N_of_ascii lo <=? N_of_ascii c)%N && (N_of_ascii c <=? N_of_ascii hi)%N.

Definition len (s : string) : nat := String.length s.

(** [s[a:]] and [s[a:b]] for [a <= b <= len(s)]. *)
Fixpoint drop (a : nat) (s : string) : string :=
  match a, s with
  | O, _ => s
  | S a', String _ s' => drop a' s'
  | S _, EmptyString => EmptyString
  end.

Definition slice (s : string) (a b : nat) : string := substring a (b - a) s.

(** [strings.HasPrefix], [strings.HasSuffix], [strings.Index],
    [strings.Contains]. *)
Definition strings_HasPrefix (s pre : string) : bool := String.prefix pre s.

Definition strings_HasSuffix (s suf : string) : bool :=
  (len suf <=? len s)%nat && String.eqb (drop (len s - len suf) s) suf.

Fixpoint strings_Index (s sep : string) : option nat :=
  if String.prefix sep s then Some O
  else match s with
       | EmptyString => None
       | String _ s' => option_map S (strings_Index s' sep)
       end.

Definition strings_Contains (s sub : string) : bool :=
  match strings_Index s sub with Some _ => true | None => false end.

(** The length of the longest prefix of [s] whose bytes satisfy [f]. *)
Fixpoint run (f : byte -> bool) (s : string) : nat :=
  match s with
  | String c s' => if f c then S (run f s') else O
  | EmptyString => O
  end.

(** [toLowerASCII] returns [s] with all ASCII capital letters lowercased. *)
Definition lowerByte (c : byte) : byte :=
  if between "A" c "Z" then ascii_of_N (N_of_ascii c + 32) else c.

Fixpoint toLowerASCII (s : string) : string :=
  match s with
  | EmptyString => EmptyString
  | String c s' => String (lowerByte c) (toLowerASCII s')
  end.

(** [string(rune(v))]: the UTF-8 encoding of the code point [v]; the
    replacement character U+FFFD when [v] is not a valid code point. *)
Definition byteOf (n : N) : string := String (ascii_of_N n) EmptyString.

Definition utf8 (v : N) : string :=
  (if v <? 128 then byteOf v
   else if v <? 2048 then byteOf (192 + v / 64) +++ byteOf (128 + v mod 64)
   else if ((55296 <=? v) && (v <=? 57343)) || (1114111 <? v)
        then byteOf 239 +++ byteOf 191 +++ byteOf 189
   else if v <? 65536
        then byteOf (224 + v / 4096) +++ byteOf (128 + (v / 64) mod 64)
             +++ byteOf (128 + v mod 64)
   else byteOf (240 + v / 262144) +++ byteOf (128 + (v / 4096) mod 64)
        +++ byteOf (128 + (v / 64) mod 64) +++ byteOf (128 + v mod 64))%N.

(** [strconv.ParseUint(s, 16, 21)] on a string of hexadecimal digits. *)
Definition hexValue (c : byte) : N :=
  (if between "0" c "9" then N_of_ascii c - 48
   else if between "a" c "f" then N_of_ascii c - 87
   else N_of_ascii c - 55)%N.

Fixpoint parseHex (acc : N) (s : string) : N :=
  match s with
  | EmptyString => acc
  | String c s' => parseHex (16 * acc + hexValue c)%N s'
  end.

(** The value of a string of decimal digits. *)
Fixpoint parseDecimal (acc : Z) (s : string) : Z :=
  match s with
  | EmptyString => acc
  | String c s' => parseDecimal (10 * acc + Z.of_N (N_of_ascii c - 48)) s'
  end.

(** ** Results of parsing *)

(** The errors the parser reports, one constructor for each message. *)
Inductive error : Type :=
| ErrInvalidEscape
| ErrEscapedLineEnding
| ErrIdentifierEOF
| ErrIdentifierFound (c : byte)
| ErrNameEOF
| ErrStringEOF
| ErrEndOfLineInString
| ErrEOFInString
| ErrRegexEOF
| ErrEOFInRegex
| ErrRegexCompile (pattern : string)
| ErrIDSelectorEOF
| ErrIDSelectorFound (c : byte)
| ErrClassSelectorEOF
| ErrClassSelectorFound (c : byte)
| ErrAttributeSelectorEOF
| ErrAttributeSelectorFound (c : byte)
| ErrEOFInAttributeSelector
| ErrEqualityOperator (op : string)
| ErrClosingBracket (c : byte)
| ErrAttributeOperator (op : string)
| ErrPseudoclassEOF
| ErrPseudoclassFound (c : byte)
| errExpectedParenthesis
| errExpectedClosingParenthesis
| errUnmatchedParenthesis
| ErrEOFInPseudoSelector
| ErrUnknownPseudo (name : string)
| ErrInteger
| ErrAtoi (digits : string)
| ErrOddOrEven (id : string)
| ErrNthEOF
| ErrNthInvalid
| ErrSelectorEOF
| ErrStandAlonePseudoElement (name : string)
| ErrLeftOver (sel : string) (bytes : nat).

(** A call returns a value, returns an error, or panics (an index out of
    range). [OutOfFuel] is the embedding's own: a loop was given fewer
    steps than it takes. *)
Inductive result (A : Type) : Type :=
| Ok (a : A)
| Err (e : error)
| Panic
| OutOfFuel.

Arguments Ok {A} a.
Arguments Err {A} e.
Arguments Panic {A}.
Arguments OutOfFuel {A}.

Definition bind {A B : Type} (r : result A) (k : A -> result B) : result B :=
  match r with
  | Ok a => k a
  | Err e => Err e
  | Panic => Panic
  | OutOfFuel => OutOfFuel
  end.

Declare Scope go_scope.
Delimit Scope go_scope with go.
Notation "x <- r ;; k" := (bind r (fun x => k))
  (at level 61, r at next level, right associativity) : go_scope.
Notation "' pat <- r ;; k" := (bind r (fun x => match x with pat => k end))
  (at level 61, pat pattern, r at next level, right associativity) : go_scope.

(** [s[k]]: the byte at index [k]; a panic when [k] is out of range. *)
Definition at_ (s : string) (k : nat) : result byte :=
  match String.get k s with
  | Some c => Ok c
  | None => Panic
  end.

(** ** The parser (parser.go) *)

(** The source text and the current position. *)
Record parser : Type := mkParser { p_s : string; p_i : nat }.

Definition setPos (p : parser) (i : nat) : parser := mkParser (p_s p) i.

(** The byte at the current position, when there is one. *)
Definition peek (p : parser) : option byte := String.get (p_i p) (p_s p).

Definition isByte (c d : byte) : bool := Ascii.eqb c d.

Definition hexDigit (c : byte) : bool :=
  between "0" c "9" || between "a" c "f" || between "A" c "F".

(** [nameStart]: [c] can be the first character of an identifier. *)
Definition nameStart (c : byte) : bool :=
  between "a" c "z" || between "A" c "Z" || isByte c "_" || (127 <? N_of_ascii c)%N.

(** [nameChar]: [c] can be a character within an identifier. *)
Definition nameChar (c : byte) : bool :=
  between "a" c "z" || between "A" c "Z" || isByte c "_" || (127 <? N_of_ascii c)%N
  || isByte c "-" || between "0" c "9".

Definition CR : byte := ascii_of_N 13.
Definition LF : byte := ascii_of_N 10.
Definition FF : byte := ascii_of_N 12.
Definition TAB : byte := ascii_of_N 9.
Definition SP : byte := " "%char.
Definition DQUOTE : byte := ascii_of_N 34.

Local Open Scope go_scope.

(** The length of the longest prefix of [s], of at most [k] bytes, whose
    bytes satisfy [f]. *)
Fixpoint runUpTo (f : byte -> bool) (k : nat) (s : string) : nat :=
  match k, s with
  | S k', String c s' => if f c then S (runUpTo f k' s') else O
  | _, _ => O
  end.

(** [parseEscape] parses a backslash escape. *)
Definition parseEscape (p : parser) : result (string * parser) :=
  let s := p_s p in
  if (len s <? p_i p + 2)%nat then Err ErrInvalidEscape
  else
    c0 <- at_ s (p_i p) ;;
    if negb (isByte c0 "\") then Err ErrInvalidEscape
    else
      let start := (p_i p + 1)%nat in
      c <- at_ s start ;;
      if isByte c CR || isByte c LF || isByte c FF then Err ErrEscapedLineEnding
      else if hexDigit c then
        let i := (start + runUpTo hexDigit 5 (drop start s))%nat in
        let v := parseHex 0 (slice s start i) in
        let i :=
          match String.get i s with
          | Some d =>
              if isByte d CR then
                match String.get (i + 1) s with
                | Some e => if isByte e LF then (i + 2)%nat else (i + 1)%nat
                | None => (i + 1)%nat
                end
              else if isByte d SP || isByte d TAB || isByte d LF || isByte d FF
                   then (i + 1)%nat
              else i
          | None => i
          end in
        Ok (utf8 v, setPos p i)
      else Ok (slice s start (start + 1), setPos p (p_i p + 2)).

(** The loop of [parseName]: runs of name characters and escapes, from
    position [i], appended to [res]. *)
Fixpoint parseNameLoop (fuel : nat) (p : parser) (i : nat) (res : string)
  : result (string * nat) :=
  match fuel with
  | O => OutOfFuel
  | S fuel' =>
      match String.get i (p_s p) with
      | None => Ok (res, i)
      | Some c =>
          if nameChar c then
            let j := (i + run nameChar (drop i (p_s p)))%nat in
            parseNameLoop fuel' p j (res +++ slice (p_s p) i j)
          else if isByte c "\" then
            '(val, p') <- parseEscape (setPos p i) ;;
            parseNameLoop fuel' p (p_i p') (res +++ val)
          else Ok (res, i)
      end
  end.

(** [parseName] parses a name (which is like an identifier, but doesn't
    have extra restrictions on the first character). *)
Definition parseName (p : parser) : result (string * parser) :=
  '(res, i) <- parseNameLoop (S (len (p_s p) - p_i p)) p (p_i p) "" ;;
  if String.eqb res "" then Err ErrNameEOF else Ok (res, setPos p i).

(** [parseIdentifier] parses an identifier. *)
Definition parseIdentifier (p : parser) : result (string * parser) :=
  let '(startingDash, p) :=
    match peek p with
    | Some c => if isByte c "-" then (true, setPos p (p_i p + 1)) else (false, p)
    | None => (false, p)
    end in
  match peek p with
  | None => Err ErrIdentifierEOF
  | Some c =>
      if negb (nameStart c || isByte c "\") then Err (ErrIdentifierFound c)
      else
        '(res, p) <- parseName p ;;
        Ok (if startingDash : bool then "-" +++ res else res, p)
  end.

(** The loop of [parseString]; it returns the text read and the position
    where the loop ended. *)
Fixpoint parseStringLoop (fuel : nat) (p : parser) (quote : byte) (i : nat)
         (res : string) : result (string * nat) :=
  match fuel with
  | O => OutOfFuel
  | S fuel' =>
      let s := p_s p in
      match String.get i s with
      | None => Ok (res, i)
      | Some c =>
          if isByte c "\" then
            let escape :=
              '(val, p') <- parseEscape (setPos p i) ;;
              parseStringLoop fuel' p quote (p_i p') (res +++ val) in
            match String.get (i + 1) s with
            | Some c1 =>
                if isByte c1 CR then
                  match String.get (i + 2) s with
                  | Some c2 =>
                      if isByte c2 LF
                      then parseStringLoop fuel' p quote (i + 3) res
                      else parseStringLoop fuel' p quote (i + 2) res
                  | None => parseStringLoop fuel' p quote (i + 2) res
                  end
                else if isByte c1 LF || isByte c1 FF
                     then parseStringLoop fuel' p quote (i + 2) res
                else escape
            | None => escape
            end
          else if isByte c quote then Ok (res, i)
          else if isByte c CR || isByte c LF || isByte c FF
               then Err ErrEndOfLineInString
          else
            let plain d := negb (isByte d quote || isByte d "\" || isByte d CR
                                 || isByte d LF || isByte d FF) in
            let j := (i + run plain (drop i s))%nat in
            parseStringLoop fuel' p quote j (res +++ slice s i j)
      end
  end.

(** [parseString] parses a single- or double-quoted string. *)
Definition parseString (p : parser) : result (string * parser) :=
  let s := p_s p in
  let i := p_i p in
  if (len s <? i + 2)%nat then Err ErrStringEOF
  else
    quote <- at_ s i ;;
    '(res, i) <- parseStringLoop (S (len s - i)) p quote (i + 1) "" ;;
    if (len s <=? i)%nat then Err ErrEOFInString
    else Ok (res, setPos p (i + 1)).

(** The loop of [skipWhitespace]: the position after the white space and
    the comments that start at [i]. *)
Fixpoint skipWhitespaceLoop (fuel : nat) (s : string) (i : nat) : result nat :=
  match fuel with
  | O => OutOfFuel
  | S fuel' =>
      match String.get i s with
      | None => Ok i
      | Some c =>
          if isByte c SP || isByte c TAB || isByte c CR || isByte c LF || isByte c FF
          then skipWhitespaceLoop fuel' s (i + 1)
          else if isByte c "/" && strings_HasPrefix (drop i s) "/*" then
            match strings_Index (drop (i + 2) s) "*/" with
            | Some e => skipWhitespaceLoop fuel' s (i + (e + 4))
            | None => Ok i
            end
          else Ok i
      end
  end.

(** [skipWhitespace] consumes whitespace characters and comments. It
    returns true if there was actually anything to skip. *)
Definition skipWhitespace (p : parser) : result (bool * parser) :=
  i <- skipWhitespaceLoop (S (len (p_s p) - p_i p)) (p_s p) (p_i p) ;;
  if (p_i p <? i)%nat then Ok (true, setPos p i) else Ok (false, p).

(** [consumeParenthesis] consumes an opening parenthesis and any
    following whitespace. *)
Definition consumeParenthesis (p : parser) : result (bool * parser) :=
  match peek p with
  | Some c =>
      if isByte c "(" then
        '(_, p) <- skipWhitespace (setPos p (p_i p + 1)) ;;
        Ok (true, p)
      else Ok (false, p)
  | None => Ok (false, p)
  end.

(** [consumeClosingParenthesis] consumes a closing parenthesis and any
    preceding whitespace; the position is restored when there is none. *)
Definition consumeClosingParenthesis (p : parser) : result (bool * parser) :=
  '(_, p') <- skipWhitespace p ;;
  match peek p' with
  | Some c =>
      if isByte c ")" then Ok (true, setPos p' (p_i p' + 1)) else Ok (false, p)
  | None => Ok (false, p)
  end.

Definition isDigit (c : byte) : bool := between "0" c "9".

(** [parseInteger] parses a decimal integer; [strconv.Atoi] fails when
    the value does not fit in an [int]. *)
Definition parseInteger (p : parser) : result (Z * parser) :=
  let s := p_s p in
  let start := p_i p in
  let i := (start + run isDigit (drop start s))%nat in
  if (i =? start)%nat then Err ErrInteger
  else
    let val := parseDecimal 0 (slice s start i) in
    if val >? GoInt.max_int then Err (ErrAtoi (slice s start i))
    else Ok (val, setPos p i).

Definition advance (p : parser) : parser := setPos p (p_i p + 1).

Definition isN (c : byte) : bool := isByte c "n" || isByte c "N".

(** [parseNth] parses the argument for :nth-child (normally of the form
    an+b). The labels of the Go function are the functions below, last
    label first. *)

(** Label [readN]: the marker was read, the coefficient is [a]. *)
Definition parseNth_readN (a : Z) (p : parser) : result (Z * Z * parser) :=
  '(_, p) <- skipWhitespace p ;;
  match peek p with
  | None => Err ErrNthEOF
  | Some c =>
      if isByte c "+" then
        '(_, p) <- skipWhitespace (advance p) ;;
        '(b, p) <- parseInteger p ;;
        Ok (a, b, p)
      else if isByte c "-" then
        '(_, p) <- skipWhitespace (advance p) ;;
        '(b, p) <- parseInteger p ;;
        Ok (a, GoInt.neg b, p)
      else Ok (a, 0, p)
  end.

(** Label [readA]: the integer [a] was read. *)
Definition parseNth_readA (a : Z) (p : parser) : result (Z * Z * parser) :=
  match peek p with
  | None => Err ErrNthEOF
  | Some c =>
      if isN c then parseNth_readN a (advance p)
      else Ok (0, a, p)
  end.

(** Labels [positiveA] and [negativeA]: a sign was read, or a digit is
    next. *)
Definition parseNth_positiveA (p : parser) : result (Z * Z * parser) :=
  match peek p with
  | None => Err ErrNthEOF
  | Some c =>
      if isDigit c then
        '(a, p) <- parseInteger p ;;
        parseNth_readA a p
      else if isN c then parseNth_readN 1 (advance p)
      else Err ErrNthInvalid
  end.

Definition parseNth_negativeA (p : parser) : result (Z * Z * parser) :=
  match peek p with
  | None => Err ErrNthEOF
  | Some c =>
      if isDigit c then
        '(a, p) <- parseInteger p ;;
        parseNth_readA (GoInt.neg a) p
      else if isN c then parseNth_readN (-1) (advance p)
      else Err ErrNthInvalid
  end.

Definition parseNth (p : parser) : result (Z * Z * parser) :=
  match peek p with
  | None => Err ErrNthEOF
  | Some c =>
      if isByte c "-" then parseNth_negativeA (advance p)
      else if isByte c "+" then parseNth_positiveA (advance p)
      else if isDigit c then parseNth_positiveA p
      else if isN c then parseNth_readN 1 (advance p)
      else if isByte c "o" || isByte c "O" || isByte c "e" || isByte c "E" then
        '(id, p) <- parseName p ;;
        let id := toLowerASCII id in
        if String.eqb id "odd" then Ok (2, 1, p)
        else if String.eqb id "even" then Ok (2, 0, p)
        else Err (ErrOddOrEven id)
      else Err ErrNthInvalid
  end.

(** ** The document tree *)

(** The node kinds of the html package. The sources name [TextNode],
    [DocumentNode], [ElementNode] and [CommentNode]. *)
Inductive NodeType : Type :=
| ErrorNode | TextNode | DocumentNode | ElementNode | CommentNode | DoctypeNode.

Definition NodeType_eqb (x y : NodeType) : bool :=
  match x, y with
  | ErrorNode, ErrorNode | TextNode, TextNode | DocumentNode, DocumentNode
  | ElementNode, ElementNode | CommentNode, CommentNode
  | DoctypeNode, DoctypeNode => true
  | _, _ => false
  end.

Record Attribute : Type := mkAttr { Key : string; Val : string }.

Inductive tree : Type :=
| mkTree (ty : NodeType) (data : string) (attr : list Attribute)
         (children : list tree).

(** The way from a node up to the root: the elder siblings (nearest
    first), the fields of the parent, the parent's own way up, and the
    younger siblings. *)
Inductive path : Type :=
| Top
| Below (lefts : list tree) (pty : NodeType) (pdata : string)
        (pattr : list Attribute) (up : path) (rights : list tree).

(** A [*html.Node]: a subtree seen from its place in the document. *)
Record Node : Type := mkNode { here : tree; ctx : path }.

Definition tree_type (t : tree) : NodeType := let '(mkTree ty _ _ _) := t in ty.
Definition tree_data (t : tree) : string := let '(mkTree _ d _ _) := t in d.
Definition tree_attr (t : tree) : list Attribute := let '(mkTree _ _ a _) := t in a.
Definition tree_children (t : tree) : list tree := let '(mkTree _ _ _ c) := t in c.

Definition Type_ (n : Node) : NodeType := tree_type (here n).
Definition Data (n : Node) : string := tree_data (here n).
Definition Attr (n : Node) : list Attribute := tree_attr (here n).

Definition isElement (n : Node) : bool := NodeType_eqb (Type_ n) ElementNode.

(** [n.Parent] *)
Definition Parent (n : Node) : option Node :=
  match ctx n with
  | Top => None
  | Below l ty d a up r =>
      Some (mkNode (mkTree ty d a (rev l ++ here n :: r)) up)
  end.

(** [n.PrevSibling] and [n.NextSibling] *)
Definition PrevSibling (n : Node) : option Node :=
  match ctx n with
  | Below (x :: l) ty d a up r => Some (mkNode x (Below l ty d a up (here n :: r)))
  | _ => None
  end.

Definition NextSibling (n : Node) : option Node :=
  match ctx n with
  | Below l ty d a up (x :: r) => Some (mkNode x (Below (here n :: l) ty d a up r))
  | _ => None
  end.

(** The children of a node whose elder siblings [l] were already passed,
    in document order. *)
Fixpoint childrenFrom (ty : NodeType) (d : string) (a : list Attribute)
         (up : path) (l r : list tree) : list Node :=
  match r with
  | [] => []
  | x :: r' => mkNode x (Below l ty d a up r') :: childrenFrom ty d a up (x :: l) r'
  end.

(** The nodes visited by [for c := n.FirstChild; c != nil; c = c.NextSibling]. *)
Definition childNodes (n : Node) : list Node :=
  let '(mkTree ty d a ch) := here n in childrenFrom ty d a (ctx n) [] ch.

Definition FirstChild (n : Node) : option Node := hd_error (childNodes n).
Definition LastChild (n : Node) : option Node := hd_error (rev (childNodes n)).

(** The nodes visited by [for c := n.PrevSibling; c != nil; c = c.PrevSibling]. *)
Fixpoint prevFrom (ty : NodeType) (d : string) (a : list Attribute)
         (up : path) (l : list tree) (cur : tree) (r : list tree) : list Node :=
  match l with
  | [] => []
  | x :: l' => mkNode x (Below l' ty d a up (cur :: r))
               :: prevFrom ty d a up l' x (cur :: r)
  end.

Definition prevSiblings (n : Node) : list Node :=
  match ctx n with
  | Top => []
  | Below l ty d a up r => prevFrom ty d a up l (here n) r
  end.

(** The nodes visited by [for p := n.Parent; p != nil; p = p.Parent]. *)
Fixpoint ancestorsFrom (t : tree) (c : path) : list Node :=
  match c with
  | Top => []
  | Below l ty d a up r =>
      let p := mkTree ty d a (rev l ++ t :: r) in
      mkNode p up :: ancestorsFrom p up
  end.

Definition ancestors (n : Node) : list Node := ancestorsFrom (here n) (ctx n).

(** Pointer equality [c == n]: two nodes of one document are the same
    node when they sit at the same place, that is, when the child
    indices on the way up agree. *)
Fixpoint address (c : path) : list nat :=
  match c with
  | Top => []
  | Below l _ _ _ up _ => List.length l :: address up
  end.

Fixpoint address_eqb (x y : list nat) : bool :=
  match x, y with
  | [], [] => true
  | i :: x', j :: y' => Nat.eqb i j && address_eqb x' y'
  | _, _ => false
  end.

Definition node_eqb (c n : Node) : bool :=
  address_eqb (address (ctx c)) (address (ctx n)).

(** ** Attribute matchers (selector.go) *)

(** [matchAttribute]: some attribute named [key] satisfies [f]. *)
Definition matchAttribute (n : Node) (key : string) (f : string -> bool) : bool :=
  if negb (isElement n) then false
  else existsb (fun a => String.eqb (Key a) key && f (Val a)) (Attr n).

(** [attributeNotEqualMatch]: the loop returns false at the first
    attribute named [key] whose value is [val], true when there is none. *)
Fixpoint notEqualLoop (key val : string) (attrs : list Attribute) : bool :=
  match attrs with
  | [] => true
  | a :: rest =>
      if String.eqb (Key a) key && String.eqb (Val a) val then false
      else notEqualLoop key val rest
  end.

Definition attributeNotEqualMatch (key val : string) (n : Node) : bool :=
  if negb (isElement n) then false else notEqualLoop key val (Attr n).

(** ** Positional matchers (selector.go) *)

(** The test that makes the sibling loops [continue]:
    [c.Type != html.ElementNode || (ofType && c.Data != n.Data)]. *)
Definition passedOver (ofType : bool) (n c : Node) : bool :=
  negb (isElement c) || (ofType && negb (String.eqb (Data c) (Data n))).

(** The loop of [nthChildMatch] over the children of the parent; it
    returns the final [(count, i)]. The counters are bounded by the
    number of children, so they are not wrapped. *)
Fixpoint nthLoop (last ofType : bool) (n : Node) (cs : list Node)
         (count i : Z) : Z * Z :=
  match cs with
  | [] => (count, i)
  | c :: cs' =>
      if passedOver ofType n c then nthLoop last ofType n cs' count i
      else
        let count := count + 1 in
        if node_eqb c n then
          if negb last then (count, count)
          else nthLoop last ofType n cs' count count
        else nthLoop last ofType n cs' count i
  end.

(** [nthChildMatch] implements :nth-child(an+b); with [last] it is
    :nth-last-child, with [ofType] :nth-of-type. *)
Definition nthChildMatch (a b : Z) (last ofType : bool) (n : Node) : bool :=
  if negb (isElement n) then false
  else match Parent n with
  | None => false
  | Some parent =>
      if NodeType_eqb (Type_ parent) DocumentNode then false
      else
        let '(count, i) := nthLoop last ofType n (childNodes parent) 0 (-1) in
        if i =? -1 then false
        else
          let i := if last then count - i + 1 else i in
          let i := GoInt.sub i b in
          if a =? 0 then i =? 0
          else (GoInt.rem i a =? 0) && (GoInt.quo i a >=? 0)
  end.

(** The loop shared by [simpleNthChildMatch] (children from the first
    on) and [simpleNthLastChildMatch] (children from the last back). *)
Fixpoint simpleLoop (b : Z) (ofType : bool) (n : Node) (cs : list Node)
         (count : Z) : bool :=
  match cs with
  | [] => false
  | c :: cs' =>
      if passedOver ofType n c then simpleLoop b ofType n cs' count
      else
        let count := count + 1 in
        if node_eqb c n then count =? b
        else if count >=? b then false
        else simpleLoop b ofType n cs' count
  end.

Definition simpleNthChildMatch (b : Z) (ofType : bool) (n : Node) : bool :=
  if negb (isElement n) then false
  else match Parent n with
  | None => false
  | Some parent =>
      if NodeType_eqb (Type_ parent) DocumentNode then false
      else simpleLoop b ofType n (childNodes parent) 0
  end.

Definition simpleNthLastChildMatch (b : Z) (ofType : bool) (n : Node) : bool :=
  if negb (isElement n) then false
  else match Parent n with
  | None => false
  | Some parent =>
      if NodeType_eqb (Type_ parent) DocumentNode then false
      else simpleLoop b ofType n (rev (childNodes parent)) 0
  end.

(** ** Combinators (selector.go) *)

(** The [Matcher] interface: any value with a method Match from a node to
    bool. A call of an interface method may panic (a nil matcher, an
    unknown operation): [None] stands for the panic. *)
Definition Matcher : Type := Node -> option bool.

(** Go's [x && y] and [x || y]: [y] is evaluated only when [x] does not
    decide. *)
Definition andAlso (x y : option bool) : option bool :=
  match x with Some true => y | _ => x end.

Definition orElse (x y : option bool) : option bool :=
  match x with Some false => y | _ => x end.

Infix "&&&" := andAlso (at level 40, left associativity).
Infix "|||" := orElse (at level 50, left associativity).

(** A loop that returns true at the first node that matches [a], false
    when the nodes are exhausted. *)
Fixpoint anyMatch (a : Matcher) (cs : list Node) : option bool :=
  match cs with
  | [] => Some false
  | c :: cs' => a c ||| anyMatch a cs'
  end.

(** [descendantMatch]: [n] matches [d] and some ancestor matches [a]. *)
Definition descendantMatch (a d : Matcher) (n : Node) : option bool :=
  d n &&& anyMatch a (ancestors n).

(** [childMatch]: [n] matches [d] and its parent matches [a]. *)
Definition childMatch (a d : Matcher) (n : Node) : option bool :=
  d n &&& match Parent n with None => Some false | Some p => a p end.

(** The backward walk of the adjacent case of [siblingMatch]: text and
    comment nodes are stepped over, the first other node decides. *)
Fixpoint adjacentLoop (s1 : Matcher) (ps : list Node) : option bool :=
  match ps with
  | [] => Some false
  | c :: ps' =>
      if NodeType_eqb (Type_ c) TextNode || NodeType_eqb (Type_ c) CommentNode
      then adjacentLoop s1 ps'
      else s1 c
  end.

(** [siblingMatch]: [n] matches [s2] and is preceded by a sibling that
    matches [s1]. If [adjacent] is true, the sibling must be immediately
    before the element. *)
Definition siblingMatch (s1 s2 : Matcher) (adjacent : bool) (n : Node)
  : option bool :=
  s2 n &&& (if adjacent then adjacentLoop s1 (prevSiblings n)
            else anyMatch s1 (prevSiblings n)).

(** ** The selector representation (selector.go, serialize.go) *)

(** What the package takes from the libraries [regexp] and [strings]
    (Unicode-aware): whether a pattern compiles, whether a compiled
    pattern matches a text, lower-casing and trimming of white space. *)
Record Ext : Type := mkExt {
  regexp_valid : string -> bool;
  regexp_MatchString : string -> string -> bool;
  strings_ToLower : string -> string;
  strings_TrimSpace : string -> string
}.

(** A compiled [*regexp.Regexp], held as its source text (which is what
    [Regexp.String] returns). *)
Definition Regexp : Type := string.

(** The structs that implement [Matcher]. A field of interface or
    pointer type may be nil: it is an [option]. *)
Inductive Sel : Type :=
| tagSelector (tag : string)
| classSelector (class : string)
| idSelector (id : string)
| attrSelector (key val operation : string) (regexp : option Regexp)
| relativePseudoClassSelector (name : string) (match_ : option Sel)
| containsPseudoClassSelector (own : bool) (value : string)
| regexpPseudoClassSelector (own : bool) (regexp : option Regexp)
| nthPseudoClassSelector (a b : Z) (last ofType : bool)
| onlyChildPseudoClassSelector (ofType : bool)
| inputPseudoClassSelector
| emptyElementPseudoClassSelector
| rootPseudoClassSelector
| compoundSelector (selectors : list (option Sel)) (pseudoElement : string)
| combinedSelector (first : option Sel) (combinator : byte) (second : option Sel)
| selectorGroup (sels : list (option Sel)).

(** [tagSelector.Match]: an element with the given tag name. *)
Definition tagMatch (tag : string) : Matcher :=
  fun n => Some (isElement n && String.eqb (Data n) tag).

Definition isSpace (c : byte) : bool :=
  isByte c SP || isByte c TAB || isByte c CR || isByte c LF || isByte c FF.

(** [matchInclude]: [s] is a whitespace-separated list that includes
    [val]. The Go loop cuts [s] at each separator and compares the piece
    before it; the last piece is compared when it is not empty. Here the
    bytes are read one by one and [tok] is the piece read so far. *)
Fixpoint matchIncludeScan (val tok s : string) : bool :=
  match s with
  | EmptyString => if String.eqb tok "" then false else String.eqb tok val
  | String c s' =>
      if isSpace c then
        if String.eqb tok val then true else matchIncludeScan val "" s'
      else matchIncludeScan val (tok +++ String c EmptyString) s'
  end.

Definition matchInclude (val s : string) : bool := matchIncludeScan val "" s.

(** [attributeDashMatch]: the attribute equals [val] or starts with [val]
    plus a hyphen. *)
Definition attributeDashMatch (key val : string) (n : Node) : bool :=
  matchAttribute n key (fun s =>
    if String.eqb s val then true
    else if (len s <=? len val)%nat then false
    else String.eqb (slice s 0 (len val)) val
         && match String.get (len val) s with
            | Some c => isByte c "-"
            | None => false
            end).

(** [writeNodeText], [nodeText]: the text contained in a node and its
    descendants. *)
Fixpoint treeText (t : tree) : string :=
  match t with
  | mkTree TextNode d _ _ => d
  | mkTree ElementNode _ _ ch =>
      (fix children (l : list tree) : string :=
         match l with
         | [] => ""
         | x :: l' => treeText x +++ children l'
         end) ch
  | _ => ""
  end.

Definition nodeText (n : Node) : string := treeText (here n).

(** [nodeOwnText]: the contents of the text nodes that are direct
    children of [n]. *)
Definition nodeOwnText (n : Node) : string :=
  fold_right (fun c acc =>
                if NodeType_eqb (Type_ c) TextNode then Data c +++ acc else acc)
             "" (childNodes n).

(** [hasChildMatch]: [n] has a child that matches [a]. *)
Definition hasChildMatch (n : Node) (a : Matcher) : option bool :=
  anyMatch a (childNodes n).

(** [hasDescendantMatch]: a depth-first search of the descendants of the
    node [mkNode t cx] for one that matches [a]. *)
Fixpoint hasDescendantTree (a : Matcher) (t : tree) (cx : path) : option bool :=
  match t with
  | mkTree ty d at_ ch =>
      (fix children (l r : list tree) : option bool :=
         match r with
         | [] => Some false
         | x :: r' =>
             let c := mkNode x (Below l ty d at_ cx r') in
             (a c ||| (if isElement c
                       then hasDescendantTree a x (Below l ty d at_ cx r')
                       else Some false))
             ||| children (x :: l) r'
         end) [] ch
  end.

Definition hasDescendantMatch (n : Node) (a : Matcher) : option bool :=
  hasDescendantTree a (here n) (ctx n).

(** The loop of [onlyChildPseudoClassSelector.Match]. *)
Fixpoint onlyChildLoop (ofType : bool) (n : Node) (cs : list Node) (count : Z)
  : bool :=
  match cs with
  | [] => count =? 1
  | c :: cs' =>
      if passedOver ofType n c then onlyChildLoop ofType n cs' count
      else if count + 1 >? 1 then false
      else onlyChildLoop ofType n cs' (count + 1)
  end.

Definition onlyChildMatch (ofType : bool) (n : Node) : bool :=
  if negb (isElement n) then false
  else match Parent n with
  | None => false
  | Some parent =>
      if NodeType_eqb (Type_ parent) DocumentNode then false
      else onlyChildLoop ofType n (childNodes parent) 0
  end.

Section Matching.

Variable E : Ext.

(** [attributePrefixMatch], [attributeSuffixMatch],
    [attributeSubstringMatch], [attributeRegexMatch]. *)
Definition attributePrefixMatch (key val : string) (n : Node) : bool :=
  matchAttribute n key (fun s =>
    if String.eqb (strings_TrimSpace E s) "" then false
    else strings_HasPrefix s val).

Definition attributeSuffixMatch (key val : string) (n : Node) : bool :=
  matchAttribute n key (fun s =>
    if String.eqb (strings_TrimSpace E s) "" then false
    else strings_HasSuffix s val).

Definition attributeSubstringMatch (key val : string) (n : Node) : bool :=
  matchAttribute n key (fun s =>
    if String.eqb (strings_TrimSpace E s) "" then false
    else strings_Contains s val).

(** With a nil [rx] the call [rx.MatchString] panics; it is made for the
    first attribute named [key] of an element. *)
Definition attributeRegexMatch (key : string) (rx : option Regexp) (n : Node)
  : option bool :=
  match rx with
  | Some r => Some (matchAttribute n key (regexp_MatchString E r))
  | None =>
      if isElement n && existsb (fun a => String.eqb (Key a) key) (Attr n)
      then None else Some false
  end.

(** The [Match] methods. *)
Fixpoint Match (s : Sel) : Matcher :=
  fun n =>
  match s with
  | tagSelector tag => tagMatch tag n
  | classSelector class =>
      Some (matchAttribute n "class" (fun s => matchInclude class s))
  | idSelector id =>
      Some (matchAttribute n "id" (fun s => String.eqb s id))
  | attrSelector key val operation rx =>
      if String.eqb operation "" then Some (matchAttribute n key (fun _ => true))
      else if String.eqb operation "=" then
        Some (matchAttribute n key (fun s => String.eqb s val))
      else if String.eqb operation "!=" then Some (attributeNotEqualMatch key val n)
      else if String.eqb operation "~=" then
        Some (matchAttribute n key (fun s => matchInclude val s))
      else if String.eqb operation "|=" then Some (attributeDashMatch key val n)
      else if String.eqb operation "^=" then Some (attributePrefixMatch key val n)
      else if String.eqb operation "$=" then Some (attributeSuffixMatch key val n)
      else if String.eqb operation "*=" then Some (attributeSubstringMatch key val n)
      else if String.eqb operation "#=" then attributeRegexMatch key rx n
      else None
  | relativePseudoClassSelector name m =>
      let inner : Matcher :=
        match m with Some s' => Match s' | None => fun _ => None end in
      if negb (isElement n) then Some false
      else if String.eqb name "not" then option_map negb (inner n)
      else if String.eqb name "has" then hasDescendantMatch n inner
      else if String.eqb name "haschild" then hasChildMatch n inner
      else None
  | containsPseudoClassSelector own value =>
      let text := if own then strings_ToLower E (nodeOwnText n)
                  else strings_ToLower E (nodeText n) in
      Some (strings_Contains text value)
  | regexpPseudoClassSelector own rx =>
      let text := if own then nodeOwnText n else nodeText n in
      option_map (fun r => regexp_MatchString E r text) rx
  | nthPseudoClassSelector a b last ofType =>
      if a =? 0 then
        if last then Some (simpleNthLastChildMatch b ofType n)
        else Some (simpleNthChildMatch b ofType n)
      else Some (nthChildMatch a b last ofType n)
  | onlyChildPseudoClassSelector ofType => Some (onlyChildMatch ofType n)
  | inputPseudoClassSelector =>
      Some (isElement n
            && (String.eqb (Data n) "input" || String.eqb (Data n) "select"
                || String.eqb (Data n) "textarea" || String.eqb (Data n) "button"))
  | emptyElementPseudoClassSelector =>
      if negb (isElement n) then Some false
      else Some (forallb (fun c => negb (isElement c
                                         || NodeType_eqb (Type_ c) TextNode))
                         (childNodes n))
  | rootPseudoClassSelector =>
      if negb (isElement n) then Some false
      else match Parent n with
           | None => Some false
           | Some p => Some (NodeType_eqb (Type_ p) DocumentNode)
           end
  | compoundSelector selectors _ =>
      match selectors with
      | [] => Some (isElement n)
      | _ =>
          (fix each (l : list (option Sel)) : option bool :=
             match l with
             | [] => Some true
             | sel :: l' =>
                 match sel with Some s' => Match s' n | None => None end
                 &&& each l'
             end) selectors
      end
  | combinedSelector first combinator second =>
      let m (o : option Sel) : Matcher :=
        match o with Some s' => Match s' | None => fun _ => None end in
      match first with
      | None => Some false
      | Some _ =>
          if isByte combinator zero then m first n
          else if isByte combinator " " then descendantMatch (m first) (m second) n
          else if isByte combinator ">" then childMatch (m first) (m second) n
          else if isByte combinator "+" then siblingMatch (m first) (m second) true n
          else if isByte combinator "~" then siblingMatch (m first) (m second) false n
          else None
      end
  | selectorGroup sels =>
      (fix any (l : list (option Sel)) : option bool :=
         match l with
         | [] => Some false
         | sel :: l' =>
             match sel with Some s' => Match s' n | None => None end
             ||| any l'
         end) sels
  end.

End Matching.

(** ** Traversals (selector.go) *)

(** The nodes of the subtree of [mkNode t cx] in document order (a node
    before its children, the children from the first on). *)
Fixpoint subtree (t : tree) (cx : path) : list Node :=
  mkNode t cx ::
  match t with
  | mkTree ty d at_ ch =>
      (fix children (l r : list tree) : list Node :=
         match r with
         | [] => []
         | x :: r' => subtree x (Below l ty d at_ cx r') ++ children (x :: l) r'
         end) [] ch
  end.

(** [Filter] returns the nodes in [nodes] that match the selector. *)
Fixpoint Filter (s : Matcher) (nodes : list Node) : option (list Node) :=
  match nodes with
  | [] => Some []
  | n :: rest =>
      match s n with
      | Some true => option_map (cons n) (Filter s rest)
      | Some false => Filter s rest
      | None => None
      end
  end.

(** [matchAllInto] appends to [storage] the nodes that match: the node
    itself, then, child after child, those of the subtrees of its
    children. *)
Fixpoint matchAllInto (s : Matcher) (t : tree) (cx : path) (storage : list Node)
  : option (list Node) :=
  match s (mkNode t cx) with
  | None => None
  | Some found =>
      let storage := if found then storage ++ [mkNode t cx] else storage in
      match t with
      | mkTree ty d at_ ch =>
          (fix children (l r : list tree) (storage : list Node)
             : option (list Node) :=
             match r with
             | [] => Some storage
             | x :: r' =>
                 match matchAllInto s x (Below l ty d at_ cx r') storage with
                 | Some storage => children (x :: l) r' storage
                 | None => None
                 end
             end) [] ch storage
      end
  end.

(** [MatchAll] returns the nodes that match the selector, from [n] and
    its children. *)
Definition MatchAll (s : Matcher) (n : Node) : option (list Node) :=
  matchAllInto s (here n) (ctx n) [].

(** [MatchFirst] returns the first node that matches [s], from [n] and
    its children; the inner [None] is Go's nil. *)
Fixpoint MatchFirstFrom (s : Matcher) (t : tree) (cx : path)
  : option (option Node) :=
  match s (mkNode t cx) with
  | None => None
  | Some true => Some (Some (mkNode t cx))
  | Some false =>
      match t with
      | mkTree ty d at_ ch =>
          (fix children (l r : list tree) : option (option Node) :=
             match r with
             | [] => Some None
             | x :: r' =>
                 match MatchFirstFrom s x (Below l ty d at_ cx r') with
                 | None => None
                 | Some (Some m) => Some (Some m)
                 | Some None => children (x :: l) r'
                 end
             end) [] ch
      end
  end.

Definition MatchFirst (s : Matcher) (n : Node) : option (option Node) :=
  MatchFirstFrom s (here n) (ctx n).

(** ** Specificity (specificity.go) *)

(** [Specificity] is [[3]uint8]: the counts A, B, C. *)
Record Specificity : Type := mkSpec { sA : N; sB : N; sC : N }.

Definition uint8 (z : N) : N := (z mod 256)%N.

(** [Less] returns true if [s < other] (strictly), false otherwise. *)
Definition Less (s other : Specificity) : bool :=
  (if sA s <? sA other then true
   else if sA other <? sA s then false
   else if sB s <? sB other then true
   else if sB other <? sB s then false
   else if sC s <? sC other then true
   else if sC other <? sC s then false
   else false)%N.

Definition add (s other : Specificity) : Specificity :=
  mkSpec (uint8 (sA s + sA other)) (uint8 (sB s + sB other))
         (uint8 (sC s + sC other)).

(** What the parser builds for one selector of a group: its matcher (nil
    until one is installed), its specificity and its pseudo-element. *)
Record oneSelector : Type := mkOne {
  o_match : option Sel;
  o_Specificity : Specificity;
  o_PseudoElement : string
}.

Definition Selector : Type := list oneSelector.

Definition noSpecificity : Specificity := mkSpec 0 0 0.

(** The zero value [oneSelector{}]. *)
Definition zeroSelector : oneSelector := mkOne None noSpecificity "".

(** [maximumSpecificity]: the loop keeps the specificity of a selector
    when the one kept so far is less. *)
Definition keepGreater (out : Specificity) (sel : oneSelector) : Specificity :=
  if Less out (o_Specificity sel) then o_Specificity sel else out.

Definition maximumSpecificity (s : Selector) : Specificity :=
  fold_left keepGreater s noSpecificity.

(** ** The matchers the parser installs

    The parser of parser.go installs a matcher for each clause it reads.
    Each matcher is held as the [Sel] value whose [Match] it is. *)

Definition withMatch (m : Sel) (sp : Specificity) : oneSelector :=
  mkOne (Some m) sp "".

(** [typeSelector] matches the elements whose tag is the lower-cased
    name (selector.go); the specificity of a tag is (0,0,1)
    (specificity.go). *)
Definition typeSelector (tag : string) : oneSelector :=
  withMatch (tagSelector (toLowerASCII tag)) (mkSpec 0 0 1).

(** The attribute matchers; the key is compared lower-cased. *)
Definition attributeSelector (key val operation : string) (rx : option Regexp)
  : Sel := attrSelector (toLowerASCII key) val operation rx.

Definition attributeExistsSelector (key : string) : Sel :=
  attributeSelector key "" "" None.
Definition attributeEqualsSelector (key val : string) : Sel :=
  attributeSelector key val "=" None.
Definition attributeNotEqualSelector (key val : string) : Sel :=
  attributeSelector key val "!=" None.
Definition attributeIncludesSelector (key val : string) : Sel :=
  attributeSelector key val "~=" None.
Definition attributeDashmatchSelector (key val : string) : Sel :=
  attributeSelector key val "|=" None.
Definition attributePrefixSelector (key val : string) : Sel :=
  attributeSelector key val "^=" None.
Definition attributeSuffixSelector (key val : string) : Sel :=
  attributeSelector key val "$=" None.
Definition attributeSubstringSelector (key val : string) : Sel :=
  attributeSelector key val "*=" None.
Definition attributeRegexSelector (key : string) (rx : option Regexp) : Sel :=
  attributeSelector key "" "#=" rx.

(** [intersectionSelector]: both [a] and [b] match. *)
Definition intersectionSelector (a b : option Sel) : Sel :=
  compoundSelector [a; b] "".

(** Modelled from the spec: [unionMatch] is not among the sources; a
    group matches when one of its selectors does. *)
Definition unionMatch (s : Selector) : Sel := selectorGroup (map o_match s).

Definition negatedSelector (a : Sel) : Sel :=
  relativePseudoClassSelector "not" (Some a).
Definition hasDescendantSelector (a : Sel) : Sel :=
  relativePseudoClassSelector "has" (Some a).
Definition hasChildSelector (a : Sel) : Sel :=
  relativePseudoClassSelector "haschild" (Some a).

Definition textSubstrSelector (val : string) : Sel :=
  containsPseudoClassSelector false val.
Definition ownTextSubstrSelector (val : string) : Sel :=
  containsPseudoClassSelector true val.
Definition textRegexSelector (rx : Regexp) : Sel :=
  regexpPseudoClassSelector false (Some rx).
Definition ownTextRegexSelector (rx : Regexp) : Sel :=
  regexpPseudoClassSelector true (Some rx).

Definition nthChildSelector (a b : Z) (last ofType : bool) : Sel :=
  nthPseudoClassSelector a b last ofType.
Definition simpleNthChildSelector (b : Z) (ofType : bool) : Sel :=
  nthPseudoClassSelector 0 b false ofType.
Definition simpleNthLastChildSelector (b : Z) (ofType : bool) : Sel :=
  nthPseudoClassSelector 0 b true ofType.
Definition onlyChildSelector (ofType : bool) : Sel :=
  onlyChildPseudoClassSelector ofType.
Definition inputSelector : Sel := inputPseudoClassSelector.
Definition emptyElementSelector : Sel := emptyElementPseudoClassSelector.
Definition rootSelector : Sel := rootPseudoClassSelector.

Definition descendantSelector (a d : option Sel) : Sel := combinedSelector a " " d.
Definition childSelector (a d : option Sel) : Sel := combinedSelector a ">" d.
Definition siblingSelector (s1 s2 : option Sel) (adjacent : bool) : Sel :=
  combinedSelector s1 (if adjacent then "+"%char else "~"%char) s2.

(** The matcher installed when a compound has no clause:
    [n.Type == html.ElementNode]. *)
Definition anyElement : Sel := compoundSelector [] "".

(** ** The grammar (parser.go) *)

(** The scan of [parseRegex]: the position of the first closing
    parenthesis or bracket that has no opening one, or the end of the
    text; [open] counts the open parentheses and brackets. *)
Fixpoint regexEnd (rest : string) (i : nat) (open : Z) : nat :=
  match rest with
  | EmptyString => i
  | String c rest' =>
      if isByte c "(" || isByte c "[" then regexEnd rest' (S i) (open + 1)
      else if isByte c ")" || isByte c "]" then
        if open - 1 <? 0 then i else regexEnd rest' (S i) (open - 1)
      else regexEnd rest' (S i) open
  end.

Section Grammar.

Variable E : Ext.

(** [parseRegex] parses a regular expression; the end is defined by
    encountering an unmatched closing ')' or ']' which is not consumed. *)
Definition parseRegex (p : parser) : result (Regexp * parser) :=
  let s := p_s p in
  if (len s <? p_i p + 2)%nat then Err ErrRegexEOF
  else
    let i := regexEnd (drop (p_i p) s) (p_i p) 0 in
    if (len s <=? i)%nat then Err ErrEOFInRegex
    else
      let pattern := slice s (p_i p) i in
      if regexp_valid E pattern then Ok (pattern, setPos p i)
      else Err (ErrRegexCompile pattern).

(** [parseTypeSelector] parses a type selector (one that matches by tag
    name). *)
Definition parseTypeSelector (p : parser) : result (oneSelector * parser) :=
  '(tag, p) <- parseIdentifier p ;;
  Ok (typeSelector tag, p).

(** [parseIDSelector] parses a selector that matches by id attribute. *)
Definition parseIDSelector (p : parser) : result (oneSelector * parser) :=
  match peek p with
  | None => Err ErrIDSelectorEOF
  | Some c =>
      if negb (isByte c "#") then Err (ErrIDSelectorFound c)
      else
        '(id, p) <- parseName (advance p) ;;
        Ok (withMatch (attributeEqualsSelector "id" id) (mkSpec 1 0 0), p)
  end.

(** [parseClassSelector] parses a selector that matches by class
    attribute. *)
Definition parseClassSelector (p : parser) : result (oneSelector * parser) :=
  match peek p with
  | None => Err ErrClassSelectorEOF
  | Some c =>
      if negb (isByte c ".") then Err (ErrClassSelectorFound c)
      else
        '(class, p) <- parseIdentifier (advance p) ;;
        Ok (withMatch (attributeIncludesSelector "class" class) (mkSpec 0 1 0), p)
  end.

Definition atEnd (p : parser) : bool := (len (p_s p) <=? p_i p)%nat.

Definition isQuote (c : byte) : bool := isByte c "'" || isByte c DQUOTE.

(** A quoted string or an identifier, as the next byte tells. *)
Definition parseStringOrIdentifier (p : parser) : result (string * parser) :=
  c <- at_ (p_s p) (p_i p) ;;
  if isQuote c then parseString p else parseIdentifier p.

(** [parseAttributeMatcher] parses a selector that matches by attribute
    value. *)
Definition parseAttributeMatcher (p : parser) : result (Sel * parser) :=
  match peek p with
  | None => Err ErrAttributeSelectorEOF
  | Some c =>
      if negb (isByte c "[") then Err (ErrAttributeSelectorFound c)
      else
        '(_, p) <- skipWhitespace (advance p) ;;
        '(key, p) <- parseIdentifier p ;;
        '(_, p) <- skipWhitespace p ;;
        match peek p with
        | None => Err ErrEOFInAttributeSelector
        | Some c =>
            if isByte c "]" then Ok (attributeExistsSelector key, advance p)
            else if (len (p_s p) <=? p_i p + 2)%nat then Err ErrEOFInAttributeSelector
            else
              let op := slice (p_s p) (p_i p) (p_i p + 2) in
              op0 <- at_ op 0 ;;
              op1 <- at_ op 1 ;;
              if negb (isByte op0 "=") && negb (isByte op1 "=")
              then Err (ErrEqualityOperator op)
              else
                let op := if isByte op0 "=" then "=" else op in
                '(_, p) <- skipWhitespace (setPos p (p_i p + len op)) ;;
                if atEnd p then Err ErrEOFInAttributeSelector
                else
                  '(val, rx, p) <-
                    (if String.eqb op "#=" then
                       '(rx, p) <- parseRegex p ;; Ok ("", Some rx, p)
                     else
                       '(val, p) <- parseStringOrIdentifier p ;; Ok (val, None, p)) ;;
                  '(_, p) <- skipWhitespace p ;;
                  match peek p with
                  | None => Err ErrEOFInAttributeSelector
                  | Some c =>
                      if negb (isByte c "]") then Err (ErrClosingBracket c)
                      else
                        let p := advance p in
                        if String.eqb op "=" then Ok (attributeEqualsSelector key val, p)
                        else if String.eqb op "!=" then Ok (attributeNotEqualSelector key val, p)
                        else if String.eqb op "~=" then Ok (attributeIncludesSelector key val, p)
                        else if String.eqb op "|=" then Ok (attributeDashmatchSelector key val, p)
                        else if String.eqb op "^=" then Ok (attributePrefixSelector key val, p)
                        else if String.eqb op "$=" then Ok (attributeSuffixSelector key val, p)
                        else if String.eqb op "*=" then Ok (attributeSubstringSelector key val, p)
                        else if String.eqb op "#=" then Ok (attributeRegexSelector key rx, p)
                        else Err (ErrAttributeOperator op)
                  end
        end
  end.

(** [parseAttributeSelector] parses a selector that matches by attribute
    value. *)
Definition parseAttributeSelector (p : parser) : result (oneSelector * parser) :=
  '(m, p) <- parseAttributeMatcher p ;;
  Ok (withMatch m (mkSpec 0 1 0), p).

(** The head of [parsePseudoclassSelector]: the colon, a second colon,
    and the name, lower-cased. The byte after the first colon is read
    without a test of the length. *)
Definition pseudoclassName (p : parser) : result (string * parser) :=
  match peek p with
  | None => Err ErrPseudoclassEOF
  | Some c =>
      if negb (isByte c ":") then Err (ErrPseudoclassFound c)
      else
        let p := advance p in
        c <- at_ (p_s p) (p_i p) ;;
        let p := if isByte c ":" then advance p else p in
        '(name, p) <- parseIdentifier p ;;
        Ok (toLowerASCII name, p)
  end.

Definition oneOf (name : string) (names : list string) : bool :=
  existsb (String.eqb name) names.

Definition pseudoElements : list string :=
  ["after"; "backdrop"; "before"; "cue"; "first-letter"; "first-line";
   "grammar-error"; "marker"; "placeholder"; "selection"; "spelling-error"].

(** An opening parenthesis is required. *)
Definition openParenthesis (p : parser) : result parser :=
  '(found, p) <- consumeParenthesis p ;;
  if found : bool then Ok p else Err errExpectedParenthesis.

Definition closeParenthesis (p : parser) : result parser :=
  '(found, p) <- consumeClosingParenthesis p ;;
  if found : bool then Ok p else Err errExpectedClosingParenthesis.

(** The switch of [parsePseudoclassSelector] on the name;
    [parseSelectorGroup] is the parser of the nested group. *)
Definition pseudoclassBody
           (parseSelectorGroup : parser -> result (Selector * parser))
           (name : string) (p : parser) : result (oneSelector * parser) :=
  let out := mkSpec 0 1 0 in
  if oneOf name ["not"; "has"; "haschild"] then
    p <- openParenthesis p ;;
    '(sel, p) <- parseSelectorGroup p ;;
    p <- closeParenthesis p ;;
    let sp := maximumSpecificity sel in
    if String.eqb name "not" then Ok (withMatch (negatedSelector (unionMatch sel)) sp, p)
    else if String.eqb name "has"
    then Ok (withMatch (hasDescendantSelector (unionMatch sel)) sp, p)
    else Ok (withMatch (hasChildSelector (unionMatch sel)) sp, p)
  else if oneOf name ["contains"; "containsown"] then
    p <- openParenthesis p ;;
    if (p_i p =? len (p_s p))%nat then Err errUnmatchedParenthesis
    else
      '(val, p) <- parseStringOrIdentifier p ;;
      let val := strings_ToLower E val in
      '(_, p) <- skipWhitespace p ;;
      if atEnd p then Err ErrEOFInPseudoSelector
      else
        p <- closeParenthesis p ;;
        if String.eqb name "contains" then Ok (withMatch (textSubstrSelector val) out, p)
        else Ok (withMatch (ownTextSubstrSelector val) out, p)
  else if oneOf name ["matches"; "matchesown"] then
    p <- openParenthesis p ;;
    '(rx, p) <- parseRegex p ;;
    if atEnd p then Err ErrEOFInPseudoSelector
    else
      p <- closeParenthesis p ;;
      if String.eqb name "matches" then Ok (withMatch (textRegexSelector rx) out, p)
      else Ok (withMatch (ownTextRegexSelector rx) out, p)
  else if oneOf name ["nth-child"; "nth-last-child"; "nth-of-type"; "nth-last-of-type"]
  then
    p <- openParenthesis p ;;
    '(a, b, p) <- parseNth p ;;
    p <- closeParenthesis p ;;
    if a =? 0 then
      if String.eqb name "nth-child" then Ok (withMatch (simpleNthChildSelector b false) out, p)
      else if String.eqb name "nth-of-type"
      then Ok (withMatch (simpleNthChildSelector b true) out, p)
      else if String.eqb name "nth-last-child"
      then Ok (withMatch (simpleNthLastChildSelector b false) out, p)
      else Ok (withMatch (simpleNthLastChildSelector b true) out, p)
    else
      Ok (withMatch
            (nthChildSelector a b
               (String.eqb name "nth-last-child" || String.eqb name "nth-last-of-type")
               (String.eqb name "nth-of-type" || String.eqb name "nth-last-of-type"))
            out, p)
  else if String.eqb name "first-child" then Ok (withMatch (simpleNthChildSelector 1 false) out, p)
  else if String.eqb name "last-child" then Ok (withMatch (simpleNthLastChildSelector 1 false) out, p)
  else if String.eqb name "first-of-type" then Ok (withMatch (simpleNthChildSelector 1 true) out, p)
  else if String.eqb name "last-of-type" then Ok (withMatch (simpleNthLastChildSelector 1 true) out, p)
  else if String.eqb name "only-child" then Ok (withMatch (onlyChildSelector false) out, p)
  else if String.eqb name "only-of-type" then Ok (withMatch (onlyChildSelector true) out, p)
  else if String.eqb name "input" then Ok (withMatch inputSelector out, p)
  else if String.eqb name "empty" then Ok (withMatch emptyElementSelector out, p)
  else if String.eqb name "root" then Ok (withMatch rootSelector out, p)
  else if oneOf name pseudoElements then Ok (mkOne None (mkSpec 0 0 1) name, p)
  else Err (ErrUnknownPseudo name).

(** [parsePseudoclassSelector] parses a pseudoclass selector like
    :not(p). *)
Definition parsePseudoclassSelector
           (parseSelectorGroup : parser -> result (Selector * parser))
           (p : parser) : result (oneSelector * parser) :=
  '(name, p) <- pseudoclassName p ;;
  pseudoclassBody parseSelectorGroup name p.

(** The first switch of [parseSimpleSelectorSequence]: the universal
    selector is skipped, a clause is left for the loop, anything else is
    a type selector. *)
Definition parseBase (p : parser) : result (oneSelector * parser) :=
  match peek p with
  | None => Err ErrSelectorEOF
  | Some c =>
      if isByte c "*" then Ok (zeroSelector, advance p)
      else if isByte c "#" || isByte c "." || isByte c "[" || isByte c ":"
      then Ok (zeroSelector, p)
      else parseTypeSelector p
  end.

(** The switch in the loop of [parseSimpleSelectorSequence]: the clause
    the next byte announces; [None] when it announces none and the loop
    is left. *)
Definition parseClause
           (parseSelectorGroup : parser -> result (Selector * parser))
           (p : parser) : option (result (oneSelector * parser)) :=
  match peek p with
  | Some c =>
      if isByte c "#" then Some (parseIDSelector p)
      else if isByte c "." then Some (parseClassSelector p)
      else if isByte c "[" then Some (parseAttributeSelector p)
      else if isByte c ":" then Some (parsePseudoclassSelector parseSelectorGroup p)
      else None
  | None => None
  end.

(** How the loop adds the clause [ns] to [res]. *)
Definition addClause (res ns : oneSelector) : result oneSelector :=
  match o_match res with
  | None =>
      match o_match ns with
      | None =>
          if negb (String.eqb (o_PseudoElement ns) "")
          then Err (ErrStandAlonePseudoElement (o_PseudoElement ns))
          else Ok ns
      | Some _ => Ok ns
      end
  | Some _ =>
      let m := if String.eqb (o_PseudoElement ns) ""
               then Some (intersectionSelector (o_match res) (o_match ns))
               else o_match res in
      Ok (mkOne m (add (o_Specificity res) (o_Specificity ns)) (o_PseudoElement ns))
  end.

(** The loop of [parseSimpleSelectorSequence]. *)
Fixpoint clauseLoop (fuel : nat)
         (parseSelectorGroup : parser -> result (Selector * parser))
         (res : oneSelector) (p : parser) : result (oneSelector * parser) :=
  match fuel with
  | O => OutOfFuel
  | S fuel' =>
      match parseClause parseSelectorGroup p with
      | None => Ok (res, p)
      | Some clause =>
          '(ns, p) <- clause ;;
          res <- addClause res ns ;;
          clauseLoop fuel' parseSelectorGroup res p
      end
  end.

(** After the loop: a compound without matcher matches any element. *)
Definition finish (res : oneSelector) : oneSelector :=
  match o_match res with
  | None => mkOne (Some anyElement) (o_Specificity res) (o_PseudoElement res)
  | Some _ => res
  end.

(** [parseSimpleSelectorSequence] parses a selector sequence that
    applies to a single element. *)
Definition parseSimpleSelectorSequence
           (parseSelectorGroup : parser -> result (Selector * parser))
           (p : parser) : result (oneSelector * parser) :=
  '(res, p) <- parseBase p ;;
  '(res, p) <- clauseLoop (S (len (p_s p) - p_i p)) parseSelectorGroup res p ;;
  Ok (finish res, p).

(** The combinator read by the loop of [parseSelector]: [zero] when
    there is none. *)
Definition combine (combinator : byte) (res c : oneSelector) : oneSelector :=
  let sp := add (o_Specificity res) (o_Specificity c) in
  let m :=
    if isByte combinator " " then Some (descendantSelector (o_match res) (o_match c))
    else if isByte combinator ">" then Some (childSelector (o_match res) (o_match c))
    else if isByte combinator "+" then Some (siblingSelector (o_match res) (o_match c) true)
    else if isByte combinator "~" then Some (siblingSelector (o_match res) (o_match c) false)
    else o_match res in
  mkOne m sp (o_PseudoElement res).

(** The loop of [parseSelector]. *)
Fixpoint selectorLoop (fuel : nat)
         (parseSelectorGroup : parser -> result (Selector * parser))
         (res : oneSelector) (p : parser) : result (oneSelector * parser) :=
  match fuel with
  | O => OutOfFuel
  | S fuel' =>
      '(skipped, p) <- skipWhitespace p ;;
      let combinator := if skipped : bool then " "%char else zero in
      match peek p with
      | None => Ok (res, p)
      | Some c =>
          if isByte c "," || isByte c ")" then Ok (res, p)
          else
            '(combinator, p) <-
              (if isByte c "+" || isByte c ">" || isByte c "~" then
                 '(_, p) <- skipWhitespace (advance p) ;; Ok (c, p)
               else Ok (combinator, p)) ;;
            if isByte combinator zero then Ok (res, p)
            else
              '(c, p) <- parseSimpleSelectorSequence parseSelectorGroup p ;;
              selectorLoop fuel' parseSelectorGroup (combine combinator res c) p
      end
  end.

(** [parseSelector] parses a selector that may include combinators. *)
Definition parseSelector
           (parseSelectorGroup : parser -> result (Selector * parser))
           (p : parser) : result (oneSelector * parser) :=
  '(_, p) <- skipWhitespace p ;;
  '(res, p) <- parseSimpleSelectorSequence parseSelectorGroup p ;;
  selectorLoop (S (len (p_s p) - p_i p)) parseSelectorGroup res p.

(** The loop of [parseSelectorGroup]. *)
Fixpoint groupLoop (fuel : nat)
         (parseSelectorGroup : parser -> result (Selector * parser))
         (res : Selector) (p : parser) : result (Selector * parser) :=
  match fuel with
  | O => OutOfFuel
  | S fuel' =>
      match peek p with
      | None => Ok (res, p)
      | Some c =>
          if negb (isByte c ",") then Ok (res, p)
          else
            '(c, p) <- parseSelector parseSelectorGroup (advance p) ;;
            groupLoop fuel' parseSelectorGroup (res ++ [c]) p
      end
  end.

(** [parseSelectorGroup] parses a group of selectors, separated by
    commas. [depth] bounds the nesting of groups inside :not(), :has()
    and :haschild(). *)
Fixpoint parseSelectorGroup (depth : nat) (p : parser)
  : result (Selector * parser) :=
  match depth with
  | O => OutOfFuel
  | S depth' =>
      '(current, p) <- parseSelector (parseSelectorGroup depth') p ;;
      groupLoop (S (len (p_s p) - p_i p)) (parseSelectorGroup depth') [current] p
  end.

(** [Compile] parses a selector and returns, if successful, a [Selector]
    that can be used to match against nodes. A group nested [k] deep
    starts after [k] opening parentheses, so the depth never exceeds the
    length of the text. *)
Definition CompileGroup (sel : string) : result Selector :=
  let p := mkParser sel 0 in
  '(compiled, p) <- parseSelectorGroup (S (len sel)) p ;;
  if (p_i p <? len sel)%nat then Err (ErrLeftOver sel (len sel - p_i p))
  else Ok compiled.

Definition Compile (sel : string) : result Matcher :=
  compiled <- CompileGroup sel ;;
  Ok (Match E (selectorGroup (map o_match compiled))).

End Grammar.

(** ** The serializer (serialize.go) *)

Fixpoint join (chunks : list string) (sep : string) : string :=
  match chunks with
  | [] => ""
  | [x] => x
  | x :: rest => x +++ sep +++ join rest sep
  end.

(** Modelled from the spec: the [String] method of a group is not among
    the sources; the selectors of a group are separated by commas. *)
Definition groupString (chunks : list string) : string := join chunks ", ".

(** The [String] methods. [None] is a panic: the pseudo-classes are "not
    yet supported", and a nil field cannot be rendered. *)
Fixpoint Sel_String (c : Sel) : option string :=
  let render (o : option Sel) : option string :=
    match o with Some s' => Sel_String s' | None => None end in
  let chunks :=
    fix chunks (l : list (option Sel)) : option (list string) :=
      match l with
      | [] => Some []
      | sel :: l' =>
          match match sel with Some s' => Sel_String s' | None => None end with
          | Some x => option_map (cons x) (chunks l')
          | None => None
          end
      end in
  match c with
  | tagSelector tag => Some tag
  | idSelector id => Some ("#" +++ id)
  | classSelector class => Some ("." +++ class)
  | attrSelector key val operation rx =>
      if String.eqb operation "#=" then
        option_map (fun r => "[" +++ key +++ operation +++ r +++ "]") rx
      else Some ("[" +++ key +++ operation +++ val +++ "]")
  | compoundSelector selectors pseudoElement =>
      match chunks selectors with
      | Some cs =>
          let s := join cs "" in
          if negb (String.eqb pseudoElement "")
          then Some (s +++ "::" +++ pseudoElement) else Some s
      | None => None
      end
  | combinedSelector first combinator second =>
      match render first with
      | Some start =>
          match second with
          | Some s2 =>
              match Sel_String s2 with
              | Some rhs =>
                  Some (start +++ (start +++ " " +++ utf8 (N_of_ascii combinator)
                                   +++ " " +++ rhs))
              | None => None
              end
          | None => Some start
          end
      | None => None
      end
  | selectorGroup sels => option_map groupString (chunks sels)
  | _ => None
  end.

Section RoundTrip.

Variable E : Ext.

(** The parse of a selector text, as the value that is rendered. *)
Definition parse (s : string) : result Sel :=
  compiled <- CompileGroup E s ;;
  Ok (selectorGroup (map o_match compiled)).

(** The stated round trip at the text [s]: when [s] parses, the rendered
    text of its parse parses to the same value. *)
Definition roundTrip (s : string) : Prop :=
  forall ast, parse s = Ok ast ->
  exists text, Sel_String ast = Some text /\ parse text = Ok ast.

End RoundTrip.

(** The nodes visited by [for c := n.NextSibling; c != nil; c = c.NextSibling]. *)
Definition nextSiblings (n : Node) : list Node :=
  match ctx n with
  | Top => []
  | Below l ty d a up r => childrenFrom ty d a up (here n :: l) r
  end.

(** The 1-based position of [n] among the element children of its parent
    (of the same tag name with [ofType]), from the front, or from the
    back with [last]. *)
Definition countKept (ofType : bool) (n : Node) (cs : list Node) : Z :=
  Z.of_nat (List.length (filter (fun c => negb (passedOver ofType n c)) cs)).

Definition ordinal (last ofType : bool) (n : Node) : Z :=
  1 + countKept ofType n (if last then nextSiblings n else prevSiblings n).

(** A sibling list is held in memory, so its length is an [int]. *)
Definition siblingsFit (n : Node) : Prop :=
  Z.of_nat (List.length (prevSiblings n) + List.length (nextSiblings n)) < GoInt.max_int.

(** The stated rule for [a <> 0]: the matcher holds exactly when [n] is
    an element and [ordinal - b] is [a] times some [k >= 0]. *)
Definition nthRule (a b : Z) (last ofType : bool) (n : Node) : Prop :=
  nthChildMatch a b last ofType n = true <->
  isElement n = true /\
  exists k, 0 <= k /\ ordinal last ofType n - b = a * k.

(** A document whose only child is the element [html]. *)
Definition htmlRoot : Node :=
  mkNode (mkTree ElementNode "html" [] []) (Below [] DocumentNode "" [] Top []).

(** The node at which the backward walk of the adjacent-sibling
    combinator stops: the nearest elder sibling that is neither a text
    nor a comment node. *)
Definition decisive (c : Node) : bool :=
  negb (NodeType_eqb (Type_ c) TextNode || NodeType_eqb (Type_ c) CommentNode).

(** The stated rule of the adjacent-sibling combinator: [n] matches the
    right-hand side and the nearest elder sibling that is an element
    matches the left-hand side. *)
Definition adjacentRule (s1 s2 : Matcher) (n : Node) : Prop :=
  siblingMatch s1 s2 true n = Some true <->
  s2 n = Some true /\
  exists c, find isElement (prevSiblings n) = Some c /\ s1 c = Some true.

(** The third child of [<div><a/><!DOCTYPE x><b/></div>]. *)
Definition afterDoctype : Node :=
  mkNode (mkTree ElementNode "b" [] [])
         (Below [mkTree DoctypeNode "x" [] []; mkTree ElementNode "a" [] []]
                ElementNode "div" [] Top []).

(** The comparison of specificities as stated: lexicographic, the id
    count first. *)
Definition lexLess (s other : Specificity) : Prop :=
  (sA s < sA other \/
   (sA s = sA other /\
    (sB s < sB other \/ (sB s = sB other /\ sC s < sC other))))%N.

(** The text that is left to read. *)
Definition remaining (p : parser) : string := drop (p_i p) (p_s p).

(** An instance of the library functions for the closed examples, which
    hold no regular expression and no letter outside ASCII. *)
Definition asciiExt : Ext :=
  mkExt (fun _ => true) (fun _ _ => false) toLowerASCII (fun s => s).

(** A name character or the backslash of an escape: what [parseName]
    goes on with. *)
Definition nameOrEscape (c : byte) : bool := nameChar c || isByte c "\".

(** Every byte of [s] satisfies [f]. *)
Fixpoint allBytes (f : byte -> bool) (s : string) : bool :=
  match s with
  | EmptyString => true
  | String c s' => f c && allBytes f s'
  end.

(** The text [rest] does not go on with a byte that satisfies [f]. *)
Definition stops (f : byte -> bool) (rest : string) : bool :=
  match rest with
  | EmptyString => true
  | String c _ => negb (f c)
  end.

(** A sign before a number: nothing, [+] or [-]. *)
Inductive sign : Type := NoSign | Plus | Minus.

Definition signText (sg : sign) : string :=
  match sg with NoSign => "" | Plus => "+" | Minus => "-" end.

Definition signed (sg : sign) (v : Z) : Z :=
  match sg with Minus => - v | _ => v end.

(** A decimal numeral whose value is an [int]. *)
Definition numeral (ds : string) : Prop :=
  ds <> "" /\ allBytes isDigit ds = true /\ parseDecimal 0 ds <= GoInt.max_int.

(** ** Progress of the parser *)

(** The result [r] of a step that started at or after position [i] of
    the text [s]: it is not out of fuel, and a parser it returns reads the
    same text at a position from [i] up to the end. *)
Definition well {A : Type} (i : nat) (s : string) (r : result (A * parser))
  : Prop :=
  match r with
  | Ok (_, p') => p_s p' = s /\ (i <= p_i p' <= len s)%nat
  | OutOfFuel => False
  | _ => True
  end.

(** A parser within its text. *)
Definition within (p : parser) : Prop := (p_i p <= len (p_s p))%nat.

(** ** Documents for the examples *)

Definition item (id : string) : tree :=
  mkTree ElementNode "li" [mkAttr "id" id] [].

(** The list [<ol><li id=1/><li id=2/><li id=3/></ol>] and its third
    item. *)
Definition orderedList : Node :=
  mkNode (mkTree ElementNode "ol" [] [item "1"; item "2"; item "3"]) Top.

Definition thirdItem : Node :=
  mkNode (item "3") (Below [item "2"; item "1"] ElementNode "ol" [] Top []).

(** The first item of the list, and a group of two selectors: any item,
    and the element of id 3. *)
Definition firstItem : Node :=
  mkNode (item "1") (Below [] ElementNode "ol" [] Top [item "2"; item "3"]).

Definition itemOrThird : Selector :=
  [typeSelector "li"; withMatch (attributeEqualsSelector "id" "3") (mkSpec 1 0 0)].

(** The element [html] of the document [<!DOCTYPE html><html></html>],
    as a parser of HTML builds it: the doctype is its elder sibling. *)
Definition htmlAfterDoctype : Node :=
  mkNode (mkTree ElementNode "html" [] [])
         (Below [mkTree DoctypeNode "html" [] []] DocumentNode "" [] Top []).

(** The third child of a [div] whose children are the element [a], a
    node of kind document and the element [b]. *)
Definition afterDocumentNode : Node :=
  mkNode (mkTree ElementNode "b" [] [])
         (Below [mkTree DocumentNode "" [] []; mkTree ElementNode "a" [] []]
                ElementNode "div" [] Top []).

(** The third child of [<div><a/> <b/></div>], after a text node. *)
Definition afterText : Node :=
  mkNode (mkTree ElementNode "b" [] [])
         (Below [mkTree TextNode " " [] []; mkTree ElementNode "a" [] []]
                ElementNode "div" [] Top []).

(** The tags, with the value of the first attribute when there is one,
    of the nodes of a document that a selector text matches. *)
Definition label (n : Node) : string :=
  match Attr n with
  | a :: _ => Data n +++ "#" +++ Val a
  | [] => Data n
  end.

Definition selected (sel : string) (doc : Node) : result (option (list string)) :=
  m <- Compile asciiExt sel ;;
  Ok (option_map (map label) (MatchAll m doc)).

Definition element (tag : string) (attrs : list Attribute) (ch : list tree) : tree :=
  mkTree ElementNode tag attrs ch.

(** [<div><p id=1/><table><tr><td><p id=2/></td></tr></table></div>] *)
Definition nested : Node :=
  mkNode
    (mkTree DocumentNode "" []
       [element "div" []
          [element "p" [mkAttr "id" "1"] [];
           element "table" []
             [element "tr" [] [element "td" [] [element "p" [mkAttr "id" "2"] []]]]]])
    Top.

(** Paragraphs with the attribute [lang]. *)
Definition languages : Node :=
  mkNode
    (mkTree DocumentNode "" []
       [element "body" []
          [element "p" [mkAttr "lang" "en"] [];
           element "p" [mkAttr "lang" "en-gb"] [];
           element "p" [mkAttr "lang" "enough"] [];
           element "p" [mkAttr "lang" "fr-en"] []]])
    Top.

(** A paragraph of the classes [t1] and [t2]. *)
Definition classes : Node :=
  mkNode (mkTree DocumentNode "" [] [element "p" [mkAttr "class" "t1 t2"] []]) Top.

(** ** Matching with details (specificity.go) *)

Section Details.

Variable E : Ext.

(** The call [sel.match(element)] of the matcher of one selector of a
    group; the call of a nil function panics. *)
Definition oneMatch (sel : oneSelector) (element : Node) : option bool :=
  match o_match sel with
  | Some m => Match E m element
  | None => None
  end.

(** The loop of [MatchWithSpecificity]. *)
Fixpoint matchWithSpecificityLoop (s : Selector) (element : Node)
         (found : bool) (maxSpec : Specificity) : option (bool * Specificity) :=
  match s with
  | [] => Some (found, maxSpec)
  | sel :: rest =>
      match oneMatch sel element with
      | None => None
      | Some true =>
          matchWithSpecificityLoop rest element true
            (if Less maxSpec (o_Specificity sel) then o_Specificity sel else maxSpec)
      | Some false => matchWithSpecificityLoop rest element found maxSpec
      end
  end.

(** [MatchWithSpecificity] returns true if [element] matches [s]; in
    this case, the greatest specificity (among the sub-selectors matching
    [element]) is returned. *)
Definition MatchWithSpecificity (s : Selector) (element : Node)
  : option (bool * Specificity) :=
  matchWithSpecificityLoop s element false noSpecificity.

Record MatchDetail : Type := mkDetail {
  d_PseudoElement : string;
  d_Specificity : Specificity
}.

(** The loop of [MatchDetails]: [out] grows by the detail of each
    selector that matches. *)
Fixpoint matchDetailsLoop (s : Selector) (element : Node) (out : list MatchDetail)
  : option (list MatchDetail) :=
  match s with
  | [] => Some out
  | sel :: rest =>
      match oneMatch sel element with
      | None => None
      | Some true =>
          matchDetailsLoop rest element
            (out ++ [mkDetail (o_PseudoElement sel) (o_Specificity sel)])
      | Some false => matchDetailsLoop rest element out
      end
  end.

(** [MatchDetails] returns true if [element] matches [s]; in this case,
    the list of specificity and optional pseudo-element matching is
    returned. *)
Definition MatchDetails (s : Selector) (element : Node)
  : option (bool * list MatchDetail) :=
  match matchDetailsLoop s element [] with
  | Some out => Some ((0 <? List.length out)%nat, out)
  | None => None
  end.

End Details.

(** ** Notions used in the statements *)

(** [p] is an ancestor of [n]: it is reached from [n] by the pointer
    [Parent], in one step or more. *)
Inductive ancestor (p : Node) : Node -> Prop :=
| ancestor_parent n : Parent n = Some p -> ancestor p n
| ancestor_above n q : Parent n = Some q -> ancestor p q -> ancestor p n.

(** The first node of a list that matches [s]; [None] when a call of
    [s] panics before one is found. *)
Fixpoint firstMatch (s : Matcher) (nodes : list Node) : option (option Node) :=
  match nodes with
  | [] => Some None
  | n :: rest =>
      match s n with
      | Some true => Some (Some n)
      | Some false => firstMatch s rest
      | None => None
      end
  end.

(** The detail that [MatchDetails] records for a selector, and whether a
    selector of a group matches a node. *)
Definition detailOf (sel : oneSelector) : MatchDetail :=
  mkDetail (o_PseudoElement sel) (o_Specificity sel).

Definition matches (E : Ext) (n : Node) (sel : oneSelector) : bool :=
  match oneMatch E sel n with Some true => true | _ => false end.

(** The nodes below [n], in document order. *)
Definition properDescendants (n : Node) : list Node :=
  tl (subtree (here n) (ctx n)).

(** Only elements have children, as in a parsed document. *)
Definition leafy (c : Node) : Prop := isElement c = false -> childNodes c = [].

(** The pieces of [s] between its white-space bytes (an empty piece
    between two of them that are adjacent, and at either end). *)
Fixpoint pieces (s : string) : list string :=
  match s with
  | EmptyString => [""]
  | String c s' =>
      if isSpace c then "" :: pieces s'
      else match pieces s' with
           | piece :: rest => String c piece :: rest
           | [] => [String c ""]
           end
  end.

(** The text [tok], read before [s], completes the first piece of [s]. *)
Definition prepend (tok : string) (ps : list string) : list string :=
  match ps with
  | piece :: rest => (tok +++ piece) :: rest
  | [] => [tok]
  end.

(** A node that is neither an element nor a text. *)
Definition inert (t : tree) : bool :=
  negb (NodeType_eqb (tree_type t) ElementNode || NodeType_eqb (tree_type t) TextNode).

(** A byte that is no ASCII capital letter. *)
Definition notUpper (c : byte) : bool := negb (between "A" c "Z").

(** A byte of a quoted string that stands for itself. *)
Definition plainByte (quote c : byte) : bool :=
  negb (isByte c quote || isByte c "\" || isByte c CR || isByte c LF || isByte c FF).

(** An identifier written without escapes: a first byte that can start
    a name, then name bytes. *)
Definition plainIdentifier (w : string) : bool :=
  match w with
  | EmptyString => false
  | String c w' => nameStart c && allBytes nameChar w'
  end.

(** The components of a specificity are bytes. *)
Definition bytes3 (s : Specificity) : Prop := (sA s < 256 /\ sB s < 256 /\ sC s < 256)%N.

(** A selector value whose [Match] has what it needs: no nil field that
    is used, a known operation, name and combinator. *)
Definition isSome {A : Type} (o : option A) : bool :=
  match o with Some _ => true | None => false end.

Fixpoint complete (s : Sel) : bool :=
  let part (o : option Sel) : bool :=
    match o with Some s' => complete s' | None => false end in
  match s with
  | attrSelector _ _ operation rx =>
      if String.eqb operation "#=" then isSome rx
      else existsb (String.eqb operation) [""; "="; "!="; "~="; "|="; "^="; "$="; "*="]
  | relativePseudoClassSelector name m =>
      existsb (String.eqb name) ["not"; "has"; "haschild"] && part m
  | regexpPseudoClassSelector _ rx => isSome rx
  | compoundSelector selectors _ =>
      (fix each (l : list (option Sel)) : bool :=
         match l with
         | [] => true
         | sel :: l' =>
             match sel with Some s' => complete s' | None => false end && each l'
         end) selectors
  | combinedSelector first combinator second =>
      part first && part second
      && existsb (isByte combinator) [" "; ">"; "+"; "~"]%char
  | selectorGroup sels =>
      (fix each (l : list (option Sel)) : bool :=
         match l with
         | [] => true
         | sel :: l' =>
             match sel with Some s' => complete s' | None => false end && each l'
         end) sels
  | _ => true
  end.

(** What the parser builds at each stage. A clause has a matcher whose
    [Match] is complete, or is a pseudo-element and has a name; the
    selector a compound starts from may have no matcher yet; a finished
    compound or selector has one. *)
Definition clauseOk (o : oneSelector) : Prop :=
  match o_match o with
  | Some m => complete m = true
  | None => o_PseudoElement o <> ""
  end.

Definition baseOk (o : oneSelector) : Prop :=
  match o_match o with Some m => complete m = true | None => True end.

Definition full (o : oneSelector) : Prop :=
  match o_match o with Some m => complete m = true | None => False end.

(** The text ends with a colon. *)
Definition endsWithColon (s : string) : Prop := strings_HasSuffix s ":" = true.

(** A step of the parser on the text [s] is calm when it panics only if
    [s] ends with a colon; it yields [Q] when every value it returns
    satisfies [Q]. *)
Definition calm {A : Type} (s : string) (r : result A) : Prop :=
  r = Panic -> endsWithColon s.

Definition yields {A : Type} (Q : A -> Prop) (r : result (A * parser)) : Prop :=
  forall a p', r = Ok (a, p') -> Q a.

(* ===================================================================== *)
(** * Properties *)
(* ===================================================================== *)

#[local] Arguments Z.add _ _ : simpl never.
#[local] Arguments Z.sub _ _ : simpl never.
#[local] Arguments Z.mul _ _ : simpl never.
#[local] Arguments Z.opp _ : simpl never.
#[local] Arguments Z.of_nat _ : simpl never.

(** ** The tree *)

Lemma NodeType_eqb_eq x y : NodeType_eqb x y = true <-> x = y.
Proof. destruct x, y; simpl; split; intro H; try reflexivity; discriminate H. Qed.

Lemma address_eqb_refl x : address_eqb x x = true.
Proof. induction x as [|i x IH]; simpl; [reflexivity|]. now rewrite Nat.eqb_refl. Qed.

Lemma node_eqb_refl n : node_eqb n n = true.
Proof. apply address_eqb_refl. Qed.

Lemma node_eqb_length c n l1 l2 ty1 d1 a1 u1 r1 ty2 d2 a2 u2 r2 :
  ctx c = Below l1 ty1 d1 a1 u1 r1 -> ctx n = Below l2 ty2 d2 a2 u2 r2 ->
  List.length l1 <> List.length l2 -> node_eqb c n = false.
Proof.
  intros Hc Hn Hne. unfold node_eqb. rewrite Hc, Hn. simpl.
  apply Nat.eqb_neq in Hne. now rewrite Hne.
Qed.

Lemma childrenFrom_split ty d a up l t r :
  childrenFrom ty d a up [] (rev l ++ t :: r)
  = rev (prevFrom ty d a up l t r)
    ++ mkNode t (Below l ty d a up r) :: childrenFrom ty d a up (t :: l) r.
Proof.
  revert t r. induction l as [|x l IH]; intros t r; simpl.
  - reflexivity.
  - rewrite <- app_assoc. simpl. rewrite IH. simpl.
    rewrite <- app_assoc. reflexivity.
Qed.

(** The children of the parent of [n] are the elder siblings of [n], then
    [n] itself, then its younger siblings. *)
Lemma childNodes_Parent n p :
  Parent n = Some p ->
  childNodes p = rev (prevSiblings n) ++ n :: nextSiblings n.
Proof.
  destruct n as [t c]. unfold Parent, prevSiblings, nextSiblings, childNodes. simpl.
  destruct c as [|l ty d a up r]; [discriminate|].
  intros [= <-]. simpl. apply childrenFrom_split.
Qed.

Lemma prevFrom_shorter ty d a up l t r c :
  In c (prevFrom ty d a up l t r) ->
  exists l' r', ctx c = Below l' ty d a up r' /\ (List.length l' < List.length l)%nat.
Proof.
  revert t r. induction l as [|x l IH]; intros t r; simpl; [tauto|].
  intros [<- | Hin].
  - exists l, (t :: r). simpl. split; [reflexivity | lia].
  - destruct (IH _ _ Hin) as (l' & r' & E & L). exists l', r'. split; [exact E | lia].
Qed.

Lemma childrenFrom_longer ty d a up l r c :
  In c (childrenFrom ty d a up l r) ->
  exists l' r', ctx c = Below l' ty d a up r' /\ (List.length l <= List.length l')%nat.
Proof.
  revert l. induction r as [|x r IH]; intros l; simpl; [tauto|].
  intros [<- | Hin].
  - exists l, r. simpl. split; [reflexivity | lia].
  - destruct (IH _ Hin) as (l' & r' & E & L). exists l', r'. split; [exact E|].
    simpl in L. lia.
Qed.

Lemma prevSiblings_other n c : In c (prevSiblings n) -> node_eqb c n = false.
Proof.
  unfold prevSiblings. destruct (ctx n) as [|l ty d a up r] eqn:E; [simpl; tauto|].
  intros Hin. destruct (prevFrom_shorter _ _ _ _ _ _ _ _ Hin) as (l' & r' & Ec & L).
  eapply node_eqb_length; eauto. lia.
Qed.

Lemma nextSiblings_other n c : In c (nextSiblings n) -> node_eqb c n = false.
Proof.
  unfold nextSiblings. destruct (ctx n) as [|l ty d a up r] eqn:E; [simpl; tauto|].
  intros Hin. destruct (childrenFrom_longer _ _ _ _ _ _ _ Hin) as (l' & r' & Ec & L).
  eapply node_eqb_length; eauto. simpl in L. lia.
Qed.

(** The lists the loops run over are the lists the pointers give. *)
Lemma prevSiblings_step n :
  prevSiblings n
  = match PrevSibling n with None => [] | Some c => c :: prevSiblings c end.
Proof.
  destruct n as [t c]. unfold prevSiblings, PrevSibling. simpl.
  destruct c as [|l ty d a up r]; [reflexivity|]. now destruct l.
Qed.

Lemma nextSiblings_step n :
  nextSiblings n
  = match NextSibling n with None => [] | Some c => c :: nextSiblings c end.
Proof.
  destruct n as [t c]. unfold nextSiblings, NextSibling. simpl.
  destruct c as [|l ty d a up r]; [reflexivity|]. now destruct r.
Qed.

Lemma childNodes_step n :
  childNodes n
  = match FirstChild n with None => [] | Some c => c :: nextSiblings c end.
Proof.
  unfold FirstChild. destruct n as [[ty d a ch] cx]. unfold childNodes. simpl.
  now destruct ch.
Qed.

Lemma ancestors_step n :
  ancestors n = match Parent n with None => [] | Some p => p :: ancestors p end.
Proof.
  destruct n as [t c]. unfold ancestors, Parent. simpl. now destruct c.
Qed.

(** ** Attribute inequality *)

Lemma notEqualLoop_spec key val attrs :
  notEqualLoop key val attrs = true <->
  forall a, In a attrs -> ~ (Key a = key /\ Val a = val).
Proof.
  induction attrs as [|x rest IH]; simpl.
  - split; [intros _ a [] | reflexivity].
  - destruct (String.eqb (Key x) key) eqn:Ek; simpl;
      [destruct (String.eqb (Val x) val) eqn:Ev; simpl|].
    + apply String.eqb_eq in Ek, Ev. split; [discriminate|].
      intros H. exfalso. apply (H x); auto.
    + apply String.eqb_neq in Ev. rewrite IH. split.
      * intros H a [<- | Hin]; [tauto | auto].
      * intros H a Hin. auto.
    + apply String.eqb_neq in Ek. rewrite IH. split.
      * intros H a [<- | Hin]; [tauto | auto].
      * intros H a Hin. auto.
Qed.

(** C7. On an element node the [!=] attribute matcher holds exactly when
    no attribute of the node named [key] has the value [val] (so it holds
    when the attribute is absent); on any other node it is false. *)
Theorem attributeNotEqualMatch_correct (key val : string) (n : Node) :
  (attributeNotEqualMatch key val n = true <->
     isElement n = true /\
     forall a, In a (Attr n) -> ~ (Key a = key /\ Val a = val))
  /\ (isElement n = true -> (forall a, In a (Attr n) -> Key a <> key) ->
      attributeNotEqualMatch key val n = true)
  /\ (isElement n = false -> attributeNotEqualMatch key val n = false)
  /\ (forall E, Match E (attrSelector key val "!=" None) n
                = Some (attributeNotEqualMatch key val n)).
Proof.
  split; [|split; [|split]].
  - unfold attributeNotEqualMatch. destruct (isElement n); simpl.
    + rewrite notEqualLoop_spec. tauto.
    + split; [discriminate | intros [H _]; discriminate].
  - intros El H. unfold attributeNotEqualMatch. rewrite El. simpl.
    apply notEqualLoop_spec. intros a Hin [Hk _]. exact (H a Hin Hk).
  - intros El. unfold attributeNotEqualMatch. now rewrite El.
  - intros E. reflexivity.
Qed.

(** ** Positions among siblings *)

Lemma countKept_nonneg ofType n cs : 0 <= countKept ofType n cs.
Proof. unfold countKept. lia. Qed.

Lemma countKept_cons ofType n c cs :
  countKept ofType n (c :: cs)
  = (if passedOver ofType n c then 0 else 1) + countKept ofType n cs.
Proof.
  unfold countKept. cbn [filter].
  destruct (passedOver ofType n c); cbn [negb List.length]; lia.
Qed.

Lemma countKept_rev ofType n cs :
  countKept ofType n (rev cs) = countKept ofType n cs.
Proof.
  unfold countKept. induction cs as [|c cs IH]; [reflexivity|].
  cbn [rev filter]. rewrite filter_app, length_app. cbn [filter].
  destruct (passedOver ofType n c); cbn [negb List.length]; lia.
Qed.

Lemma countKept_le ofType n cs :
  countKept ofType n cs <= Z.of_nat (List.length cs).
Proof.
  unfold countKept. pose proof (filter_length_le (fun c => negb (passedOver ofType n c)) cs). lia.
Qed.

Lemma passedOver_self ofType n : isElement n = true -> passedOver ofType n n = false.
Proof.
  intros E. unfold passedOver. rewrite E, String.eqb_refl. now destruct ofType.
Qed.

Lemma nthLoop_others last ofType n pre rest count i :
  (forall c, In c pre -> node_eqb c n = false) ->
  nthLoop last ofType n (pre ++ rest) count i
  = nthLoop last ofType n rest (count + countKept ofType n pre) i.
Proof.
  revert count. induction pre as [|c pre IH]; intros count H.
  - simpl. f_equal; unfold countKept; simpl; lia.
  - rewrite countKept_cons. simpl.
    destruct (passedOver ofType n c).
    + rewrite IH by (intros; apply H; now right). f_equal; lia.
    + rewrite (H c) by now left.
      rewrite IH by (intros; apply H; now right). f_equal; lia.
Qed.

(** What the loop of [nthChildMatch] computes on the children of the
    parent of an element [n]. *)
Lemma nthLoop_children last ofType n :
  isElement n = true ->
  nthLoop last ofType n (rev (prevSiblings n) ++ n :: nextSiblings n) 0 (-1)
  = let k := 1 + countKept ofType n (prevSiblings n) in
    if last then (k + countKept ofType n (nextSiblings n), k) else (k, k).
Proof.
  intros E.
  rewrite nthLoop_others
    by (intros c Hc; apply prevSiblings_other; now apply in_rev).
  rewrite countKept_rev. simpl.
  rewrite (passedOver_self _ _ E), node_eqb_refl.
  destruct last; simpl.
  - rewrite <- (app_nil_r (nextSiblings n)) at 1.
    rewrite nthLoop_others by apply nextSiblings_other.
    simpl. f_equal; lia.
  - f_equal; lia.
Qed.

Lemma simpleLoop_found b ofType n pre post count :
  isElement n = true ->
  (forall c, In c pre -> node_eqb c n = false) ->
  simpleLoop b ofType n (pre ++ n :: post) count
  = (count + countKept ofType n pre + 1 =? b).
Proof.
  intros E. revert count. induction pre as [|c pre IH]; intros count H.
  - simpl. rewrite (passedOver_self _ _ E), node_eqb_refl.
    unfold countKept. simpl. f_equal; lia.
  - rewrite countKept_cons. simpl.
    destruct (passedOver ofType n c).
    + rewrite IH by (intros; apply H; now right). f_equal; lia.
    + rewrite (H c) by now left.
      pose proof (countKept_nonneg ofType n pre).
      destruct (count + 1 >=? b) eqn:G.
      * symmetry. apply Z.eqb_neq. lia.
      * rewrite IH by (intros; apply H; now right). f_equal; lia.
Qed.

Lemma wrap_small z : GoInt.min_int <= z <= GoInt.max_int -> GoInt.wrap z = z.
Proof.
  unfold GoInt.wrap, GoInt.min_int, GoInt.max_int. intros H.
  rewrite Z.mod_small; lia.
Qed.

Lemma ordinal_bounds last ofType n :
  siblingsFit n -> 1 <= ordinal last ofType n <= GoInt.max_int.
Proof.
  unfold siblingsFit, ordinal. intros F.
  pose proof (countKept_nonneg ofType n (prevSiblings n)).
  pose proof (countKept_nonneg ofType n (nextSiblings n)).
  pose proof (countKept_le ofType n (prevSiblings n)).
  pose proof (countKept_le ofType n (nextSiblings n)).
  destruct last; lia.
Qed.

(** For an [int] [b] and a position [i], [i - b] wraps to zero only when
    [i] is [b]. *)
Lemma sub_zero_iff i b :
  1 <= i <= GoInt.max_int -> GoInt.in_range b ->
  (GoInt.sub i b =? 0) = (i =? b).
Proof.
  unfold GoInt.sub, GoInt.wrap, GoInt.in_range, GoInt.min_int, GoInt.max_int.
  intros Hi Hb.
  destruct (Z.eqb_spec i b) as [->|ne].
  - rewrite Z.sub_diag. reflexivity.
  - apply Z.eqb_neq. intros H.
    assert (M : (i - b + 2 ^ 63) mod 2 ^ 64 = 2 ^ 63) by lia.
    destruct (Z_lt_le_dec (i - b + 2 ^ 63) (2 ^ 64)) as [L|G].
    + rewrite Z.mod_small in M by lia. lia.
    + assert (M2 : (i - b + 2 ^ 63) mod 2 ^ 64 = i - b + 2 ^ 63 - 2 ^ 64).
      { symmetry. apply Z.mod_unique with 1; lia. }
      lia.
Qed.

(** C5. When [a] is 0 the specialised matchers agree with the general
    one: [simpleNthChildMatch b ofType n] is [nthChildMatch 0 b false
    ofType n], and [simpleNthLastChildMatch b ofType n] is [nthChildMatch
    0 b true ofType n], for every [int] [b], every flag and every node of
    a document held in memory. *)
Theorem simpleNth_refines_nthChildMatch (b : Z) (ofType : bool) (n : Node) :
  GoInt.in_range b -> siblingsFit n ->
  simpleNthChildMatch b ofType n = nthChildMatch 0 b false ofType n
  /\ simpleNthLastChildMatch b ofType n = nthChildMatch 0 b true ofType n.
Proof.
  intros Hb F.
  unfold simpleNthChildMatch, simpleNthLastChildMatch, nthChildMatch.
  destruct (isElement n) eqn:E; simpl; [|split; reflexivity].
  destruct (Parent n) as [p|] eqn:P; [|split; reflexivity].
  destruct (NodeType_eqb (Type_ p) DocumentNode); [split; reflexivity|].
  rewrite (childNodes_Parent _ _ P).
  pose proof (countKept_nonneg ofType n (prevSiblings n)) as K1.
  pose proof (countKept_nonneg ofType n (nextSiblings n)) as K2.
  split.
  - rewrite (nthLoop_children false ofType n E). cbv zeta.
    rewrite simpleLoop_found
      by (try exact E; intros c Hc; apply prevSiblings_other; now apply in_rev).
    rewrite countKept_rev.
    destruct (Z.eqb_spec (1 + countKept ofType n (prevSiblings n)) (-1)); [lia|].
    pose proof (ordinal_bounds false ofType n F) as B. unfold ordinal in B.
    rewrite sub_zero_iff by (try exact Hb; lia).
    f_equal; lia.
  - rewrite (nthLoop_children true ofType n E). cbv zeta.
    rewrite rev_app_distr. simpl. rewrite rev_involutive, <- app_assoc. simpl.
    rewrite simpleLoop_found
      by (try exact E; intros c Hc; apply nextSiblings_other; now apply in_rev).
    rewrite countKept_rev.
    destruct (Z.eqb_spec (1 + countKept ofType n (prevSiblings n)) (-1)); [lia|].
    pose proof (ordinal_bounds true ofType n F) as B. unfold ordinal in B.
    rewrite sub_zero_iff by (try exact Hb; lia).
    f_equal; lia.
Qed.

Lemma exact_division_test d a :
  a <> 0 -> GoInt.min_int < d <= GoInt.max_int ->
  (GoInt.rem d a =? 0) && (GoInt.quo d a >=? 0) = true <->
  exists k, 0 <= k /\ d = a * k.
Proof.
  intros Ha Hd. unfold GoInt.rem, GoInt.quo. split.
  - intros H. apply andb_prop in H. destruct H as [R Q].
    apply Z.eqb_eq in R.
    pose proof (Z.quot_rem' d a) as D. rewrite R, Z.add_0_r in D.
    assert (B : GoInt.min_int <= Z.quot d a <= GoInt.max_int).
    { unfold GoInt.min_int, GoInt.max_int in *. nia. }
    rewrite (wrap_small _ B) in Q.
    exists (Z.quot d a). split; [lia | exact D].
  - intros (k & Hk & ->).
    rewrite (Z.mul_comm a k), Z.rem_mul, Z.quot_mul by exact Ha.
    assert (B : GoInt.min_int <= k <= GoInt.max_int).
    { unfold GoInt.min_int, GoInt.max_int in *. nia. }
    rewrite (wrap_small _ B). apply andb_true_intro. split; [reflexivity | lia].
Qed.

(** C3 (as amended). For [a <> 0], an [int] [b] and a node [n] whose
    parent exists and is not the document node, [nthChildMatch] holds
    exactly when [n] is an element and, with [i] the 1-based position of
    [n] among its element siblings (from the front, or from the back with
    [last]; of the same tag name with [ofType]), [i - b] is [a * k] for
    some [k >= 0]; [i - b] is assumed to fit in an [int]. *)
Theorem nthChildMatch_correct (a b : Z) (last ofType : bool) (n p : Node) :
  a <> 0 -> GoInt.in_range b ->
  Parent n = Some p -> Type_ p <> DocumentNode ->
  siblingsFit n -> ordinal last ofType n - b <= GoInt.max_int ->
  nthRule a b last ofType n.
Proof.
  intros Ha Hb P Hp F Hi. unfold nthRule, nthChildMatch.
  destruct (isElement n) eqn:E; simpl;
    [|split; [discriminate | intros [H _]; discriminate]].
  rewrite P.
  destruct (NodeType_eqb (Type_ p) DocumentNode) eqn:D;
    [apply NodeType_eqb_eq in D; contradiction|].
  rewrite (childNodes_Parent _ _ P), (nthLoop_children last ofType n E). cbv zeta.
  pose proof (ordinal_bounds last ofType n F) as B.
  unfold ordinal in B, Hi |- *.
  pose proof (countKept_nonneg ofType n (prevSiblings n)) as K1.
  pose proof (countKept_nonneg ofType n (nextSiblings n)) as K2.
  assert (R : GoInt.min_int < 1 + countKept ofType n
                 (if last then nextSiblings n else prevSiblings n) - b
              <= GoInt.max_int).
  { unfold GoInt.in_range, GoInt.min_int, GoInt.max_int in *. lia. }
  assert (N1 : (1 + countKept ofType n (prevSiblings n) =? -1) = false)
    by (apply Z.eqb_neq; lia).
  assert (N2 : (a =? 0) = false) by (apply Z.eqb_neq; exact Ha).
  unfold GoInt.sub.
  destruct last; cbv iota beta; rewrite N1, ?N2.
  - replace (1 + countKept ofType n (prevSiblings n)
             + countKept ofType n (nextSiblings n)
             - (1 + countKept ofType n (prevSiblings n)) + 1)
      with (1 + countKept ofType n (nextSiblings n)) by lia.
    rewrite wrap_small by lia.
    rewrite (exact_division_test _ a Ha R). tauto.
  - rewrite wrap_small by lia.
    rewrite (exact_division_test _ a Ha R). tauto.
Qed.

(** The rule of C3 as stated, for every node whose parent exists, fails
    on the root element: its parent is the document node, and the
    matcher answers false although the element is the first child. *)
Lemma nthRule_fails_under_document :
  Parent htmlRoot <> None /\ ~ nthRule 1 0 false false htmlRoot.
Proof.
  split; [discriminate|].
  intros [_ H].
  assert (T : nthChildMatch 1 0 false false htmlRoot = true).
  { apply H. split; [reflexivity|]. exists 1. split; [lia | reflexivity]. }
  discriminate T.
Qed.

(** ** The adjacent-sibling combinator *)

Lemma andAlso_true x y : x &&& y = Some true <-> x = Some true /\ y = Some true.
Proof.
  destruct x as [[|]|]; simpl; split; try tauto; try discriminate;
    intros [H _]; discriminate.
Qed.

Lemma adjacentLoop_find s1 ps :
  adjacentLoop s1 ps = Some true <->
  exists c, find decisive ps = Some c /\ s1 c = Some true.
Proof.
  induction ps as [|c ps IH]; simpl.
  - split; [discriminate | intros (c & H & _); discriminate].
  - unfold decisive at 1.
    destruct (NodeType_eqb (Type_ c) TextNode || NodeType_eqb (Type_ c) CommentNode);
      simpl; [exact IH|].
    split.
    + intros H. exists c. split; [reflexivity | exact H].
    + intros (c' & [= <-] & H). exact H.
Qed.

Lemma find_ext_in {A} (f g : A -> bool) l :
  (forall x, In x l -> f x = g x) -> find f l = find g l.
Proof.
  induction l as [|x l IH]; intros H; simpl; [reflexivity|].
  rewrite (H x) by now left. destruct (g x); [reflexivity|].
  apply IH. intros y Hy. apply H. now right.
Qed.

(** What the adjacent-sibling matcher computes: it holds exactly when [n]
    matches the right-hand side and the nearest elder sibling that is
    neither a text nor a comment node matches the left-hand side: text and
    comment nodes are stepped over, and one sibling only is tested.  When
    the elder siblings are all element, text or comment nodes, that
    sibling is the nearest element, and the matcher keeps to its rule. *)
Theorem siblingMatch_adjacent_correct (s1 s2 : Matcher) (n : Node) :
  (siblingMatch s1 s2 true n = Some true <->
   s2 n = Some true /\
   exists c, find decisive (prevSiblings n) = Some c /\ s1 c = Some true)
  /\ ((forall c, In c (prevSiblings n) ->
         Type_ c = ElementNode \/ Type_ c = TextNode \/ Type_ c = CommentNode) ->
      adjacentRule s1 s2 n).
Proof.
  assert (M : siblingMatch s1 s2 true n = Some true <->
              s2 n = Some true /\
              exists c, find decisive (prevSiblings n) = Some c /\ s1 c = Some true).
  { unfold siblingMatch. rewrite andAlso_true, adjacentLoop_find. tauto. }
  split; [exact M|].
  intros K. unfold adjacentRule. rewrite M.
  rewrite (find_ext_in decisive isElement); [tauto|].
  intros c Hc. unfold decisive, isElement.
  destruct (K c Hc) as [-> | [-> | ->]]; reflexivity.
Qed.

(** C6. The adjacent-sibling matcher does not keep to its rule, "preceded
    by an element that matches the left-hand side": the backward walk
    steps over text and comment nodes only and tests the first other node
    whatever its kind.  In the document [<!DOCTYPE html><html></html>]
    the selector [:contains('') + html] matches the element [html],
    although its only elder sibling is the doctype and no element
    precedes it: the doctype is tested, and its (empty) text contains the
    empty string.  Likewise in [<div><a/><!DOCTYPE x><b/></div>], [a + b]
    does not match [b], although [a] is the nearest elder element of [b];
    the same happens with a node of kind document in the place of the
    doctype. *)
Lemma adjacentRule_fails_after_doctype :
  Parent afterDoctype <> None /\
  ~ adjacentRule (tagMatch "a") (tagMatch "b") afterDoctype /\
  ~ adjacentRule (tagMatch "a") (tagMatch "b") afterDocumentNode /\
  ~ adjacentRule (Match asciiExt (containsPseudoClassSelector false ""))
                 (tagMatch "html") htmlAfterDoctype /\
  (exists m, Compile asciiExt ":contains('') + html" = Ok m /\
             m htmlAfterDoctype = Some true) /\
  map Type_ (prevSiblings htmlAfterDoctype) = [DoctypeNode] /\
  find isElement (prevSiblings htmlAfterDoctype) = None.
Proof.
  split; [discriminate|].
  split; [|split; [|split; [|split; [|split]]]].
  - intros [_ H].
    assert (T : siblingMatch (tagMatch "a") (tagMatch "b") true afterDoctype
                = Some true).
    { apply H. split; [reflexivity|]. eexists. split; reflexivity. }
    discriminate T.
  - intros [_ H].
    assert (T : siblingMatch (tagMatch "a") (tagMatch "b") true afterDocumentNode
                = Some true).
    { apply H. split; [reflexivity|]. eexists. split; reflexivity. }
    discriminate T.
  - intros [H _].
    destruct (H eq_refl) as (_ & c & F & _). discriminate F.
  - eexists. split; reflexivity.
  - reflexivity.
  - reflexivity.
Qed.

(** ** Compilation *)

Section CompileProperties.

Variable E : Ext.

Lemma orElse_false_r b : Some b ||| Some false = Some b.
Proof. now destruct b. Qed.

(** C8. The universal selector compiles to a matcher that is true on
    every element node and false on every other node (text, comment,
    document, ...); so is the matcher of any compound selector without
    sub-matchers. *)
Theorem universal_selector_matches_elements :
  (exists m, Compile E "*" = Ok m /\
     forall n, m n = Some (NodeType_eqb (Type_ n) ElementNode))
  /\ (forall pe n, Match E (compoundSelector [] pe) n
                   = Some (NodeType_eqb (Type_ n) ElementNode))
  /\ (forall n, NodeType_eqb (Type_ n) ElementNode = true <-> Type_ n = ElementNode).
Proof.
  split; [|split].
  - eexists. split; [reflexivity|]. intros n. simpl. apply orElse_false_r.
  - reflexivity.
  - intros n. apply NodeType_eqb_eq.
Qed.

(** C1. The round trip fails on every chain with a combinator:
    [combinedSelector.String] renders the left side twice, so the text
    rendered for [a > b] is [aa > b], which parses to another chain. *)
Theorem String_renders_left_side_twice :
  parse E "a > b"
  = Ok (selectorGroup
          [Some (combinedSelector (Some (tagSelector "a")) ">"
                                  (Some (tagSelector "b")))])
  /\ Sel_String (combinedSelector (Some (tagSelector "a")) ">"
                                  (Some (tagSelector "b")))
     = Some "aa > b"
  /\ parse E "aa > b"
     = Ok (selectorGroup
             [Some (combinedSelector (Some (tagSelector "aa")) ">"
                                     (Some (tagSelector "b")))])
  /\ ~ roundTrip E "a > b".
Proof.
  repeat split; try reflexivity.
  intros H. destruct (H _ eq_refl) as (text & T & P).
  simpl in T. injection T as <-. discriminate P.
Qed.

End CompileProperties.

(** ** Specificity of the pseudo-classes that take a selector group *)

Lemma Less_lexLess s other : Less s other = true <-> lexLess s other.
Proof.
  unfold Less, lexLess.
  repeat match goal with
         | |- context [N.ltb ?a ?b] => destruct (N.ltb_spec a b)
         end;
    split; intros K; try reflexivity; try discriminate; lia.
Qed.

Lemma Less_false s other : Less s other = false <-> ~ lexLess s other.
Proof.
  rewrite <- Less_lexLess. destruct (Less s other); split; intros H;
    try reflexivity; try discriminate; try (now elim H).
Qed.

Lemma lexLess_zero x : ~ lexLess noSpecificity x -> x = noSpecificity.
Proof.
  unfold lexLess, noSpecificity. destruct x as [a b c]. simpl. intros H.
  assert (a = 0 /\ b = 0 /\ c = 0)%N as (-> & -> & ->) by lia. reflexivity.
Qed.

Lemma fold_keepGreater l out :
  let r := fold_left keepGreater l out in
  ~ lexLess r out
  /\ (forall x, In x l -> ~ lexLess r (o_Specificity x))
  /\ (r = out \/ exists x, In x l /\ r = o_Specificity x).
Proof.
  revert out. induction l as [|y l IH]; intros out; simpl.
  - repeat split; [unfold lexLess; lia | tauto | now left].
  - destruct (IH (keepGreater out y)) as (G & A & M).
    unfold keepGreater in G, A, M |- *.
    destruct (Less out (o_Specificity y)) eqn:L.
    + apply Less_lexLess in L. repeat split.
      * unfold lexLess in *. lia.
      * intros x [<- | Hx]; [exact G | now apply A].
      * right. destruct M as [-> | (x & Hx & ->)]; eauto.
    + apply Less_false in L. repeat split.
      * exact G.
      * intros x [<- | Hx]; [unfold lexLess in *; lia | now apply A].
      * destruct M as [-> | (x & Hx & ->)]; [now left | right; eauto].
Qed.

(** [maximumSpecificity] of a group that is not empty is the specificity
    of one of its selectors, and no selector has a greater one. *)
Lemma maximumSpecificity_is_maximum (sel : Selector) :
  sel <> [] ->
  (exists x, In x sel /\ maximumSpecificity sel = o_Specificity x)
  /\ (forall x, In x sel -> ~ lexLess (maximumSpecificity sel) (o_Specificity x)).
Proof.
  intros NE. unfold maximumSpecificity.
  destruct (fold_keepGreater sel noSpecificity) as (_ & A & M).
  split; [|exact A].
  destruct M as [Z | M]; [|exact M].
  destruct sel as [|y l]; [contradiction|].
  exists y. split; [now left|].
  rewrite Z. symmetry. apply lexLess_zero. rewrite <- Z. apply A. now left.
Qed.

Section GrammarProperties.

Variable E : Ext.

Lemma groupLoop_nonempty fuel g res p sel p' :
  groupLoop E fuel g res p = Ok (sel, p') -> res <> [] -> sel <> [].
Proof.
  revert res p. induction fuel as [|fuel IH]; intros res p; simpl; [discriminate|].
  destruct (peek p) as [c|]; [|intros [= <- _]; auto].
  destruct (negb (isByte c ",")); [intros [= <- _]; auto|].
  destruct (parseSelector E g (advance p)) as [[c' p1]| | |]; simpl; try discriminate.
  intros H _. apply (IH _ _ H). now destruct res.
Qed.

Lemma parseSelectorGroup_nonempty depth p sel p' :
  parseSelectorGroup E depth p = Ok (sel, p') -> sel <> [].
Proof.
  destruct depth as [|depth]; [discriminate|]. cbn [parseSelectorGroup].
  destruct (parseSelector E _ p) as [[c p1]| | |]; cbn [bind]; try discriminate.
  intros H. apply (groupLoop_nonempty _ _ _ _ _ _ H). discriminate.
Qed.

(** What [parsePseudoclassSelector] returns for :not(), :has() and
    :haschild(), whatever parses the nested group. *)
Lemma relative_pseudoclass_parts g p name p1 out p' :
  pseudoclassName p = Ok (name, p1) ->
  oneOf name ["not"; "has"; "haschild"] = true ->
  parsePseudoclassSelector E g p = Ok (out, p') ->
  exists p2 sel p3,
    openParenthesis p1 = Ok p2 /\ g p2 = Ok (sel, p3) /\
    closeParenthesis p3 = Ok p' /\
    o_Specificity out = maximumSpecificity sel.
Proof.
  intros N O. unfold parsePseudoclassSelector. rewrite N. simpl.
  unfold pseudoclassBody. rewrite O.
  destruct (openParenthesis p1) as [p2| | |]; simpl; try discriminate.
  destruct (g p2) as [[sel p3]| | |] eqn:G; simpl; try discriminate.
  destruct (closeParenthesis p3) as [p4| | |] eqn:C; simpl; try discriminate.
  intros H. exists p2, sel, p3.
  destruct (String.eqb name "not"); [|destruct (String.eqb name "has")];
    injection H as <- <-; repeat split; assumption.
Qed.

(** C9. For every :not(...), :has(...) or :haschild(...) that parses, the
    specificity given to the clause is the specificity of one of the
    selectors of its group, and none of them has a greater one in the
    lexicographic order that compares the id counts first. *)
Theorem relative_pseudoclass_specificity depth p name p1 out p' :
  pseudoclassName p = Ok (name, p1) ->
  oneOf name ["not"; "has"; "haschild"] = true ->
  parsePseudoclassSelector E (parseSelectorGroup E depth) p = Ok (out, p') ->
  exists p2 sel p3,
    openParenthesis p1 = Ok p2 /\
    parseSelectorGroup E depth p2 = Ok (sel, p3) /\
    closeParenthesis p3 = Ok p' /\
    (exists x, In x sel /\ o_Specificity out = o_Specificity x) /\
    (forall x, In x sel -> ~ lexLess (o_Specificity out) (o_Specificity x)) /\
    (forall s other, Less s other = true <-> lexLess s other).
Proof.
  intros N O H.
  destruct (relative_pseudoclass_parts _ _ _ _ _ _ N O H)
    as (p2 & sel & p3 & Ho & Hg & Hc & Hs).
  exists p2, sel, p3. rewrite Hs.
  destruct (maximumSpecificity_is_maximum sel (parseSelectorGroup_nonempty _ _ _ _ Hg))
    as (M & A).
  repeat split; auto; apply Less_lexLess.
Qed.

(** ** The pseudo-element of a compound *)

Lemma addClause_PseudoElement res ns r :
  addClause res ns = Ok r -> o_PseudoElement r = o_PseudoElement ns.
Proof.
  unfold addClause. destruct (o_match res).
  - intros [= <-]. reflexivity.
  - destruct (o_match ns); [intros [= <-]; reflexivity|].
    destruct (negb _); [discriminate | intros [= <-]; reflexivity].
Qed.

(** The loop stops where no clause starts; when it has read a clause,
    the pseudo-element it returns is that of the clause read last. *)
Lemma clauseLoop_last fuel g res p res' p' :
  clauseLoop E fuel g res p = Ok (res', p') ->
  parseClause E g p' = None /\
  ((res' = res /\ p' = p) \/
   exists pl ns, parseClause E g pl = Some (Ok (ns, p')) /\
                 o_PseudoElement res' = o_PseudoElement ns).
Proof.
  revert res p. induction fuel as [|fuel IH]; intros res p; [discriminate|].
  cbn [clauseLoop].
  destruct (parseClause E g p) as [clause|] eqn:C.
  - destruct clause as [[ns p1]| | |]; cbn [bind]; try discriminate.
    destruct (addClause res ns) as [res1| | |] eqn:A; cbn [bind]; try discriminate.
    intros H. destruct (IH _ _ H) as (Stop & [[-> ->] | Later]).
    + split; [exact Stop|]. right. exists p, ns. split; [exact C|].
      now apply addClause_PseudoElement with res.
    + split; [exact Stop | right; exact Later].
  - intros [= <- <-]. split; [exact C | now left].
Qed.

(** C10. In a compound that parses and has a clause after its base, the
    pseudo-element of the result is the pseudo-element of the clause read
    last (the empty string when that clause is no pseudo-element). So a
    second pseudo-element overrides the first and an ordinary clause after
    a pseudo-element erases it, each without a parse error. *)
Theorem last_clause_sets_PseudoElement :
  (forall g p r0 p0 res p',
      parseBase p = Ok (r0, p0) ->
      parseClause E g p0 <> None ->
      parseSimpleSelectorSequence E g p = Ok (res, p') ->
      exists pl ns,
        parseClause E g pl = Some (Ok (ns, p')) /\
        parseClause E g p' = None /\
        o_PseudoElement res = o_PseudoElement ns)
  /\ CompileGroup E "a::before::after"
     = Ok [mkOne (Some (tagSelector "a")) (mkSpec 0 0 3) "after"]
  /\ CompileGroup E "a::before.c"
     = Ok [mkOne (Some (compoundSelector
                          [Some (tagSelector "a");
                           Some (attrSelector "class" "c" "~=" None)] ""))
                 (mkSpec 0 1 2) ""].
Proof.
  split; [|split; reflexivity].
  intros g p r0 p0 res p' B C. unfold parseSimpleSelectorSequence.
  rewrite B. cbn [bind].
  destruct (clauseLoop E _ g r0 p0) as [[r1 p1]| | |] eqn:L; cbn [bind];
    try discriminate.
  intros [= <- <-].
  destruct (clauseLoop_last _ _ _ _ _ _ L) as (Stop & [[-> ->] | (pl & ns & P & Q)]).
  - contradiction.
  - exists pl, ns. repeat split; auto.
    rewrite <- Q. unfold finish. now destruct (o_match r1).
Qed.

End GrammarProperties.

(** ** Strings and positions *)

Lemma get_drop i k s : String.get (i + k) s = String.get k (drop i s).
Proof.
  revert s. induction i as [|i IH]; intros s; simpl; [reflexivity|].
  destruct s as [|c s]; simpl; [now destruct k | apply IH].
Qed.

Lemma drop_drop i k s : drop (i + k) s = drop k (drop i s).
Proof.
  revert s. induction i as [|i IH]; intros s; simpl; [reflexivity|].
  destruct s as [|c s]; simpl; [now destruct k | apply IH].
Qed.

Lemma drop_app w rest : drop (len w) (w +++ rest) = rest.
Proof. induction w as [|c w IH]; simpl; [reflexivity | exact IH]. Qed.

Lemma len_app w rest : len (w +++ rest) = (len w + len rest)%nat.
Proof. unfold len. induction w as [|c w IH]; simpl; [reflexivity | now rewrite IH]. Qed.

Lemma len_drop i s : len (drop i s) = (len s - i)%nat.
Proof.
  unfold len. revert s. induction i as [|i IH]; intros s; simpl; [lia|].
  destruct s as [|c s]; simpl; [reflexivity | apply IH].
Qed.

Lemma substring_drop i k s : substring i k s = substring 0 k (drop i s).
Proof.
  revert s. induction i as [|i IH]; intros s; simpl; [reflexivity|].
  destruct s as [|c s]; simpl; [now destruct k | apply IH].
Qed.

Lemma substring_app w rest : substring 0 (len w) (w +++ rest) = w.
Proof.
  induction w as [|c w IH]; simpl; [now destruct rest | now rewrite IH].
Qed.

Lemma slice_remaining p k w rest :
  remaining p = w +++ rest -> k = len w ->
  slice (p_s p) (p_i p) (p_i p + k) = w.
Proof.
  unfold remaining, slice. intros R ->.
  replace (p_i p + len w - p_i p)%nat with (len w) by lia.
  rewrite substring_drop, R. apply substring_app.
Qed.

Lemma run_app f w rest :
  allBytes f w = true -> stops f rest = true -> run f (w +++ rest) = len w.
Proof.
  unfold len. intros A S. induction w as [|c w IH]; simpl in *.
  - destruct rest as [|c rest]; [reflexivity|]. simpl in *.
    destruct (f c); [discriminate S | reflexivity].
  - apply andb_prop in A. destruct A as [-> A]. now rewrite IH.
Qed.

Lemma peek_remaining p : peek p = String.get 0 (remaining p).
Proof. unfold peek, remaining. rewrite <- get_drop. f_equal. lia. Qed.

Lemma remaining_setPos p k : remaining (setPos p (p_i p + k)) = drop k (remaining p).
Proof. unfold remaining. simpl. apply drop_drop. Qed.

Lemma remaining_advance p c rest :
  remaining p = String c rest -> remaining (advance p) = rest.
Proof. intros R. unfold advance. now rewrite remaining_setPos, R. Qed.

Lemma remaining_after p w rest :
  remaining p = w +++ rest -> remaining (setPos p (p_i p + len w)) = rest.
Proof. intros R. rewrite remaining_setPos, R. apply drop_app. Qed.

Lemma get_app_len w rest : String.get (len w) (w +++ rest) = String.get 0 rest.
Proof. induction w as [|c w IH]; simpl; [reflexivity | exact IH]. Qed.

Lemma get_after p w rest :
  remaining p = w +++ rest ->
  String.get (p_i p + len w) (p_s p) = String.get 0 rest.
Proof. intros R. rewrite get_drop. fold (remaining p). rewrite R. apply get_app_len. Qed.

Lemma get_here p : String.get (p_i p) (p_s p) = String.get 0 (remaining p).
Proof. apply peek_remaining. Qed.

(** ** The lexical primitives on plain input *)

(** [parseInteger] reads a numeral that is followed by no digit. *)
Lemma parseInteger_numeral p ds rest :
  remaining p = ds +++ rest -> numeral ds -> stops isDigit rest = true ->
  parseInteger p = Ok (parseDecimal 0 ds, setPos p (p_i p + len ds)).
Proof.
  intros R (NE & D & V) St. unfold parseInteger.
  fold (remaining p). rewrite R, (run_app _ _ _ D St).
  assert (L : (0 < len ds)%nat) by (destruct ds; [contradiction | unfold len; simpl; lia]).
  destruct (Nat.eqb_spec (p_i p + len ds) (p_i p)) as [e|_]; [lia|].
  rewrite (slice_remaining p (len ds) ds rest R eq_refl).
  destruct (Z.gtb_spec (parseDecimal 0 ds) GoInt.max_int); [lia | reflexivity].
Qed.

(** [parseName] reads a run of name characters that is followed by no
    name character and no escape. *)
Lemma parseName_plain p w rest :
  remaining p = w +++ rest -> w <> "" -> allBytes nameChar w = true ->
  stops nameOrEscape rest = true ->
  parseName p = Ok (w, setPos p (p_i p + len w)).
Proof.
  intros R NE A St. unfold parseName.
  assert (F : (len (p_s p) - p_i p = len w + len rest)%nat)
    by (rewrite <- len_drop; fold (remaining p); now rewrite R, len_app).
  rewrite F.
  destruct w as [|a w]; [contradiction|].
  assert (Sn : stops nameChar rest = true).
  { destruct rest as [|c rest]; [reflexivity|]. unfold nameOrEscape in St. simpl in *.
    destruct (nameChar c); [discriminate St | reflexivity]. }
  change (len (String a w) + len rest)%nat with (S (len w + len rest))%nat.
  cbn [parseNameLoop].
  rewrite get_here, R. cbn [String.append String.get].
  pose proof A as A'. cbn [allBytes] in A'. apply andb_prop in A'. destruct A' as [Ha _].
  rewrite Ha. fold (remaining p). rewrite R.
  change (String a (w +++ rest)) with (String a w +++ rest).
  rewrite (run_app _ _ _ A Sn).
  rewrite (slice_remaining p (len (String a w)) (String a w) rest R eq_refl).
  rewrite (get_after p _ _ R).
  cbn [String.append].
  assert (G : match String.get 0 rest with
              | Some c => nameChar c = false /\ isByte c "\" = false
              | None => True
              end).
  { destruct rest as [|c rest]; [exact I|]. unfold nameOrEscape in St. simpl in *.
    destruct (nameChar c); [discriminate St|].
    destruct (isByte c "\"); [discriminate St | now split]. }
  destruct (String.get 0 rest) as [c|]; cbn [bind].
  - destruct G as [-> ->]. reflexivity.
  - reflexivity.
Qed.

(** ** The An+B parser *)

Ltac each_byte c :=
  destruct c as [[] [] [] [] [] [] [] []]; vm_compute;
  intros; try discriminate; auto.

Lemma digit_is_no_sign c :
  isDigit c = true ->
  isByte c "-" = false /\ isByte c "+" = false /\ isN c = false.
Proof. each_byte c. Qed.

Lemma marker_is_no_digit c :
  isN c = true ->
  isByte c "-" = false /\ isByte c "+" = false /\ isDigit c = false.
Proof. each_byte c. Qed.

Lemma lowerByte_o c : lowerByte c = "o"%char -> c = "o"%char \/ c = "O"%char.
Proof. each_byte c. Qed.
Lemma lowerByte_d c : lowerByte c = "d"%char -> c = "d"%char \/ c = "D"%char.
Proof. each_byte c. Qed.
Lemma lowerByte_e c : lowerByte c = "e"%char -> c = "e"%char \/ c = "E"%char.
Proof. each_byte c. Qed.
Lemma lowerByte_v c : lowerByte c = "v"%char -> c = "v"%char \/ c = "V"%char.
Proof. each_byte c. Qed.
Lemma lowerByte_n c : lowerByte c = "n"%char -> c = "n"%char \/ c = "N"%char.
Proof. each_byte c. Qed.

Lemma parseNth_odd p w rest :
  remaining p = w +++ rest -> stops nameOrEscape rest = true ->
  toLowerASCII w = "odd" ->
  parseNth p = Ok (2, 1, setPos p (p_i p + 3)).
Proof.
  intros R St L.
  destruct w as [|a [|b [|c [|]]]]; try discriminate L.
  injection L as La Lb Lc.
  destruct (lowerByte_o _ La) as [-> | ->];
    destruct (lowerByte_d _ Lb) as [-> | ->];
    destruct (lowerByte_d _ Lc) as [-> | ->];
    unfold parseNth; rewrite peek_remaining, R;
    rewrite (parseName_plain p _ rest R ltac:(discriminate) eq_refl St);
    reflexivity.
Qed.

Lemma parseNth_even p w rest :
  remaining p = w +++ rest -> stops nameOrEscape rest = true ->
  toLowerASCII w = "even" ->
  parseNth p = Ok (2, 0, setPos p (p_i p + 4)).
Proof.
  intros R St L.
  destruct w as [|a [|b [|c [|d [|]]]]]; try discriminate L.
  injection L as La Lb Lc Ld.
  destruct (lowerByte_e _ La) as [-> | ->];
    destruct (lowerByte_v _ Lb) as [-> | ->];
    destruct (lowerByte_e _ Lc) as [-> | ->];
    destruct (lowerByte_n _ Ld) as [-> | ->];
    unfold parseNth; rewrite peek_remaining, R;
    rewrite (parseName_plain p _ rest R ltac:(discriminate) eq_refl St);
    reflexivity.
Qed.

Lemma setPos_setPos p i j : setPos (setPos p i) j = setPos p j.
Proof. reflexivity. Qed.

Lemma numeral_head ds :
  numeral ds -> exists d ds', ds = String d ds' /\ isDigit d = true.
Proof.
  intros (NE & D & _). destruct ds as [|d ds']; [contradiction|].
  simpl in D. apply andb_prop in D. destruct D as [D _]. eauto.
Qed.

Lemma numeral_range ds : numeral ds -> 0 <= parseDecimal 0 ds <= GoInt.max_int.
Proof.
  intros (_ & _ & V). split; [|exact V].
  assert (G : forall s acc, 0 <= acc -> 0 <= parseDecimal acc s).
  { induction s as [|c s IH]; intros acc Hacc; simpl; [exact Hacc|].
    apply IH. lia. }
  apply G. lia.
Qed.

Lemma neg_numeral ds : numeral ds -> GoInt.neg (parseDecimal 0 ds) = - parseDecimal 0 ds.
Proof.
  intros N. pose proof (numeral_range ds N) as R. unfold GoInt.neg.
  apply wrap_small. unfold GoInt.min_int, GoInt.max_int in *. lia.
Qed.

(** After a [+] or at a digit: a numeral is the coefficient, or the
    constant when no marker follows. *)
Lemma positiveA_numeral p ds rest :
  remaining p = ds +++ rest -> numeral ds -> stops isDigit rest = true ->
  parseNth_positiveA p
  = parseNth_readA (parseDecimal 0 ds) (setPos p (p_i p + len ds)).
Proof.
  intros R N St. destruct (numeral_head ds N) as (d & ds' & -> & D).
  unfold parseNth_positiveA. rewrite peek_remaining, R.
  cbn [String.append String.get]. rewrite D.
  rewrite (parseInteger_numeral p _ rest R N St). reflexivity.
Qed.

Lemma negativeA_numeral p ds rest :
  remaining p = ds +++ rest -> numeral ds -> stops isDigit rest = true ->
  parseNth_negativeA p
  = parseNth_readA (- parseDecimal 0 ds) (setPos p (p_i p + len ds)).
Proof.
  intros R N St. destruct (numeral_head ds N) as (d & ds' & -> & D).
  unfold parseNth_negativeA. rewrite peek_remaining, R.
  cbn [String.append String.get]. rewrite D.
  rewrite (parseInteger_numeral p _ rest R N St). cbn [bind].
  now rewrite (neg_numeral _ N).
Qed.

(** A numeral with its sign, read by [parseNth]. *)
Lemma parseNth_numeral p sg ds rest :
  remaining p = signText sg +++ ds +++ rest -> numeral ds ->
  stops isDigit rest = true ->
  parseNth p
  = parseNth_readA (signed sg (parseDecimal 0 ds))
                   (setPos p (p_i p + len (signText sg +++ ds))).
Proof.
  intros R N St. unfold parseNth. rewrite peek_remaining, R.
  destruct sg; cbn [signText String.append String.get] in *.
  - destruct (numeral_head ds N) as (d & ds' & E & D).
    rewrite E at 1. cbn [String.append String.get].
    destruct (digit_is_no_sign d D) as (-> & -> & _). rewrite D.
    apply (positiveA_numeral p ds rest R N St).
  - cbn [isByte Ascii.eqb Bool.eqb].
    rewrite (positiveA_numeral (advance p) ds rest (remaining_advance _ _ _ R) N St).
    unfold advance. rewrite setPos_setPos. cbn [p_i setPos].
    f_equal. f_equal. unfold len. simpl. lia.
  - cbn [isByte Ascii.eqb Bool.eqb].
    rewrite (negativeA_numeral (advance p) ds rest (remaining_advance _ _ _ R) N St).
    unfold advance. rewrite setPos_setPos. cbn [p_i setPos].
    f_equal. f_equal. unfold len. simpl. lia.
Qed.

(** The marker with a sign only: the coefficient is 1 or -1. *)
Lemma parseNth_marker p sg m rest :
  remaining p = signText sg +++ String m rest -> isN m = true ->
  parseNth p
  = parseNth_readN (signed sg 1) (setPos p (p_i p + len (signText sg) + 1)).
Proof.
  intros R M. destruct (marker_is_no_digit m M) as (M1 & M2 & M3).
  unfold parseNth. rewrite peek_remaining, R.
  destruct sg; cbn [signText String.append String.get] in *.
  - rewrite M1, M2, M3, M. unfold advance. simpl. f_equal. f_equal. lia.
  - cbn [isByte Ascii.eqb Bool.eqb].
    unfold parseNth_positiveA.
    rewrite peek_remaining, (remaining_advance _ _ _ R).
    cbn [String.get]. rewrite M3, M. unfold advance. reflexivity.
  - cbn [isByte Ascii.eqb Bool.eqb].
    unfold parseNth_negativeA.
    rewrite peek_remaining, (remaining_advance _ _ _ R).
    cbn [String.get]. rewrite M3, M. unfold advance. reflexivity.
Qed.

(** After the integer: the marker, or the end of a constant. *)
Lemma readA_marker a p m rest :
  remaining p = String m rest -> isN m = true ->
  parseNth_readA a p = parseNth_readN a (advance p).
Proof.
  intros R M. unfold parseNth_readA. rewrite peek_remaining, R. simpl. now rewrite M.
Qed.

Lemma readA_constant a p c rest :
  remaining p = String c rest -> isN c = false ->
  parseNth_readA a p = Ok (0, a, p).
Proof.
  intros R M. unfold parseNth_readA. rewrite peek_remaining, R. simpl. now rewrite M.
Qed.

(** After the marker: no offset, or an offset with its sign. *)
Lemma readN_default a p sk p1 c :
  skipWhitespace p = Ok (sk, p1) -> peek p1 = Some c ->
  isByte c "+" = false -> isByte c "-" = false ->
  parseNth_readN a p = Ok (a, 0, p1).
Proof.
  intros W P C1 C2. unfold parseNth_readN. rewrite W. cbn [bind].
  now rewrite P, C1, C2.
Qed.

Lemma readN_offset a p sk p1 sg sk2 p2 ds rest :
  skipWhitespace p = Ok (sk, p1) ->
  sg <> NoSign -> peek p1 = String.get 0 (signText sg) ->
  skipWhitespace (advance p1) = Ok (sk2, p2) ->
  remaining p2 = ds +++ rest -> numeral ds -> stops isDigit rest = true ->
  parseNth_readN a p
  = Ok (a, signed sg (parseDecimal 0 ds), setPos p2 (p_i p2 + len ds)).
Proof.
  intros W S P W2 R N St. unfold parseNth_readN. rewrite W. cbn [bind].
  rewrite P. destruct sg; [contradiction| |]; cbn [signText String.get];
    cbn [isByte Ascii.eqb Bool.eqb]; rewrite W2; cbn [bind];
    rewrite (parseInteger_numeral p2 ds rest R N St); cbn [bind signed].
  - reflexivity.
  - now rewrite (neg_numeral _ N).
Qed.

Lemma append_assoc (a b c : string) : (a +++ b) +++ c = a +++ b +++ c.
Proof. induction a as [|x a IH]; simpl; [reflexivity | now rewrite IH]. Qed.

(** C4. The An+B parser, at the argument of an nth-* pseudo-class:
    - [odd] gives (2,1) and [even] gives (2,0), in any letter case;
    - an integer that no marker follows gives a = 0 and, as b, the
      integer with its sign;
    - the marker after a sign only gives a = 1 or a = -1 (after a numeral,
      a is the numeral with its sign);
    - after the marker, b is 0 when no [+] or [-] follows, and the
      integer after the [+] or [-], with that sign, when one does. *)
Theorem parseNth_correct :
  (forall p w rest,
      remaining p = w +++ rest -> stops nameOrEscape rest = true ->
      (toLowerASCII w = "odd" -> parseNth p = Ok (2, 1, setPos p (p_i p + 3))) /\
      (toLowerASCII w = "even" -> parseNth p = Ok (2, 0, setPos p (p_i p + 4))))
  /\ (forall p sg ds c rest,
         remaining p = signText sg +++ ds +++ String c rest -> numeral ds ->
         isDigit c = false -> isN c = false ->
         parseNth p = Ok (0, signed sg (parseDecimal 0 ds),
                          setPos p (p_i p + len (signText sg +++ ds))))
  /\ (forall p sg m rest,
         remaining p = signText sg +++ String m rest -> isN m = true ->
         parseNth p = parseNth_readN (signed sg 1)
                                     (setPos p (p_i p + len (signText sg) + 1)))
  /\ (forall p sg ds m rest,
         remaining p = signText sg +++ ds +++ String m rest -> numeral ds ->
         isN m = true ->
         parseNth p = parseNth_readN (signed sg (parseDecimal 0 ds))
                        (setPos p (p_i p + len (signText sg +++ ds) + 1)))
  /\ (forall a p sk p1 c,
         skipWhitespace p = Ok (sk, p1) -> peek p1 = Some c ->
         isByte c "+" = false -> isByte c "-" = false ->
         parseNth_readN a p = Ok (a, 0, p1))
  /\ (forall a p sk p1 sg sk2 p2 ds rest,
         skipWhitespace p = Ok (sk, p1) ->
         sg <> NoSign -> peek p1 = String.get 0 (signText sg) ->
         skipWhitespace (advance p1) = Ok (sk2, p2) ->
         remaining p2 = ds +++ rest -> numeral ds -> stops isDigit rest = true ->
         parseNth_readN a p
         = Ok (a, signed sg (parseDecimal 0 ds), setPos p2 (p_i p2 + len ds))).
Proof.
  split; [|split; [|split; [|split; [|split]]]].
  - intros p w rest R St. split; intros L.
    + exact (parseNth_odd p w rest R St L).
    + exact (parseNth_even p w rest R St L).
  - intros p sg ds c rest R N D M.
    assert (St : stops isDigit (String c rest) = true) by (simpl; now rewrite D).
    rewrite (parseNth_numeral p sg ds _ R N St).
    apply readA_constant with c rest; [|exact M].
    apply remaining_after. now rewrite append_assoc.
  - exact parseNth_marker.
  - intros p sg ds m rest R N M.
    destruct (marker_is_no_digit m M) as (_ & _ & D).
    assert (St : stops isDigit (String m rest) = true) by (simpl; now rewrite D).
    rewrite (parseNth_numeral p sg ds _ R N St).
    rewrite readA_marker with (m := m) (rest := rest); [reflexivity | | exact M].
    apply remaining_after. now rewrite append_assoc.
  - exact readN_default.
  - exact readN_offset.
Qed.

(** ** Instances on concrete documents and texts *)

Lemma attributeNotEqualMatch_correct_witness :
  attributeNotEqualMatch "lang" "en" thirdItem = true.
Proof.
  apply (attributeNotEqualMatch_correct "lang" "en" thirdItem).
  - reflexivity.
  - simpl. intros a [<- | []]. discriminate.
Defined.

Lemma simpleNth_refines_nthChildMatch_witness :
  simpleNthChildMatch 3 false thirdItem = nthChildMatch 0 3 false false thirdItem
  /\ simpleNthLastChildMatch 3 false thirdItem
     = nthChildMatch 0 3 true false thirdItem.
Proof.
  apply (simpleNth_refines_nthChildMatch 3 false thirdItem).
  - unfold GoInt.in_range. vm_compute. split; discriminate.
  - unfold siblingsFit. vm_compute. reflexivity.
Defined.

Lemma nthChildMatch_correct_witness : nthRule 2 1 false false thirdItem.
Proof.
  apply (nthChildMatch_correct 2 1 false false thirdItem orderedList).
  - discriminate.
  - unfold GoInt.in_range. vm_compute. split; discriminate.
  - reflexivity.
  - discriminate.
  - unfold siblingsFit. vm_compute. reflexivity.
  - vm_compute. discriminate.
Defined.

Lemma siblingMatch_adjacent_correct_witness :
  adjacentRule (tagMatch "a") (tagMatch "b") afterText.
Proof.
  apply (siblingMatch_adjacent_correct (tagMatch "a") (tagMatch "b") afterText).
  simpl. intros c [<- | [<- | []]]; simpl; auto.
Defined.

Lemma parseNth_correct_witness :
  parseNth (mkParser "li:nth-child(oDd)" 13)
  = Ok (2, 1, mkParser "li:nth-child(oDd)" 16)
  /\ parseNth (mkParser "li:nth-child(-7 )" 13)
     = Ok (0, -7, mkParser "li:nth-child(-7 )" 15).
Proof.
  destruct parseNth_correct as (K & C & _).
  split.
  - apply (K (mkParser "li:nth-child(oDd)" 13) "oDd" ")"); reflexivity.
  - apply (C (mkParser "li:nth-child(-7 )" 13) Minus "7" " "%char ")");
      try reflexivity.
    repeat split; [discriminate | vm_compute; discriminate].
Defined.

Lemma relative_pseudoclass_specificity_witness :
  exists p2 sel p3,
    openParenthesis (mkParser "p:not(.a, #b)" 5) = Ok p2 /\
    parseSelectorGroup asciiExt 2 p2 = Ok (sel, p3) /\
    closeParenthesis p3 = Ok (mkParser "p:not(.a, #b)" 13) /\
    (exists x, In x sel /\ mkSpec 1 0 0 = o_Specificity x) /\
    (forall x, In x sel -> ~ lexLess (mkSpec 1 0 0) (o_Specificity x)) /\
    (forall s other, Less s other = true <-> lexLess s other).
Proof.
  exact (relative_pseudoclass_specificity asciiExt 2
           (mkParser "p:not(.a, #b)" 1) "not" (mkParser "p:not(.a, #b)" 5)
           (withMatch
              (negatedSelector
                 (selectorGroup [Some (attrSelector "class" "a" "~=" None);
                                 Some (attrSelector "id" "b" "=" None)]))
              (mkSpec 1 0 0))
           (mkParser "p:not(.a, #b)" 13)
           eq_refl eq_refl eq_refl).
Defined.

Lemma last_clause_sets_PseudoElement_witness :
  exists pl ns,
    parseClause asciiExt (parseSelectorGroup asciiExt 2) pl
    = Some (Ok (ns, mkParser "a::before::after" 16)) /\
    parseClause asciiExt (parseSelectorGroup asciiExt 2)
                (mkParser "a::before::after" 16) = None /\
    "after" = o_PseudoElement ns.
Proof.
  destruct (last_clause_sets_PseudoElement asciiExt) as (K & _).
  apply (K (parseSelectorGroup asciiExt 2) (mkParser "a::before::after" 0)
           (typeSelector "a") (mkParser "a::before::after" 1)
           (mkOne (Some (tagSelector "a")) (mkSpec 0 0 3) "after")
           (mkParser "a::before::after" 16)).
  - reflexivity.
  - discriminate.
  - reflexivity.
Defined.

(** ** The parser always returns

    Every loop of the embedding is given enough steps: each turn moves
    the position forward, and the position never passes the end of the
    text. *)

Lemma well_weaken {A} i j s (r : result (A * parser)) :
  well j s r -> (i <= j)%nat -> well i s r.
Proof. destruct r as [[x p']| | |]; simpl; auto. intros (Hs & H1 & H2) L. repeat split; auto; lia. Qed.

Lemma well_bind {A B} i s (r : result (A * parser))
      (k : A * parser -> result (B * parser)) :
  well i s r ->
  (forall x p', r = Ok (x, p') -> p_s p' = s -> (i <= p_i p' <= len s)%nat ->
                well i s (k (x, p'))) ->
  well i s (bind r k).
Proof.
  destruct r as [[x p']| | |]; simpl; auto.
  intros (Hs & H1 & H2) K. apply K; auto.
Qed.

Lemma at_bind {B} i s (t : string) (j : nat) (k : byte -> result (B * parser)) :
  (forall c, String.get j t = Some c -> well i s (k c)) ->
  well i s (bind (at_ t j) k).
Proof.
  unfold at_. destruct (String.get j t) as [c|]; simpl; auto.
Qed.

Lemma get_Some_lt i s c : String.get i s = Some c -> (i < len s)%nat.
Proof.
  unfold len. revert i. induction s as [|d s IH]; intros i; simpl; [discriminate|].
  destruct i as [|i]; [lia|]. intros H. apply IH in H. lia.
Qed.

Lemma get_Some_drop i s c : String.get i s = Some c -> exists r, drop i s = String c r.
Proof.
  revert i. induction s as [|d s IH]; intros i; simpl.
  - destruct i; discriminate.
  - destruct i as [|i]; simpl; [intros [= ->]; eauto | apply IH].
Qed.

Lemma runUpTo_le f k s : (runUpTo f k s <= len s)%nat.
Proof.
  unfold len. revert s. induction k as [|k IH]; intros s; simpl; [lia|].
  destruct s as [|c s]; simpl; [lia|]. destruct (f c); [|lia].
  specialize (IH s). lia.
Qed.

Lemma run_le f s : (run f s <= len s)%nat.
Proof.
  unfold len. induction s as [|c s IH]; simpl; [lia|]. destruct (f c); lia.
Qed.

Lemma well_Ok {A} i s (x : A) (p' : parser) :
  p_s p' = s -> (i <= p_i p' <= len s)%nat -> well i s (Ok (x, p')).
Proof. simpl. auto. Qed.

Lemma runUpTo_first f k c r :
  f c = true -> runUpTo f (S k) (String c r) = S (runUpTo f k r).
Proof. intros H. simpl. now rewrite H. Qed.

(** [parseEscape] moves at least two bytes forward. *)
Lemma parseEscape_well p :
  within p -> well (p_i p + 2) (p_s p) (parseEscape p).
Proof.
  unfold within. intros W. unfold parseEscape.
  destruct (Nat.ltb_spec (len (p_s p)) (p_i p + 2)) as [|L]; [exact I|].
  apply at_bind. intros c0 _. destruct (negb (isByte c0 "\")); [exact I|].
  apply at_bind. intros c G.
  destruct (isByte c CR || isByte c LF || isByte c FF); [exact I|].
  destruct (hexDigit c) eqn:Hx.
  - destruct (get_Some_drop _ _ _ G) as (r & D).
    pose proof (runUpTo_le hexDigit 5 (drop (p_i p + 1) (p_s p))) as U.
    rewrite len_drop in U. rewrite D in *.
    rewrite (runUpTo_first hexDigit 4 c r Hx) in *.
    set (n := runUpTo hexDigit 4 r) in *.
    set (i := (p_i p + 1 + S n)%nat).
    match goal with
    | |- well _ _ (Ok (_, setPos p ?e)) =>
        assert (J : (i <= e <= len (p_s p))%nat)
    end.
    { destruct (String.get i (p_s p)) as [d|] eqn:Gi; [|lia].
      apply get_Some_lt in Gi.
      destruct (isByte d CR).
      - destruct (String.get (i + 1) (p_s p)) as [e|] eqn:Ge; [|lia].
        apply get_Some_lt in Ge. destruct (isByte e LF); lia.
      - destruct (isByte d SP || isByte d TAB || isByte d LF || isByte d FF); lia. }
    apply well_Ok; [reflexivity|]. simpl. subst i. lia.
  - apply well_Ok; [reflexivity|]. simpl. lia.
Qed.

Lemma first_run f s c r : s = String c r -> f c = true -> (1 <= run f s)%nat.
Proof. intros -> H. simpl. rewrite H. lia. Qed.

(** The loop of [parseName] ends within the text and not before [i]. *)
Lemma parseNameLoop_well fuel p i res :
  (i <= len (p_s p))%nat -> (len (p_s p) - i < fuel)%nat ->
  match parseNameLoop fuel p i res with
  | Ok (_, j) => (i <= j <= len (p_s p))%nat
  | OutOfFuel => False
  | _ => True
  end.
Proof.
  revert i res. induction fuel as [|fuel IH]; intros i res L F; [lia|].
  cbn [parseNameLoop].
  destruct (String.get i (p_s p)) as [c|] eqn:G; [|lia].
  pose proof (get_Some_lt _ _ _ G) as Lt.
  destruct (nameChar c) eqn:N.
  - destruct (get_Some_drop _ _ _ G) as (r & D).
    pose proof (first_run nameChar _ _ _ D N) as R1.
    pose proof (run_le nameChar (drop i (p_s p))) as R2. rewrite len_drop in R2.
    set (j := (i + run nameChar (drop i (p_s p)))%nat) in *.
    specialize (IH j (res +++ slice (p_s p) i j) ltac:(lia) ltac:(lia)).
    destruct (parseNameLoop fuel p j _) as [[x k]| | |]; auto. lia.
  - destruct (isByte c "\"); [|lia].
    pose proof (parseEscape_well (setPos p i) ltac:(unfold within; simpl; lia)) as W.
    destruct (parseEscape (setPos p i)) as [[val p']| | |]; simpl in W |- *; auto.
    destruct W as (_ & W1 & W2).
    specialize (IH (p_i p') (res +++ val) ltac:(lia) ltac:(lia)).
    destruct (parseNameLoop fuel p (p_i p') _) as [[x k]| | |]; auto. lia.
Qed.

Lemma parseName_well p : within p -> well (p_i p) (p_s p) (parseName p).
Proof.
  unfold within. intros W. unfold parseName.
  pose proof (parseNameLoop_well (S (len (p_s p) - p_i p)) p (p_i p) "" W
                ltac:(lia)) as H.
  destruct (parseNameLoop _ p (p_i p) "") as [[res j]| | |]; simpl; auto.
  destruct (String.eqb res ""); simpl; auto.
Qed.

Lemma peek_Some_lt p c : peek p = Some c -> (p_i p < len (p_s p))%nat.
Proof. apply get_Some_lt. Qed.

Lemma parseIdentifier_well p : within p -> well (p_i p) (p_s p) (parseIdentifier p).
Proof.
  unfold within. intros W. unfold parseIdentifier.
  assert (K : forall q, p_s q = p_s p -> (p_i p <= p_i q <= len (p_s p))%nat ->
              forall dash : bool,
              well (p_i p) (p_s p)
                   match peek q with
                   | None => Err ErrIdentifierEOF
                   | Some c =>
                       if negb (nameStart c || isByte c "\") then Err (ErrIdentifierFound c)
                       else '(res, q') <- parseName q ;;
                            Ok (if dash then "-" +++ res else res, q')
                   end).
  { intros q Hs Hq dash. destruct (peek q) as [c|]; [|exact I].
    destruct (negb _); [exact I|].
    apply well_weaken with (p_i q); [|lia]. rewrite <- Hs.
    apply well_bind; [apply parseName_well; unfold within; rewrite Hs; lia|].
    intros x p' _ Hs' Hp'. apply well_Ok; [auto | lia]. }
  destruct (peek p) as [c|] eqn:P.
  - destruct (isByte c "-").
    + apply peek_Some_lt in P.
      exact (K (setPos p (p_i p + 1)) eq_refl ltac:(simpl; lia) true).
    + exact (K p eq_refl ltac:(lia) false).
  - exact (K p eq_refl ltac:(lia) false).
Qed.

(** The loop of [parseString] ends within the text and not before [i]. *)
Lemma parseStringLoop_well fuel p quote i res :
  (i <= len (p_s p))%nat -> (len (p_s p) - i < fuel)%nat ->
  match parseStringLoop fuel p quote i res with
  | Ok (_, j) => (i <= j <= len (p_s p))%nat
  | OutOfFuel => False
  | _ => True
  end.
Proof.
  revert i res. induction fuel as [|fuel IH]; intros i res L F; [lia|].
  assert (Next : forall j r, (i < j <= len (p_s p))%nat ->
                 match parseStringLoop fuel p quote j r with
                 | Ok (_, k) => (i <= k <= len (p_s p))%nat
                 | OutOfFuel => False
                 | _ => True
                 end).
  { intros j r Hj. specialize (IH j r ltac:(lia) ltac:(lia)).
    destruct (parseStringLoop fuel p quote j r) as [[x k]| | |]; auto. lia. }
  assert (Escape :
            match '(val, p') <- parseEscape (setPos p i) ;;
                  parseStringLoop fuel p quote (p_i p') (res +++ val) with
            | Ok (_, k) => (i <= k <= len (p_s p))%nat
            | OutOfFuel => False
            | _ => True
            end).
  { pose proof (parseEscape_well (setPos p i) ltac:(unfold within; simpl; lia)) as W.
    destruct (parseEscape (setPos p i)) as [[val p']| | |]; simpl in W |- *; auto.
    destruct W as (_ & W1 & W2). apply Next. lia. }
  cbn [parseStringLoop].
  destruct (String.get i (p_s p)) as [c|] eqn:G; [|lia].
  pose proof (get_Some_lt _ _ _ G) as Lt.
  destruct (isByte c "\") eqn:Bs.
  - destruct (String.get (i + 1) (p_s p)) as [c1|] eqn:G1; [|exact Escape].
    pose proof (get_Some_lt _ _ _ G1) as Lt1.
    destruct (isByte c1 CR).
    + destruct (String.get (i + 2) (p_s p)) as [c2|] eqn:G2; [|apply Next; lia].
      pose proof (get_Some_lt _ _ _ G2) as Lt2.
      destruct (isByte c2 LF); apply Next; lia.
    + destruct (isByte c1 LF || isByte c1 FF); [apply Next; lia | exact Escape].
  - destruct (isByte c quote) eqn:Q; [lia|].
    destruct (isByte c CR || isByte c LF || isByte c FF) eqn:Nl; [exact I|].
    destruct (get_Some_drop _ _ _ G) as (r & D).
    match goal with
    | |- context [run ?f (drop i (p_s p))] =>
        pose proof (first_run f _ _ _ D) as R1;
        pose proof (run_le f (drop i (p_s p))) as R2
    end.
    rewrite len_drop in R2. cbv beta in R1.
    rewrite Q, Bs in R1. apply orb_false_elim in Nl. destruct Nl as [Nl N3].
    apply orb_false_elim in Nl. destruct Nl as [N1 N2].
    rewrite N1, N2, N3 in R1. specialize (R1 eq_refl).
    apply Next. lia.
Qed.

Lemma parseString_well p : within p -> well (p_i p) (p_s p) (parseString p).
Proof.
  unfold within. intros W. unfold parseString.
  destruct (Nat.ltb_spec (len (p_s p)) (p_i p + 2)) as [|L]; [exact I|].
  apply at_bind. intros quote _.
  pose proof (parseStringLoop_well (S (len (p_s p) - p_i p)) p quote (p_i p + 1) ""
                ltac:(lia) ltac:(lia)) as H.
  destruct (parseStringLoop _ p quote (p_i p + 1) "") as [[res j]| | |]; simpl; auto.
  destruct (Nat.leb_spec (len (p_s p)) j); simpl; auto.
  split; [reflexivity | lia].
Qed.

Lemma prefix_len a b : String.prefix a b = true -> (len a <= len b)%nat.
Proof.
  unfold len. revert b. induction a as [|c a IH]; intros b; [simpl; lia|].
  destruct b as [|d b]; simpl; [discriminate|].
  destruct (ascii_dec c d); [|discriminate]. intros H. apply IH in H. lia.
Qed.

Lemma strings_Index_bound s sep e :
  strings_Index s sep = Some e -> (e + len sep <= len s)%nat.
Proof.
  revert e. induction s as [|c s IH]; intros e; cbn [strings_Index].
  - destruct (String.prefix sep "") eqn:P; intros H; [|discriminate H].
    injection H as <-. apply prefix_len in P. lia.
  - destruct (String.prefix sep (String c s)) eqn:P; intros H.
    + injection H as <-. apply prefix_len in P. lia.
    + destruct (strings_Index s sep) as [e'|]; [|discriminate H].
      injection H as <-. specialize (IH e' eq_refl).
      change (len (String c s)) with (S (len s)). lia.
Qed.

(** The loop of [skipWhitespace] ends within the text and not before [i]. *)
Lemma skipWhitespaceLoop_well fuel s i :
  (i <= len s)%nat -> (len s - i < fuel)%nat ->
  match skipWhitespaceLoop fuel s i with
  | Ok j => (i <= j <= len s)%nat
  | OutOfFuel => False
  | _ => True
  end.
Proof.
  revert i. induction fuel as [|fuel IH]; intros i L F; [lia|].
  assert (Next : forall j, (i < j <= len s)%nat ->
                 match skipWhitespaceLoop fuel s j with
                 | Ok k => (i <= k <= len s)%nat
                 | OutOfFuel => False
                 | _ => True
                 end).
  { intros j Hj. specialize (IH j ltac:(lia) ltac:(lia)).
    destruct (skipWhitespaceLoop fuel s j) as [k| | |]; auto. lia. }
  cbn [skipWhitespaceLoop].
  destruct (String.get i s) as [c|] eqn:G; [|lia].
  pose proof (get_Some_lt _ _ _ G) as Lt.
  destruct (isByte c SP || isByte c TAB || isByte c CR || isByte c LF || isByte c FF);
    [apply Next; lia|].
  destruct (isByte c "/" && strings_HasPrefix (drop i s) "/*"); [|lia].
  destruct (strings_Index (drop (i + 2) s) "*/") as [e|] eqn:X; [|lia].
  apply strings_Index_bound in X. rewrite len_drop in X.
  change (len "*/") with 2%nat in X. apply Next. lia.
Qed.

Lemma skipWhitespace_well p : within p -> well (p_i p) (p_s p) (skipWhitespace p).
Proof.
  unfold within. intros W. unfold skipWhitespace.
  pose proof (skipWhitespaceLoop_well (S (len (p_s p) - p_i p)) (p_s p) (p_i p) W
                ltac:(lia)) as H.
  destruct (skipWhitespaceLoop _ (p_s p) (p_i p)) as [j| | |]; simpl; auto.
  destruct (Nat.ltb_spec (p_i p) j); simpl; split; auto; lia.
Qed.

Lemma lift_well {A} (f : parser -> result (A * parser)) :
  (forall p, within p -> well (p_i p) (p_s p) (f p)) ->
  forall i s q, p_s q = s -> (i <= p_i q <= len s)%nat -> well i s (f q).
Proof.
  intros H i s q <- L. apply well_weaken with (p_i q); [|lia].
  apply H. unfold within. lia.
Qed.

Lemma bind_assoc {A B C} (r : result A) (f : A -> result B) (k : B -> result C) :
  bind (bind r f) k = bind r (fun x => bind (f x) k).
Proof. now destruct r. Qed.

Create HintDb wells.
#[local] Hint Resolve parseEscape_well parseName_well parseIdentifier_well
  parseString_well skipWhitespace_well : wells.

(** One step of a proof that a parser function is [well]: a returned
    error or a panic is nothing to prove, a returned parser is within
    bounds by arithmetic, a call is [well] by its own lemma. *)
Ltac tidy :=
  cbn [p_i p_s advance setPos] in *;
  repeat match goal with
         | H : peek _ = Some _ |- _ => apply peek_Some_lt in H
         | H : (_ <=? _)%nat = true |- _ => apply Nat.leb_le in H
         | H : (_ <=? _)%nat = false |- _ => apply Nat.leb_gt in H
         | H : (_ <? _)%nat = true |- _ => apply Nat.ltb_lt in H
         | H : (_ <? _)%nat = false |- _ => apply Nat.ltb_ge in H
         | H : (_ =? _)%nat = true |- _ => apply Nat.eqb_eq in H
         | H : (_ =? _)%nat = false |- _ => apply Nat.eqb_neq in H
         | H : String.get _ _ = Some _ |- _ => apply get_Some_lt in H
         | H : p_s ?q = ?s |- _ => progress (rewrite ?H in * |-; rewrite ?H)
         end;
  cbn [p_i p_s advance setPos] in *.

Ltac well_step :=
  first
    [ exact I
    | apply well_Ok; [tidy; solve [reflexivity | congruence] | tidy; unfold within in *; lia]
    | apply at_bind; intros ? ?
    | match goal with
      | |- well _ _ (bind (bind _ _) _) => rewrite bind_assoc
      | |- well _ _ (bind (Ok _) _) => cbn [bind]
      | |- well _ _ (bind (Err _) _) => exact I
      | |- well _ _ (bind (match ?x with _ => _ end) _) => destruct x eqn:?
      | |- well _ _ (bind (if ?b then _ else _) _) => destruct b eqn:?
      | |- well _ _ (bind (?f ?q) _) =>
          apply well_bind;
          [ apply (lift_well f);
            [ solve [eauto with wells]
            | tidy; solve [reflexivity | congruence]
            | tidy; unfold within in *; lia ]
          | intros ? ? _ ? ? ]
      | |- well _ _ (match ?x with _ => _ end) => destruct x eqn:?
      | |- well _ _ (if ?b then _ else _) => destruct b eqn:?
      | |- well _ _ (?f ?q) =>
          apply (lift_well f);
          [ solve [eauto with wells]
          | tidy; solve [reflexivity | congruence]
          | tidy; unfold within in *; lia ]
      end ].

Ltac well_steps := repeat well_step.

Lemma consumeParenthesis_well p :
  within p -> well (p_i p) (p_s p) (consumeParenthesis p).
Proof. intros W. unfold consumeParenthesis. well_steps. Qed.

Lemma consumeClosingParenthesis_well p :
  within p -> well (p_i p) (p_s p) (consumeClosingParenthesis p).
Proof. intros W. unfold consumeClosingParenthesis. well_steps. Qed.

Lemma parseInteger_well p : within p -> well (p_i p) (p_s p) (parseInteger p).
Proof.
  intros W. unfold parseInteger.
  pose proof (run_le isDigit (drop (p_i p) (p_s p))) as R. rewrite len_drop in R.
  well_steps.
Qed.

#[local] Hint Resolve consumeParenthesis_well consumeClosingParenthesis_well
  parseInteger_well : wells.

Lemma parseNth_readN_well a p :
  within p -> well (p_i p) (p_s p) (parseNth_readN a p).
Proof. intros W. unfold parseNth_readN. well_steps. Qed.

#[local] Hint Resolve parseNth_readN_well : wells.

Lemma parseNth_readA_well a p :
  within p -> well (p_i p) (p_s p) (parseNth_readA a p).
Proof. intros W. unfold parseNth_readA. well_steps. Qed.

#[local] Hint Resolve parseNth_readA_well : wells.

Lemma parseNth_positiveA_well p :
  within p -> well (p_i p) (p_s p) (parseNth_positiveA p).
Proof. intros W. unfold parseNth_positiveA. well_steps. Qed.

Lemma parseNth_negativeA_well p :
  within p -> well (p_i p) (p_s p) (parseNth_negativeA p).
Proof. intros W. unfold parseNth_negativeA. well_steps. Qed.

#[local] Hint Resolve parseNth_positiveA_well parseNth_negativeA_well : wells.

Lemma parseNth_well p : within p -> well (p_i p) (p_s p) (parseNth p).
Proof. intros W. unfold parseNth. well_steps. Qed.

#[local] Hint Resolve parseNth_well : wells.

Lemma regexEnd_bounds rest i open :
  (i <= regexEnd rest i open <= i + len rest)%nat.
Proof.
  unfold len. revert i open. induction rest as [|c rest IH]; intros i open; simpl; [lia|].
  destruct (isByte c "(" || isByte c "[").
  - specialize (IH (S i) (open + 1)). lia.
  - destruct (isByte c ")" || isByte c "]").
    + destruct (open - 1 <? 0); [lia|]. specialize (IH (S i) (open - 1)). lia.
    + specialize (IH (S i) open). lia.
Qed.

Section ClauseProgress.

Variable E : Ext.

Lemma parseRegex_well p : within p -> well (p_i p) (p_s p) (parseRegex E p).
Proof.
  intros W. unfold parseRegex.
  pose proof (regexEnd_bounds (drop (p_i p) (p_s p)) (p_i p) 0) as R.
  rewrite len_drop in R. well_steps.
Qed.

Lemma parseTypeSelector_well p :
  within p -> well (p_i p) (p_s p) (parseTypeSelector p).
Proof. intros W. unfold parseTypeSelector. well_steps. Qed.

Lemma parseStringOrIdentifier_well p :
  within p -> well (p_i p) (p_s p) (parseStringOrIdentifier p).
Proof. intros W. unfold parseStringOrIdentifier. well_steps. Qed.

#[local] Hint Resolve parseRegex_well parseTypeSelector_well
  parseStringOrIdentifier_well : wells.

(** A clause moves at least one byte forward. *)
Lemma parseIDSelector_well p :
  within p -> well (S (p_i p)) (p_s p) (parseIDSelector p).
Proof. intros W. unfold parseIDSelector. well_steps. Qed.

Lemma parseClassSelector_well p :
  within p -> well (S (p_i p)) (p_s p) (parseClassSelector p).
Proof. intros W. unfold parseClassSelector. well_steps. Qed.

Lemma operator_len (b : bool) s i j :
  (len (if b then "=" else slice s i j) <= Nat.max 1 (j - i))%nat.
Proof.
  destruct b; [change (len "=") with 1%nat; lia|].
  assert (G : forall k a, (len (substring a k s) <= k)%nat).
  { unfold len. clear i j. induction s as [|c s IH]; intros k a.
    - destruct a, k; simpl; lia.
    - destruct a as [|a]; [|apply IH].
      destruct k as [|k]; simpl; [lia|]. specialize (IH k 0%nat). lia. }
  unfold slice. specialize (G (j - i)%nat i). lia.
Qed.

Lemma parseAttributeMatcher_well p :
  within p -> well (S (p_i p)) (p_s p) (parseAttributeMatcher E p).
Proof.
  intros W. unfold parseAttributeMatcher, atEnd. well_steps.
  match goal with
  | |- context [len (if ?b then "=" else slice ?s ?i ?j)] =>
      pose proof (operator_len b s i j) as OL;
      set (op := if b then "=" else slice s i j) in *;
      clearbody op
  end.
  well_steps.
Qed.

Lemma parseAttributeSelector_well p :
  within p -> well (S (p_i p)) (p_s p) (parseAttributeSelector E p).
Proof.
  intros W. unfold parseAttributeSelector.
  apply well_bind; [now apply parseAttributeMatcher_well|].
  intros. well_steps.
Qed.

Lemma pseudoclassName_well p :
  within p -> well (S (p_i p)) (p_s p) (pseudoclassName p).
Proof.
  intros W. unfold pseudoclassName. well_steps.
  match goal with |- context [if ?b then advance _ else _] => destruct b end;
    well_steps.
Qed.

End ClauseProgress.

#[local] Hint Resolve parseRegex_well parseTypeSelector_well
  parseStringOrIdentifier_well : wells.

Section GroupProgress.

Variable E : Ext.

(** The parser [g] of the nested groups is [well] at every position of
    the text [s0] after [i0]. *)
Variable g : parser -> result (Selector * parser).
Variable s0 : string.
Variable i0 : nat.
Hypothesis g_well :
  forall q, p_s q = s0 -> (i0 < p_i q <= len s0)%nat -> well (p_i q) s0 (g q).

Ltac group_step :=
  match goal with
  | |- well _ s0 (bind (g ?q) _) =>
      apply well_bind;
      [ apply well_weaken with (p_i q);
        [ apply g_well; [tidy; solve [reflexivity | congruence] | tidy; lia]
        | tidy; lia ]
      | intros ? ? _ ? ? ]
  end.

Ltac group_steps := repeat first [well_step | group_step].

Lemma pseudoclassBody_well name p :
  p_s p = s0 -> (i0 < p_i p <= len s0)%nat ->
  well (p_i p) s0 (pseudoclassBody E g name p).
Proof.
  intros Hs Hp. unfold pseudoclassBody, openParenthesis, closeParenthesis, atEnd.
  group_steps.
Qed.

Lemma parsePseudoclassSelector_well p :
  p_s p = s0 -> (i0 <= p_i p <= len s0)%nat ->
  well (S (p_i p)) s0 (parsePseudoclassSelector E g p).
Proof.
  intros Hs Hp. unfold parsePseudoclassSelector.
  apply well_bind.
  - rewrite <- Hs. apply pseudoclassName_well. unfold within. rewrite Hs. lia.
  - intros name p' _ Hs' Hp'.
    apply well_weaken with (p_i p'); [|lia].
    apply pseudoclassBody_well; [exact Hs' | lia].
Qed.

Lemma parseClause_well p clause :
  p_s p = s0 -> (i0 <= p_i p <= len s0)%nat ->
  parseClause E g p = Some clause -> well (S (p_i p)) s0 clause.
Proof.
  intros Hs Hp. unfold parseClause.
  assert (W : within p) by (unfold within; rewrite Hs; lia).
  destruct (peek p) as [c|]; [|discriminate].
  destruct (isByte c "#"); [intros [= <-]; rewrite <- Hs; now apply parseIDSelector_well|].
  destruct (isByte c "."); [intros [= <-]; rewrite <- Hs; now apply parseClassSelector_well|].
  destruct (isByte c "["); [intros [= <-]; rewrite <- Hs; now apply parseAttributeSelector_well|].
  destruct (isByte c ":"); [|discriminate].
  intros [= <-]. now apply parsePseudoclassSelector_well.
Qed.

Lemma addClause_returns res ns : addClause res ns <> OutOfFuel /\ addClause res ns <> Panic.
Proof.
  unfold addClause. destruct (o_match res); [split; discriminate|].
  destruct (o_match ns); [split; discriminate|].
  destruct (negb _); split; discriminate.
Qed.

Lemma clauseLoop_well fuel res p :
  p_s p = s0 -> (i0 <= p_i p <= len s0)%nat -> (len s0 - p_i p < fuel)%nat ->
  well (p_i p) s0 (clauseLoop E fuel g res p).
Proof.
  revert res p. induction fuel as [|fuel IH]; intros res p Hs Hp F; [lia|].
  cbn [clauseLoop].
  destruct (parseClause E g p) as [clause|] eqn:C; [|apply well_Ok; [exact Hs | lia]].
  pose proof (parseClause_well p clause Hs Hp C) as W.
  destruct clause as [[ns p1]| | |]; cbn [bind]; simpl in W; auto.
  destruct W as (Hs1 & H1 & H2).
  destruct (addClause_returns res ns) as (A1 & A2).
  destruct (addClause res ns) as [res1| | |]; cbn [bind]; try exact I; try contradiction.
  apply well_weaken with (p_i p1); [|lia].
  apply IH; [exact Hs1 | lia | lia].
Qed.

Lemma parseBase_well p : within p -> well (p_i p) (p_s p) (parseBase p).
Proof. intros W. unfold parseBase. well_steps. Qed.

Lemma parseSimpleSelectorSequence_well p :
  p_s p = s0 -> (i0 <= p_i p <= len s0)%nat ->
  well (p_i p) s0 (parseSimpleSelectorSequence E g p).
Proof.
  intros Hs Hp. unfold parseSimpleSelectorSequence.
  apply well_bind.
  - rewrite <- Hs. apply parseBase_well. unfold within. rewrite Hs. lia.
  - intros r0 p0 _ Hs0 Hp0. apply well_bind.
    + apply well_weaken with (p_i p0); [|lia].
      rewrite Hs0. apply clauseLoop_well; [exact Hs0 | lia | lia].
    + intros r1 p1 _ Hs1 Hp1. apply well_Ok; [exact Hs1 | lia].
Qed.

Lemma selectorLoop_well fuel res p :
  p_s p = s0 -> (i0 <= p_i p <= len s0)%nat -> (len s0 - p_i p < fuel)%nat ->
  well (p_i p) s0 (selectorLoop E fuel g res p).
Proof.
  revert res p. induction fuel as [|fuel IH]; intros res p Hs Hp F; [lia|].
  cbn [selectorLoop].
  assert (Next : forall c q r, p_s q = s0 -> (p_i p < p_i q <= len s0)%nat ->
                 well (p_i q) s0
                      ('(c', q') <- parseSimpleSelectorSequence E g q ;;
                       selectorLoop E fuel g (combine c r c') q')).
  { intros c q r Hq Lq. apply well_bind.
    - apply parseSimpleSelectorSequence_well; [exact Hq | lia].
    - intros c' q' _ Hq' Lq'. apply well_weaken with (p_i q'); [|lia].
      apply IH; [exact Hq' | lia | lia]. }
  unfold skipWhitespace.
  pose proof (skipWhitespaceLoop_well (S (len (p_s p) - p_i p)) (p_s p) (p_i p)
                ltac:(rewrite Hs; lia) ltac:(lia)) as SW.
  rewrite Hs in *.
  destruct (skipWhitespaceLoop _ s0 (p_i p)) as [j| | |]; cbn [bind]; auto.
  destruct (Nat.ltb_spec (p_i p) j) as [Lt|Ge]; cbn [bind].
  - (* white space was skipped: the descendant combinator *)
    destruct (peek (setPos p j)) as [c|] eqn:P; [|apply well_Ok; [exact Hs | simpl; lia]].
    destruct (isByte c "," || isByte c ")"); [apply well_Ok; [exact Hs | simpl; lia]|].
    apply peek_Some_lt in P. simpl in P. rewrite Hs in P.
    destruct (isByte c "+" || isByte c ">" || isByte c "~").
    + rewrite bind_assoc.
      apply well_weaken with (p_i (advance (setPos p j))); [|simpl; lia].
      apply well_bind.
      * apply (lift_well skipWhitespace skipWhitespace_well); simpl; [exact Hs | lia].
      * intros x q _ Hq Lq. cbn [bind]. simpl in Lq. cbn [p_i advance setPos].
        destruct (isByte c zero); [apply well_Ok; [exact Hq | lia]|].
        apply well_weaken with (p_i q); [|simpl; lia].
        apply Next; [exact Hq | lia].
    + cbn [bind]. destruct (isByte " " zero) eqn:Z; [discriminate Z|].
      apply well_weaken with (p_i (setPos p j)); [|simpl; lia].
      apply Next; [exact Hs | simpl; lia].
  - (* nothing was skipped *)
    destruct (peek p) as [c|] eqn:P; [|apply well_Ok; [exact Hs | lia]].
    destruct (isByte c "," || isByte c ")"); [apply well_Ok; [exact Hs | lia]|].
    apply peek_Some_lt in P. rewrite Hs in P.
    destruct (isByte c "+" || isByte c ">" || isByte c "~").
    + rewrite bind_assoc.
      apply well_weaken with (p_i (advance p)); [|simpl; lia].
      apply well_bind.
      * apply (lift_well skipWhitespace skipWhitespace_well); simpl; [exact Hs | lia].
      * intros x q _ Hq Lq. cbn [bind]. simpl in Lq. cbn [p_i advance setPos].
        destruct (isByte c zero); [apply well_Ok; [exact Hq | lia]|].
        apply well_weaken with (p_i q); [|simpl; lia].
        apply Next; [exact Hq | lia].
    + cbn [bind]. rewrite (Ascii.eqb_refl zero : isByte zero zero = true).
      apply well_Ok; [exact Hs | lia].
Qed.

Lemma parseSelector_well p :
  p_s p = s0 -> (i0 <= p_i p <= len s0)%nat ->
  well (p_i p) s0 (parseSelector E g p).
Proof.
  intros Hs Hp. unfold parseSelector.
  apply well_bind.
  - apply (lift_well skipWhitespace skipWhitespace_well); [exact Hs | lia].
  - intros x q _ Hq Lq. apply well_bind.
    + apply well_weaken with (p_i q); [|lia].
      apply parseSimpleSelectorSequence_well; [exact Hq | lia].
    + intros r q' _ Hq' Lq'. apply well_weaken with (p_i q'); [|lia].
      rewrite Hq'. apply selectorLoop_well; [exact Hq' | lia | lia].
Qed.

Lemma groupLoop_well fuel res p :
  p_s p = s0 -> (i0 <= p_i p <= len s0)%nat -> (len s0 - p_i p < fuel)%nat ->
  well (p_i p) s0 (groupLoop E fuel g res p).
Proof.
  revert res p. induction fuel as [|fuel IH]; intros res p Hs Hp F; [lia|].
  cbn [groupLoop].
  destruct (peek p) as [c|] eqn:P; [|apply well_Ok; [exact Hs | lia]].
  destruct (negb (isByte c ",")); [apply well_Ok; [exact Hs | lia]|].
  apply peek_Some_lt in P. rewrite Hs in P.
  apply well_weaken with (p_i (advance p)); [|simpl; lia].
  apply well_bind.
  - apply parseSelector_well; simpl; [exact Hs | lia].
  - intros c' q _ Hq Lq. simpl in Lq. apply well_weaken with (p_i q); [|simpl; lia].
    apply IH; [exact Hq | lia | lia].
Qed.

End GroupProgress.

(** [parseSelectorGroup] with a depth that exceeds the number of bytes
    left returns: a selector group, a parse error, or a panic. *)
Lemma parseSelectorGroup_well E depth p :
  within p -> (len (p_s p) - p_i p < depth)%nat ->
  well (p_i p) (p_s p) (parseSelectorGroup E depth p).
Proof.
  revert p. induction depth as [|depth IH]; intros p W D; [lia|].
  unfold within in W. cbn [parseSelectorGroup].
  assert (G : forall q, p_s q = p_s p -> (p_i p < p_i q <= len (p_s p))%nat ->
              well (p_i q) (p_s p) (parseSelectorGroup E depth q)).
  { intros q Hq Lq. rewrite <- Hq. apply IH; unfold within; rewrite Hq; lia. }
  apply well_bind.
  - apply (parseSelector_well E _ (p_s p) (p_i p) G); [reflexivity | lia].
  - intros c q _ Hq Lq. apply well_weaken with (p_i q); [|lia].
    rewrite Hq. apply (groupLoop_well E _ (p_s p) (p_i p) G); [exact Hq | lia | lia].
Qed.

(** [Compile] returns on every text: a selector, a parse error, or the
    panic of an index out of range. *)
Lemma Compile_returns E sel :
  CompileGroup E sel <> OutOfFuel /\ Compile E sel <> OutOfFuel.
Proof.
  assert (C : CompileGroup E sel <> OutOfFuel).
  { unfold CompileGroup.
    pose proof (parseSelectorGroup_well E (S (len sel)) (mkParser sel 0)
                  ltac:(unfold within; simpl; lia) ltac:(simpl; lia)) as W.
    destruct (parseSelectorGroup E (S (len sel)) (mkParser sel 0)) as [[c q]| | |];
      cbn [bind]; try discriminate; [|contradiction].
    destruct (p_i q <? len sel)%nat; discriminate. }
  split; [exact C|]. unfold Compile.
  destruct (CompileGroup E sel); cbn [bind]; try discriminate. contradiction.
Qed.

(** C2. [Compile] always returns in the embedding (its loops never lack
    steps), but not always with a selector or a parse error: on a text
    that ends with a colon, [parsePseudoclassSelector] reads the byte
    after the colon without a test of the length, and the index is out
    of range. *)
Theorem Compile_panics_after_colon (E : Ext) :
  (forall sel, Compile E sel <> OutOfFuel)
  /\ pseudoclassName (mkParser ":" 0) = Panic
  /\ Compile E ":" = Panic
  /\ Compile E "a:" = Panic
  /\ Compile E "p:not(:" = Panic.
Proof.
  split; [intros sel; apply Compile_returns|].
  repeat split; reflexivity.
Qed.

(** ** The examples of the tests *)

Example nth_child_odd :
  selected "li:nth-child(odd)" orderedList = Ok (Some ["li#1"; "li#3"]).
Proof. reflexivity. Qed.

Example nth_child_even :
  selected "li:nth-child(even)" orderedList = Ok (Some ["li#2"]).
Proof. reflexivity. Qed.

Example nth_last_child_2 :
  selected "li:nth-last-child(2)" orderedList = Ok (Some ["li#2"]).
Proof. reflexivity. Qed.

Example descendant_combinator :
  selected "div p" nested = Ok (Some ["p#1"; "p#2"]).
Proof. reflexivity. Qed.

Example child_combinator : selected "div > p" nested = Ok (Some ["p#1"]).
Proof. reflexivity. Qed.

Example descendant_chain : selected "div table p" nested = Ok (Some ["p#2"]).
Proof. reflexivity. Qed.

Example dash_match :
  selected "[lang|='en']" languages = Ok (Some ["p#en"; "p#en-gb"]).
Proof. reflexivity. Qed.

Example class_and_not :
  selected ".t1:not(.t2)" classes = Ok (Some [])
  /\ selected "p.t1.t2" classes = Ok (Some ["p#t1 t2"]).
Proof. split; reflexivity. Qed.

Example universal_on_document :
  selected "*" nested = Ok (Some ["div"; "p#1"; "table"; "tr"; "td"; "p#2"]).
Proof. reflexivity. Qed.

Example comment_in_combinator :
  CompileGroup asciiExt "p +/*x*/ p" = CompileGroup asciiExt "p + p".
Proof. reflexivity. Qed.

Example specificity_of_compound :
  option_map (map o_Specificity)
             (match CompileGroup asciiExt "div.t1#id" with
              | Ok g => Some g
              | _ => None
              end)
  = Some [mkSpec 1 1 1].
Proof. reflexivity. Qed.

(* ===================================================================== *)
(** * Further properties *)
(* ===================================================================== *)

(** ** The order and the sum of specificities *)

(** X1. [Less] is a strict total order on specificities: no specificity is
    less than itself, the relation is transitive, and of two different
    specificities one is less than the other. *)
Theorem Less_strict_total_order :
  (forall s, Less s s = false)
  /\ (forall s t u, Less s t = true -> Less t u = true -> Less s u = true)
  /\ (forall s t, Less s t = false -> Less t s = false -> s = t).
Proof.
  repeat split.
  - intros s. apply Less_false. unfold lexLess. lia.
  - intros s t u H1 H2. apply Less_lexLess in H1, H2. apply Less_lexLess.
    unfold lexLess in *. lia.
  - intros [a b c] [a' b' c'] H1 H2. apply Less_false in H1, H2.
    unfold lexLess in *. simpl in *. f_equal; lia.
Qed.

Lemma uint8_small z : (z < 256)%N -> uint8 z = z.
Proof. intros H. unfold uint8. now apply N.mod_small. Qed.

Lemma uint8_add_l x y : uint8 (uint8 x + y) = uint8 (x + y).
Proof. unfold uint8. now rewrite N.Div0.add_mod_idemp_l. Qed.

Lemma uint8_add_r x y : uint8 (x + uint8 y) = uint8 (x + y).
Proof. unfold uint8. now rewrite N.Div0.add_mod_idemp_r. Qed.

Lemma uint8_lt z : (uint8 z < 256)%N.
Proof. unfold uint8. apply N.mod_lt. discriminate. Qed.

(** X2. [add] adds component by component modulo 256, with no carry
    from one component into another: (0,255,1) plus (0,1,0) is (0,0,1).
    On specificities whose components are bytes it is a commutative
    monoid: the zero specificity is neutral, the sum does not depend on
    the order or the grouping, and its components are bytes again. *)
Theorem add_commutative_monoid (s t u : Specificity) :
  bytes3 s ->
  add s noSpecificity = s
  /\ add noSpecificity s = s
  /\ add s t = add t s
  /\ add (add s t) u = add s (add t u)
  /\ bytes3 (add s t)
  /\ add s t = mkSpec ((sA s + sA t) mod 256)%N ((sB s + sB t) mod 256)%N
                      ((sC s + sC t) mod 256)%N.
Proof.
  intros (Ha & Hb & Hc). destruct s as [a b c]. simpl in *.
  unfold add. simpl.
  split; [now rewrite !N.add_0_r, !uint8_small|].
  split; [now rewrite !uint8_small|].
  split; [f_equal; f_equal; lia|].
  split; [rewrite !uint8_add_l, !uint8_add_r; f_equal; f_equal; lia|].
  split; [repeat split; apply uint8_lt|].
  reflexivity.
Qed.

Lemma add_commutative_monoid_witness :
  bytes3 (mkSpec 0 255 1)
  /\ (add (mkSpec 0 255 1) noSpecificity = mkSpec 0 255 1
      /\ add noSpecificity (mkSpec 0 255 1) = mkSpec 0 255 1
      /\ add (mkSpec 0 255 1) (mkSpec 0 1 0) = add (mkSpec 0 1 0) (mkSpec 0 255 1)
      /\ add (add (mkSpec 0 255 1) (mkSpec 0 1 0)) (mkSpec 1 0 0)
         = add (mkSpec 0 255 1) (add (mkSpec 0 1 0) (mkSpec 1 0 0))
      /\ bytes3 (add (mkSpec 0 255 1) (mkSpec 0 1 0))
      /\ add (mkSpec 0 255 1) (mkSpec 0 1 0) = mkSpec 0 0 1).
Proof.
  assert (H : bytes3 (mkSpec 0 255 1)) by (unfold bytes3; simpl; lia).
  split; [exact H|].
  exact (add_commutative_monoid (mkSpec 0 255 1) (mkSpec 0 1 0) (mkSpec 1 0 0) H).
Defined.

(** ** Matching with details *)

Section DetailsProperties.

Variable E : Ext.

Lemma not_Less_trans s t u : Less s t = false -> Less t u = false -> Less s u = false.
Proof.
  intros H1 H2. apply Less_false in H1, H2. apply Less_false.
  unfold lexLess in *. lia.
Qed.

Lemma Less_asym s t : Less s t = true -> Less t s = false.
Proof.
  intros H. apply Less_lexLess in H. apply Less_false. unfold lexLess in *. lia.
Qed.

Lemma not_Less_refl s : Less s s = false.
Proof. apply Less_false. unfold lexLess. lia. Qed.

Lemma matchWithSpecificityLoop_spec s n : forall found0 sp0 found sp,
  matchWithSpecificityLoop E s n found0 sp0 = Some (found, sp) ->
  (found = true <-> found0 = true \/ exists sel, In sel s /\ oneMatch E sel n = Some true)
  /\ Less sp sp0 = false
  /\ (forall sel, In sel s -> oneMatch E sel n = Some true ->
      Less sp (o_Specificity sel) = false)
  /\ (sp = sp0 \/
      exists sel, In sel s /\ oneMatch E sel n = Some true /\ o_Specificity sel = sp).
Proof.
  induction s as [|x s IH]; intros found0 sp0 found sp; cbn [matchWithSpecificityLoop].
  - intros [= <- <-]. repeat split.
    + auto.
    + intros [H | (sel & [] & _)]. exact H.
    + apply not_Less_refl.
    + intros sel [].
    + now left.
  - destruct (oneMatch E x n) as [[|]|] eqn:M; [| |discriminate].
    + intros H. apply IH in H. destruct H as (F & L & U & A).
      assert (L0 : Less sp sp0 = false /\ Less sp (o_Specificity x) = false).
      { destruct (Less sp0 (o_Specificity x)) eqn:C.
        - split; [|exact L]. apply not_Less_trans with (o_Specificity x); [exact L|].
          now apply Less_asym.
        - split; [exact L|]. now apply not_Less_trans with sp0. }
      destruct L0 as (L1 & L2). repeat split.
      * intros _. right. exists x. split; [now left | exact M].
      * intros _. apply F. now left.
      * exact L1.
      * intros sel [<- | Hin] Hm; [exact L2 | now apply U].
      * destruct A as [-> | (sel & Hin & Hm & Hs)].
        -- destruct (Less sp0 (o_Specificity x)) eqn:C; [|now left].
           right. exists x. repeat split; [now left | exact M].
        -- right. exists sel. repeat split; [now right | exact Hm | exact Hs].
    + intros H. apply IH in H. destruct H as (F & L & U & A). repeat split.
      * intros Hf. apply F in Hf. destruct Hf as [Hf | (sel & Hin & Hm)]; [now left|].
        right. exists sel. split; [now right | exact Hm].
      * intros [Hf | (sel & [<- | Hin] & Hm)].
        -- apply F. now left.
        -- congruence.
        -- apply F. right. now exists sel.
      * exact L.
      * intros sel [<- | Hin] Hm; [congruence | now apply U].
      * destruct A as [-> | (sel & Hin & Hm & Hs)]; [now left|].
        right. exists sel. repeat split; [now right | exact Hm | exact Hs].
Qed.

Lemma matchWithSpecificity_bounds (s : Selector) (n : Node)
        (found : bool) (sp : Specificity) :
  MatchWithSpecificity E s n = Some (found, sp) ->
  (found = true <-> exists sel, In sel s /\ oneMatch E sel n = Some true)
  /\ (forall sel, In sel s -> oneMatch E sel n = Some true ->
      Less sp (o_Specificity sel) = false)
  /\ (found = true ->
      exists sel, In sel s /\ oneMatch E sel n = Some true /\ o_Specificity sel = sp)
  /\ (found = false -> sp = noSpecificity).
Proof.
  intros H. apply matchWithSpecificityLoop_spec in H. destruct H as (F & L & U & A).
  repeat split.
  - intros Hf. apply F in Hf. destruct Hf as [Hf | Hf]; [discriminate | exact Hf].
  - intros Hf. apply F. now right.
  - exact U.
  - intros Hf. destruct A as [-> | A]; [|exact A].
    apply F in Hf. destruct Hf as [Hf | (sel & Hin & Hm)]; [discriminate|].
    exists sel. repeat split; [exact Hin | exact Hm|].
    apply lexLess_zero. apply Less_false. now apply U.
  - intros ->. destruct A as [-> | (sel & Hin & Hm & _)]; [reflexivity|].
    assert (false = true) by (apply F; right; now exists sel). discriminate.
Qed.

(** X3. When [MatchWithSpecificity] returns [(found, sp)]: [found] holds
    exactly when some selector of the group matches the element; no
    matching selector has a specificity greater than [sp]; when [found],
    [sp] is the specificity of a matching selector; otherwise it is zero. *)
Theorem MatchWithSpecificity_greatest (s : Selector) (n : Node)
        (found : bool) (sp : Specificity) :
  MatchWithSpecificity E s n = Some (found, sp) ->
  (found = true <-> exists sel, In sel s /\ oneMatch E sel n = Some true)
  /\ (forall sel, In sel s -> oneMatch E sel n = Some true ->
      Less sp (o_Specificity sel) = false)
  /\ (found = true ->
      exists sel, In sel s /\ oneMatch E sel n = Some true /\ o_Specificity sel = sp)
  /\ (found = false -> sp = noSpecificity).
Proof. apply matchWithSpecificity_bounds. Qed.

Lemma matchDetailsLoop_spec s n : forall out0,
  matchDetailsLoop E s n out0
  = option_map (fun l => out0 ++ l) (matchDetailsLoop E s n []).
Proof.
  induction s as [|x s IH]; intros out0; cbn [matchDetailsLoop].
  - simpl. now rewrite app_nil_r.
  - destruct (oneMatch E x n) as [[|]|]; [| apply IH | reflexivity].
    rewrite IH. rewrite (IH ([] ++ _)).
    destruct (matchDetailsLoop E s n []); simpl; [|reflexivity].
    now rewrite <- app_assoc.
Qed.

Lemma matchDetailsLoop_filter s n out :
  matchDetailsLoop E s n [] = Some out ->
  out = map detailOf (filter (matches E n) s)
  /\ forall sel, In sel s -> oneMatch E sel n <> None.
Proof.
  revert out. induction s as [|x s IH]; intros out; cbn [matchDetailsLoop].
  - intros [= <-]. split; [reflexivity | intros sel []].
  - cbn [filter].
    destruct (oneMatch E x n) as [[|]|] eqn:M; [| |discriminate].
    + rewrite matchDetailsLoop_spec.
      destruct (matchDetailsLoop E s n []) as [l|]; [|discriminate].
      intros [= <-]. destruct (IH l eq_refl) as (-> & T). split.
      * replace (matches E n x) with true by (unfold matches; now rewrite M).
        reflexivity.
      * intros sel [<- | Hin]; [congruence | now apply T].
    + intros H. destruct (IH out H) as (-> & T). split.
      * replace (matches E n x) with false by (unfold matches; now rewrite M).
        reflexivity.
      * intros sel [<- | Hin]; [congruence | now apply T].
Qed.

Lemma group_Match s n :
  (forall sel, In sel s -> oneMatch E sel n <> None) ->
  Match E (selectorGroup (map o_match s)) n = Some (existsb (matches E n) s).
Proof.
  induction s as [|x s IH]; intros T; [reflexivity|].
  assert (Tx := T x (or_introl eq_refl)).
  specialize (IH (fun sel H => T sel (or_intror H))).
  cbn [map existsb]. unfold matches at 1. unfold oneMatch in *.
  cbn [Match] in *. destruct (o_match x) as [m|]; [|congruence].
  destruct (Match E m n) as [[|]|]; [reflexivity | | congruence].
  cbn [orElse orb]. exact IH.
Qed.

Lemma matchWithSpecificityLoop_total s n :
  (forall sel, In sel s -> oneMatch E sel n <> None) ->
  forall found0 sp0, matchWithSpecificityLoop E s n found0 sp0 <> None.
Proof.
  induction s as [|x s IH]; intros T found0 sp0; cbn [matchWithSpecificityLoop].
  - discriminate.
  - assert (Tx := T x (or_introl eq_refl)).
    destruct (oneMatch E x n) as [[|]|]; [| | congruence];
      apply IH; intros sel H; apply T; now right.
Qed.

Lemma existsb_filter {A} (f : A -> bool) l :
  existsb f l = (0 <? List.length (filter f l))%nat.
Proof.
  induction l as [|x l IH]; [reflexivity|]. cbn [existsb filter].
  destruct (f x); [reflexivity | exact IH].
Qed.

(** X4. When [MatchDetails] returns [(found, out)]: [found] is what the
    [Match] of the group (the selector that [Compile] returns) gives;
    [out] holds the pseudo-element and the specificity of each matching
    selector, in the order of the group; [MatchWithSpecificity] returns
    the same [found], with a specificity that no detail of [out] exceeds. *)
Theorem MatchDetails_agrees (s : Selector) (n : Node)
        (found : bool) (out : list MatchDetail) :
  MatchDetails E s n = Some (found, out) ->
  Match E (selectorGroup (map o_match s)) n = Some found
  /\ out = map detailOf (filter (matches E n) s)
  /\ exists sp, MatchWithSpecificity E s n = Some (found, sp)
       /\ forall d, In d out -> Less sp (d_Specificity d) = false.
Proof.
  unfold MatchDetails.
  destruct (matchDetailsLoop E s n []) as [l|] eqn:L; [|discriminate].
  intros [= <- <-]. destruct (matchDetailsLoop_filter _ _ _ L) as (-> & T).
  rewrite length_map, <- existsb_filter. split; [now apply group_Match|].
  split; [reflexivity|].
  destruct (MatchWithSpecificity E s n) as [[found sp]|] eqn:W;
    [|now apply matchWithSpecificityLoop_total in W].
  destruct (matchWithSpecificity_bounds _ _ _ _ W) as (F & U & _ & _).
  exists sp. split.
  - f_equal. f_equal. destruct found.
    + destruct (proj1 F eq_refl) as (sel & Hin & Hm). symmetry.
      apply existsb_exists. exists sel. split; [exact Hin|].
      unfold matches. now rewrite Hm.
    + destruct (existsb (matches E n) s) eqn:X; [|reflexivity].
      apply existsb_exists in X. destruct X as (sel & Hin & Hm).
      apply F. exists sel. split; [exact Hin|]. unfold matches in Hm.
      now destruct (oneMatch E sel n) as [[|]|].
  - intros d Hd. apply in_map_iff in Hd. destruct Hd as (sel & <- & Hin).
    apply filter_In in Hin. destruct Hin as (Hin & Hm). apply U; [exact Hin|].
    unfold matches in Hm. now destruct (oneMatch E sel n) as [[|]|].
Qed.

End DetailsProperties.

(** ** Traversals *)

Lemma tree_induction (P : tree -> Prop) :
  (forall ty d a ch, Forall P ch -> P (mkTree ty d a ch)) -> forall t, P t.
Proof.
  intros H. fix IH 1. intros [ty d a ch]. apply H.
  induction ch as [|x ch IHch]; constructor; [apply IH | exact IHch].
Qed.

Lemma Filter_app s a b :
  Filter s (a ++ b)
  = match Filter s a with
    | Some x => option_map (app x) (Filter s b)
    | None => None
    end.
Proof.
  induction a as [|n a IH]; cbn [app Filter].
  - now destruct (Filter s b).
  - destruct (s n) as [[|]|]; [| exact IH | reflexivity].
    rewrite IH. destruct (Filter s a); [|reflexivity].
    now destruct (Filter s b).
Qed.

Lemma matchAllInto_Filter s t : forall cx storage,
  matchAllInto s t cx storage = option_map (app storage) (Filter s (subtree t cx)).
Proof.
  induction t as [ty d a ch IH] using tree_induction. intros cx storage.
  cbn [matchAllInto subtree Filter].
  destruct (s (mkNode (mkTree ty d a ch) cx)) as [found|]; [|reflexivity].
  set (st := if found then storage ++ [mkNode (mkTree ty d a ch) cx] else storage).
  match goal with
  | |- ?f [] ch st = _ =>
      assert (K : forall r l st0, Forall (fun t => forall cx storage,
                   matchAllInto s t cx storage
                   = option_map (app storage) (Filter s (subtree t cx))) r ->
                f l r st0
                = option_map (app st0)
                    (Filter s ((fix children (l r : list tree) : list Node :=
                                  match r with
                                  | [] => []
                                  | x :: r' =>
                                      subtree x (Below l ty d a cx r') ++ children (x :: l) r'
                                  end) l r)))
  end.
  { induction r as [|x r IHr]; intros l st0 F.
    - simpl. now rewrite app_nil_r.
    - inversion F as [|? ? Fx Fr]; subst. rewrite Fx. rewrite Filter_app.
      destruct (Filter s (subtree x (Below l ty d a cx r))) as [m|]; [|reflexivity].
      cbn [option_map]. rewrite IHr by exact Fr.
      match goal with |- option_map _ ?o = _ => destruct o end; [|reflexivity].
      simpl. now rewrite app_assoc. }
  rewrite (K ch [] st IH). subst st.
  match goal with |- option_map _ ?o = _ => destruct o end; destruct found; simpl;
    try reflexivity.
  now rewrite <- app_assoc.
Qed.

Lemma MatchAll_Filter s n : MatchAll s n = Filter s (subtree (here n) (ctx n)).
Proof.
  unfold MatchAll. rewrite matchAllInto_Filter.
  now destruct (Filter s (subtree (here n) (ctx n))).
Qed.

(** X5. [MatchAll] returns what [Filter] keeps of the nodes of the
    subtree taken in document order (a node before its children, the
    children from the first to the last); it panics when a call of the
    selector does. *)
Theorem MatchAll_document_order (s : Matcher) (n : Node) :
  MatchAll s n = Filter s (subtree (here n) (ctx n)).
Proof. apply MatchAll_Filter. Qed.

Lemma firstMatch_app s a b :
  firstMatch s (a ++ b)
  = match firstMatch s a with
    | Some None => firstMatch s b
    | r => r
    end.
Proof.
  induction a as [|n a IH]; cbn [app firstMatch]; [reflexivity|].
  destruct (s n) as [[|]|]; [reflexivity | exact IH | reflexivity].
Qed.

Lemma MatchFirstFrom_firstMatch s t : forall cx,
  MatchFirstFrom s t cx = firstMatch s (subtree t cx).
Proof.
  induction t as [ty d a ch IH] using tree_induction. intros cx.
  cbn [MatchFirstFrom subtree firstMatch].
  destruct (s (mkNode (mkTree ty d a ch) cx)) as [[|]|]; [reflexivity | | reflexivity].
  generalize (@nil tree) as l.
  induction ch as [|x r IHr]; intros l; [reflexivity|].
  inversion IH as [|? ? Fx Fr]; subst. rewrite Fx, firstMatch_app.
  destruct (firstMatch s (subtree x (Below l ty d a cx r))) as [[m|]|];
    [reflexivity | | reflexivity].
  now apply IHr.
Qed.

Lemma firstMatch_Filter s nodes r :
  Filter s nodes = Some r -> firstMatch s nodes = Some (hd_error r).
Proof.
  revert r. induction nodes as [|n nodes IH]; intros r; cbn [Filter firstMatch].
  - now intros [= <-].
  - destruct (s n) as [[|]|]; [| apply IH | discriminate].
    destruct (Filter s nodes); [|discriminate]. now intros [= <-].
Qed.

(** X6. When [MatchAll] returns, [MatchFirst] returns its first node,
    and nil when [MatchAll] returns no node. *)
Theorem MatchFirst_is_head_of_MatchAll (s : Matcher) (n : Node) (all : list Node) :
  MatchAll s n = Some all -> MatchFirst s n = Some (hd_error all).
Proof.
  rewrite MatchAll_Filter. unfold MatchFirst.
  rewrite MatchFirstFrom_firstMatch. apply firstMatch_Filter.
Qed.

Lemma Filter_In s nodes : forall r,
  Filter s nodes = Some r -> forall x, In x r <-> In x nodes /\ s x = Some true.
Proof.
  induction nodes as [|n nodes IH]; intros r; cbn [Filter].
  - intros [= <-] x. simpl. tauto.
  - destruct (s n) as [[|]|] eqn:M; [| |discriminate].
    + destruct (Filter s nodes) as [r'|]; [|discriminate]. intros [= <-] x.
      specialize (IH r' eq_refl x). simpl. split.
      * intros [<- | Hx]; [now split; [left|] | split; [right|]; tauto].
      * intros ([<- | Hx] & Hm); [now left | right; tauto].
    + intros Hr x. specialize (IH r Hr x). simpl. split.
      * intros Hx. split; [right|]; tauto.
      * intros ([<- | Hx] & Hm); [congruence | tauto].
Qed.

Lemma Filter_idempotent s nodes : forall r,
  Filter s nodes = Some r -> Filter s r = Some r.
Proof.
  induction nodes as [|n nodes IH]; intros r; cbn [Filter].
  - now intros [= <-].
  - destruct (s n) as [[|]|] eqn:M; [| apply IH | discriminate].
    destruct (Filter s nodes) as [r'|]; [|discriminate]. intros [= <-].
    cbn [Filter]. rewrite M. now rewrite (IH r').
Qed.

(** X7. When [Filter] returns: its result holds exactly the nodes of the
    input that match; filtering the result again changes nothing; and the
    filter of a concatenation is the concatenation of the filters. *)
Theorem Filter_keeps_the_matching_nodes (s : Matcher) (nodes result : list Node) :
  Filter s nodes = Some result ->
  (forall x, In x result <-> In x nodes /\ s x = Some true)
  /\ Filter s result = Some result
  /\ (forall more rest, Filter s more = Some rest ->
      Filter s (nodes ++ more) = Some (result ++ rest)).
Proof.
  intros H. split; [now apply Filter_In|]. split; [now apply Filter_idempotent with nodes|].
  intros more rest Hm. rewrite Filter_app, H, Hm. reflexivity.
Qed.

(** ** Combinators *)

Lemma ancestorsFrom_ancestor p c : forall t,
  In p (ancestorsFrom t c) <-> ancestor p (mkNode t c).
Proof.
  induction c as [|l ty d a up IH r]; intros t; cbn [ancestorsFrom].
  - split; [intros [] | ]. intros H. inversion H as [? P | ? ? P _]; discriminate P.
  - split.
    + intros [<- | H].
      * now apply ancestor_parent.
      * apply ancestor_above with (mkNode (mkTree ty d a (rev l ++ t :: r)) up);
          [reflexivity | now apply IH].
    + intros H. inversion H as [? P | ? q P A]; subst.
      * left. unfold Parent in P. simpl in P. now injection P.
      * unfold Parent in P. simpl in P. injection P as <-. right. now apply IH.
Qed.

Lemma ancestors_ancestor p n : In p (ancestors n) <-> ancestor p n.
Proof. destruct n as [t c]. apply ancestorsFrom_ancestor. Qed.

Lemma anyMatch_true a cs :
  (forall c, In c cs -> a c <> None) ->
  (anyMatch a cs = Some true <-> exists c, In c cs /\ a c = Some true).
Proof.
  induction cs as [|x cs IH]; intros T; cbn [anyMatch].
  - split; [discriminate | intros (c & [] & _)].
  - assert (Tx := T x (or_introl eq_refl)).
    specialize (IH (fun c H => T c (or_intror H))).
    destruct (a x) as [[|]|] eqn:A; cbn [orElse]; [| | congruence].
    + split; [|reflexivity]. intros _. exists x. split; [now left | exact A].
    + rewrite IH. split.
      * intros (c & Hin & Hc). exists c. split; [now right | exact Hc].
      * intros (c & [<- | Hin] & Hc); [congruence | now exists c].
Qed.

(** X8. When the left matcher panics on no ancestor of [n],
    [descendantMatch] holds exactly when [n] matches the right matcher and
    some ancestor of [n] (its parent, the parent of its parent, ...)
    matches the left one. *)
Theorem descendantMatch_correct (a d : Matcher) (n : Node) :
  (forall p, ancestor p n -> a p <> None) ->
  (descendantMatch a d n = Some true <->
   d n = Some true /\ exists p, ancestor p n /\ a p = Some true).
Proof.
  intros T. unfold descendantMatch. rewrite andAlso_true.
  rewrite anyMatch_true by (intros c H; apply T; now apply ancestors_ancestor).
  split; intros (D & p & H & A); (split; [exact D|]); exists p;
    (split; [now apply ancestors_ancestor | exact A]).
Qed.

(** X9. A node that matches the child combinator [first > second]
    matches the descendant combinator [first second]. *)
Theorem child_refines_descendant (E : Ext) (first second : option Sel) (n : Node) :
  Match E (combinedSelector first ">" second) n = Some true ->
  Match E (combinedSelector first " " second) n = Some true.
Proof.
  cbn [Match]. destruct first as [f|]; [|discriminate].
  cbn [isByte Ascii.eqb Bool.eqb andb zero]. unfold childMatch, descendantMatch.
  rewrite !andAlso_true. intros (D & P). split; [exact D|].
  rewrite ancestors_step. destruct (Parent n) as [p|]; [|discriminate].
  cbn [anyMatch]. now rewrite P.
Qed.

(** X10. When the left matcher panics on no elder sibling of [n]: the
    general sibling combinator holds exactly when [n] matches the right
    matcher and some elder sibling, of whatever kind, matches the left one;
    and a node that matches the adjacent combinator matches the general
    one. *)
Theorem general_sibling_correct (s1 s2 : Matcher) (n : Node) :
  (forall c, In c (prevSiblings n) -> s1 c <> None) ->
  (siblingMatch s1 s2 false n = Some true <->
   s2 n = Some true /\ exists c, In c (prevSiblings n) /\ s1 c = Some true)
  /\ (siblingMatch s1 s2 true n = Some true -> siblingMatch s1 s2 false n = Some true).
Proof.
  intros T. unfold siblingMatch. rewrite !andAlso_true.
  rewrite (anyMatch_true _ _ T). split; [reflexivity|].
  intros (D & A). split; [exact D|]. clear T.
  induction (prevSiblings n) as [|c cs IH]; cbn [adjacentLoop] in A; [discriminate|].
  destruct (NodeType_eqb (Type_ c) TextNode || NodeType_eqb (Type_ c) CommentNode).
  - destruct (IH A) as (x & Hin & Hx). exists x. split; [now right | exact Hx].
  - exists c. split; [now left | exact A].
Qed.

(** ** Pseudo-classes *)

Lemma onlyChildLoop_count ofType n cs : forall count,
  0 <= count ->
  onlyChildLoop ofType n cs count = (count + countKept ofType n cs =? 1).
Proof.
  induction cs as [|c cs IH]; intros count H.
  - cbn [onlyChildLoop]. unfold countKept. simpl. f_equal; lia.
  - cbn [onlyChildLoop]. rewrite countKept_cons.
    pose proof (countKept_nonneg ofType n cs).
    destruct (passedOver ofType n c).
    + rewrite IH by exact H. f_equal; lia.
    + destruct (count + 1 >? 1) eqn:G.
      * symmetry. apply Z.eqb_neq. lia.
      * rewrite IH by lia. f_equal; lia.
Qed.

Lemma countKept_app ofType n a b :
  countKept ofType n (a ++ b) = countKept ofType n a + countKept ofType n b.
Proof. unfold countKept. rewrite filter_app, length_app. lia. Qed.

(** X11. [:only-child] is [:first-child:last-child] (and [:only-of-type]
    is [:first-of-type:last-of-type]): the matcher of the one is the
    conjunction of the simplified nth matchers of position 1 from the
    front and from the back. *)
Theorem only_child_is_first_and_last (E : Ext) (ofType : bool) (n : Node) :
  onlyChildMatch ofType n
  = simpleNthChildMatch 1 ofType n && simpleNthLastChildMatch 1 ofType n
  /\ Match E (onlyChildSelector ofType) n
     = Match E (compoundSelector [Some (simpleNthChildSelector 1 ofType);
                                  Some (simpleNthLastChildSelector 1 ofType)] "") n.
Proof.
  assert (K : onlyChildMatch ofType n
              = simpleNthChildMatch 1 ofType n && simpleNthLastChildMatch 1 ofType n).
  { unfold onlyChildMatch, simpleNthChildMatch, simpleNthLastChildMatch.
    destruct (isElement n) eqn:El; [|reflexivity]. cbn [negb].
    destruct (Parent n) as [p|] eqn:P; [|reflexivity].
    destruct (NodeType_eqb (Type_ p) DocumentNode); [reflexivity|].
    rewrite (childNodes_Parent _ _ P).
    rewrite onlyChildLoop_count by lia.
    rewrite simpleLoop_found
      by (try exact El; intros c Hc; apply prevSiblings_other; now apply in_rev).
    rewrite rev_app_distr. cbn [rev]. rewrite rev_involutive, <- app_assoc. cbn [app].
    rewrite simpleLoop_found
      by (try exact El; intros c Hc; apply nextSiblings_other; now apply in_rev).
    rewrite countKept_app, !countKept_rev, countKept_cons, (passedOver_self _ _ El).
    pose proof (countKept_nonneg ofType n (prevSiblings n)).
    pose proof (countKept_nonneg ofType n (nextSiblings n)).
    apply eq_iff_eq_true. rewrite andb_true_iff, !Z.eqb_eq. lia. }
  split; [exact K|].
  unfold onlyChildSelector, simpleNthChildSelector, simpleNthLastChildSelector.
  cbn [Match Z.eqb andAlso]. rewrite K.
  destruct (simpleNthChildMatch 1 ofType n); [|reflexivity].
  now destruct (simpleNthLastChildMatch 1 ofType n).
Qed.

(** X12. A node that matches [:root] matches no nth pseudo-class
    (whatever a, b and the variant) and neither [:only-child] nor
    [:only-of-type]: these return false under the document node. *)
Theorem root_is_never_positional (E : Ext) (n : Node) (a b : Z) (last ofType : bool) :
  Match E rootPseudoClassSelector n = Some true ->
  Match E (nthPseudoClassSelector a b last ofType) n = Some false
  /\ Match E (onlyChildPseudoClassSelector ofType) n = Some false.
Proof.
  cbn [Match]. unfold nthChildMatch, simpleNthChildMatch, simpleNthLastChildMatch,
    onlyChildMatch.
  destruct (isElement n); cbn [negb]; [|discriminate].
  destruct (Parent n) as [p|]; [|discriminate]. intros [= ->].
  split; [|reflexivity]. destruct (a =? 0); [|reflexivity]. now destruct last.
Qed.

Lemma orElse_assoc x y z : (x ||| y) ||| z = x ||| (y ||| z).
Proof. now destruct x as [[|]|]. Qed.

Lemma orElse_false x : x ||| Some false = x.
Proof. now destruct x as [[|]|]. Qed.

Lemma anyMatch_app a u v : anyMatch a (u ++ v) = anyMatch a u ||| anyMatch a v.
Proof.
  induction u as [|c u IH]; cbn [app anyMatch]; [reflexivity|].
  now rewrite IH, orElse_assoc.
Qed.

Lemma subtree_head t cx : subtree t cx = mkNode t cx :: tl (subtree t cx).
Proof. now destruct t. Qed.

Lemma childNodes_nil ty d a ch cx :
  childNodes (mkNode (mkTree ty d a ch) cx) = [] -> ch = [].
Proof. unfold childNodes. simpl. now destruct ch. Qed.


Lemma hasDescendantTree_anyMatch a t : forall cx,
  Forall leafy (tl (subtree t cx)) ->
  hasDescendantTree a t cx = anyMatch a (tl (subtree t cx)).
Proof.
  induction t as [ty d at_ ch IH] using tree_induction. intros cx.
  cbn [hasDescendantTree subtree tl].
  generalize (@nil tree) as l.
  induction ch as [|x r IHr]; intros l L; [reflexivity|].
  inversion IH as [|? ? Px Pr]; subst.
  rewrite subtree_head in L. cbn [app] in L.
  inversion L as [|? ? Lc Lrest]; subst.
  apply Forall_app in Lrest. destruct Lrest as (Lx & Lr).
  rewrite subtree_head. cbn [app anyMatch]. rewrite anyMatch_app.
  rewrite (IHr Pr _ Lr). rewrite orElse_assoc. f_equal. f_equal.
  destruct (isElement (mkNode x (Below l ty d at_ cx r))) eqn:El.
  - now apply Px.
  - destruct x as [ty' d' a' ch']. apply Lc in El. apply childNodes_nil in El.
    subst ch'. reflexivity.
Qed.

(** X13. In a tree where only elements have children,
    [hasDescendantMatch] tests the nodes below [n] in document order and
    stops at the first that matches: it is the loop [anyMatch] over them. *)
Theorem hasDescendantMatch_document_order (n : Node) (a : Matcher) :
  Forall leafy (properDescendants n) ->
  hasDescendantMatch n a = anyMatch a (properDescendants n).
Proof. apply hasDescendantTree_anyMatch. Qed.

Lemma childNodes_here n : map here (childNodes n) = tree_children (here n).
Proof.
  destruct n as [[ty d a ch] cx]. unfold childNodes. simpl.
  generalize (@nil tree) as l. induction ch as [|x r IH]; intros l; [reflexivity|].
  simpl. now rewrite IH.
Qed.

Lemma forallb_childNodes n :
  forallb (fun c => negb (isElement c || NodeType_eqb (Type_ c) TextNode)) (childNodes n)
  = forallb inert (tree_children (here n)).
Proof.
  rewrite <- childNodes_here. induction (childNodes n) as [|c cs IH]; [reflexivity|].
  simpl. now rewrite IH.
Qed.

Lemma inert_treeText t : inert t = true -> treeText t = "".
Proof.
  destruct t as [ty d a ch]. unfold inert. simpl. now destruct ty.
Qed.

(** X14. An element that matches [:empty] contains no text, neither
    directly nor below, and has no child element: [nodeText] and
    [nodeOwnText] are empty and [:haschild( * )] does not match it. *)
Theorem empty_element_has_no_text (E : Ext) (n : Node) :
  Match E emptyElementPseudoClassSelector n = Some true ->
  nodeText n = "" /\ nodeOwnText n = ""
  /\ Match E (hasChildSelector anyElement) n = Some false.
Proof.
  cbn [Match]. destruct (isElement n) eqn:El; cbn [negb]; [|discriminate].
  intros [= H]. split; [|split].
  - rewrite forallb_childNodes in H. unfold nodeText.
    unfold isElement, Type_ in El. destruct (here n) as [ty d a ch]. simpl in *.
    apply NodeType_eqb_eq in El. subst ty. cbn [treeText].
    induction ch as [|x ch IH]; [reflexivity|]. cbn [forallb] in H.
    apply andb_true_iff in H. destruct H as (Hx & Hc).
    rewrite (inert_treeText _ Hx). now apply IH.
  - unfold nodeOwnText. induction (childNodes n) as [|c cs IH]; [reflexivity|].
    cbn [forallb] in H. apply andb_true_iff in H. destruct H as (Hc & Hcs).
    cbn [fold_right]. destruct (NodeType_eqb (Type_ c) TextNode).
    + rewrite orb_true_r in Hc. discriminate.
    + now apply IH.
  - unfold hasChildSelector, anyElement. cbn [Match String.eqb Ascii.eqb Bool.eqb].
    rewrite El. cbn [negb]. unfold hasChildMatch.
    induction (childNodes n) as [|c cs IH]; [reflexivity|].
    cbn [forallb] in H. apply andb_true_iff in H. destruct H as (Hc & Hcs).
    cbn [anyMatch]. destruct (isElement c); [discriminate|]. cbn [orElse].
    now apply IH.
Qed.

(** ** Attribute values *)

Lemma pieces_cons s : exists piece rest, pieces s = piece :: rest.
Proof.
  induction s as [|c s IH]; simpl; [now eexists; eexists|].
  destruct (isSpace c); [now eexists; eexists|].
  destruct IH as (piece & rest & ->). now eexists; eexists.
Qed.

Lemma string_app_nil_r (s : string) : s +++ "" = s.
Proof. induction s as [|c s IH]; simpl; [reflexivity | now rewrite IH]. Qed.

Lemma string_app_assoc (a b c : string) : (a +++ b) +++ c = a +++ b +++ c.
Proof. induction a as [|x a IH]; simpl; [reflexivity | now rewrite IH]. Qed.

Lemma matchIncludeScan_pieces val s : forall tok,
  val <> "" ->
  (matchIncludeScan val tok s = true <-> In val (prepend tok (pieces s))).
Proof.
  induction s as [|c s IH]; intros tok V; cbn [matchIncludeScan pieces].
  - cbn [prepend]. rewrite string_app_nil_r. simpl.
    destruct (String.eqb tok "") eqn:T.
    + apply String.eqb_eq in T. subst tok. split; [discriminate|].
      intros [H | []]. congruence.
    + rewrite String.eqb_eq. split; [now left | now intros [H | []]].
  - destruct (isSpace c).
    + cbn [prepend]. rewrite string_app_nil_r. simpl.
      destruct (String.eqb tok val) eqn:T.
      * apply String.eqb_eq in T. split; [now left | reflexivity].
      * apply String.eqb_neq in T. rewrite (IH "" V).
        destruct (pieces_cons s) as (piece & rest & ->). simpl.
        split; [now right | now intros [H | H]].
    + rewrite (IH _ V). destruct (pieces_cons s) as (piece & rest & ->).
      cbn [prepend]. rewrite string_app_assoc. reflexivity.
Qed.

(** X15. For a value that is not empty, [matchInclude] holds exactly
    when the value is one of the pieces of the text between its
    white-space bytes. *)
Theorem matchInclude_pieces (val s : string) :
  val <> "" -> (matchInclude val s = true <-> In val (pieces s)).
Proof.
  intros V. unfold matchInclude. rewrite (matchIncludeScan_pieces _ _ _ V).
  destruct (pieces_cons s) as (piece & rest & ->). reflexivity.
Qed.

Lemma matchAttribute_spec n key f :
  matchAttribute n key f = true <->
  isElement n = true /\ exists a, In a (Attr n) /\ Key a = key /\ f (Val a) = true.
Proof.
  unfold matchAttribute. destruct (isElement n); cbn [negb].
  - rewrite existsb_exists. split.
    + intros (a & Hin & H). apply andb_true_iff in H. destruct H as (K & F).
      apply String.eqb_eq in K. split; [reflexivity|]. now exists a.
    + intros (_ & a & Hin & K & F). exists a. split; [exact Hin|].
      apply andb_true_iff. split; [now apply String.eqb_eq | exact F].
  - split; [discriminate | now intros (H & _)].
Qed.

Lemma substring_drop_all k : forall s,
  (k <= len s)%nat -> s = substring 0 k s +++ drop k s.
Proof.
  induction k as [|k IH]; intros s H.
  - now destruct s.
  - destruct s as [|c s]; [unfold len in H; simpl in H; lia|]. simpl. f_equal.
    apply IH. unfold len in *. simpl in H. lia.
Qed.

(** X16. [attributeDashMatch] holds exactly on the elements with an
    attribute named [key] whose value is [val] or starts with [val]
    followed by a hyphen. *)
Theorem attributeDashMatch_correct (key val : string) (n : Node) :
  attributeDashMatch key val n = true <->
  isElement n = true
  /\ exists a, In a (Attr n) /\ Key a = key
               /\ (Val a = val \/ exists rest, Val a = val +++ "-" +++ rest).
Proof.
  unfold attributeDashMatch. rewrite matchAttribute_spec.
  split; intros (El & a & Hin & K & H); (split; [exact El|]); exists a;
    (split; [exact Hin|]); (split; [exact K|]).
  - destruct (String.eqb (Val a) val) eqn:V; [left; now apply String.eqb_eq|].
    right. destruct (len (Val a) <=? len val)%nat eqn:L; [discriminate|].
    apply Nat.leb_gt in L. apply andb_true_iff in H. destruct H as (P & D).
    apply String.eqb_eq in P. unfold slice in P. rewrite Nat.sub_0_r in P.
    destruct (String.get (len val) (Val a)) as [c|] eqn:G; [|discriminate].
    apply Ascii.eqb_eq in D. subst c.
    destruct (get_Some_drop _ _ _ G) as (r & R). exists r.
    rewrite (substring_drop_all (len val) (Val a)) at 1 by lia.
    now rewrite P, R.
  - destruct H as [-> | (rest & ->)]; [now rewrite String.eqb_refl|].
    destruct (String.eqb (val +++ "-" +++ rest) val) eqn:V; [reflexivity|].
    rewrite len_app. simpl.
    replace (len val + S (len rest) <=? len val)%nat with false
      by (symmetry; apply Nat.leb_gt; lia).
    unfold slice. rewrite Nat.sub_0_r, substring_app, String.eqb_refl, get_app_len.
    reflexivity.
Qed.

(** ** The lexer *)

Lemma len_remaining p : len (remaining p) = (len (p_s p) - p_i p)%nat.
Proof. apply len_drop. Qed.


Lemma plainByte_inv quote c :
  plainByte quote c = true ->
  isByte c "\" = false /\ isByte c quote = false
  /\ (isByte c CR || isByte c LF || isByte c FF) = false.
Proof.
  unfold plainByte. intros H. apply negb_true_iff in H.
  repeat (apply orb_false_iff in H; destruct H as (H & ?)).
  repeat split; [assumption | assumption |].
  now rewrite H1, H2, H0.
Qed.

(** X17. [parseString] returns the text between the quotes when this
    text holds no quote, no backslash and no line ending, and leaves the
    parser after the closing quote. *)
Theorem parseString_plain (p : parser) (quote : byte) (w rest : string) :
  isByte quote "\" = false ->
  allBytes (plainByte quote) w = true ->
  remaining p = String quote (w +++ String quote rest) ->
  parseString p = Ok (w, setPos p (p_i p + len w + 2)).
Proof.
  intros Q A R. unfold parseString.
  assert (F : (len (p_s p) - p_i p = S (len w + S (len rest)))%nat).
  { rewrite <- len_remaining, R. unfold len. simpl. f_equal. apply len_app. }
  destruct (Nat.ltb_spec (len (p_s p)) (p_i p + 2)) as [L|_]; [lia|].
  unfold at_. rewrite get_here, R. cbn [String.get bind].
  rewrite F.
  assert (R1 : remaining (setPos p (p_i p + 1)) = w +++ String quote rest).
  { rewrite remaining_setPos, R. reflexivity. }
  assert (G : String.get (p_i p + 1 + len w) (p_s p) = Some quote).
  { change (p_i p + 1)%nat with (p_i (setPos p (p_i p + 1))).
    change (p_s p) with (p_s (setPos p (p_i p + 1))).
    rewrite (get_after _ _ _ R1). reflexivity. }
  assert (E : isByte quote quote = true) by apply Ascii.eqb_refl.
  destruct w as [|c w].
  - cbn [parseStringLoop]. simpl in G. rewrite Nat.add_0_r in G. rewrite G, Q, E.
    cbn [bind]. destruct (Nat.leb_spec (len (p_s p)) (p_i p + 1)) as [L|_]; [lia|].
    simpl. do 2 f_equal. f_equal. lia.
  - change (len (String c w) + S (len rest))%nat with (S (len w + S (len rest))).
    cbn [parseStringLoop].
    assert (G0 : String.get (p_i p + 1) (p_s p) = Some c).
    { change (p_i p + 1)%nat with (p_i (setPos p (p_i p + 1))).
      change (p_s p) with (p_s (setPos p (p_i p + 1))).
      rewrite get_here, R1. reflexivity. }
    rewrite G0. pose proof A as A'. cbn [allBytes] in A'. apply andb_true_iff in A'.
    destruct A' as (Pc & _). destruct (plainByte_inv _ _ Pc) as (-> & -> & ->).
    change (drop (p_i p + 1) (p_s p)) with (remaining (setPos p (p_i p + 1))).
    rewrite R1.
    assert (St : stops (fun d => negb (isByte d quote || isByte d "\" || isByte d CR
                                       || isByte d LF || isByte d FF))
                   (String quote rest) = true).
    { simpl. now rewrite E. }
    assert (A2 : allBytes (fun d => negb (isByte d quote || isByte d "\" || isByte d CR
                                          || isByte d LF || isByte d FF))
                   (String c w) = true) by exact A.
    cbv zeta. rewrite (run_app _ _ _ A2 St). rewrite G, Q, E.
    change (slice (p_s p) (p_i p + 1) (p_i p + 1 + len (String c w)))
      with (slice (p_s (setPos p (p_i p + 1))) (p_i (setPos p (p_i p + 1)))
              (p_i (setPos p (p_i p + 1)) + len (String c w))).
    rewrite (slice_remaining _ _ _ _ R1 eq_refl). cbn [bind String.append].
    destruct (Nat.leb_spec (len (p_s p)) (p_i p + 1 + len (String c w))) as [L|_].
    + unfold len in *. simpl in *. lia.
    + do 2 f_equal. f_equal. lia.
Qed.

Lemma parseStringLoop_quote fuel p quote : forall i res res' j,
  parseStringLoop fuel p quote i res = Ok (res', j) ->
  (j < len (p_s p))%nat -> String.get j (p_s p) = Some quote.
Proof.
  induction fuel as [|fuel IH]; intros i res res' j; cbn [parseStringLoop];
    [discriminate|].
  destruct (String.get i (p_s p)) as [c|] eqn:G.
  2:{ intros [= <- <-] L. exfalso.
      assert (N : forall k s, String.get k s = None -> (len s <= k)%nat).
      { clear. unfold len. induction k as [|k IHk]; intros [|c s]; simpl;
          try discriminate; try lia. intros H. apply IHk in H. lia. }
      apply N in G. lia. }
  destruct (isByte c "\").
  - assert (Esc : forall r,
      (let '(val, p') := r in parseStringLoop fuel p quote (p_i p') (res +++ val))
      = Ok (res', j) -> (j < len (p_s p))%nat -> String.get j (p_s p) = Some quote).
    { intros [val p']. apply IH. }
    assert (Bind : ('(val, p') <- parseEscape (setPos p i) ;;
                    parseStringLoop fuel p quote (p_i p') (res +++ val)) = Ok (res', j) ->
                   (j < len (p_s p))%nat -> String.get j (p_s p) = Some quote).
    { destruct (parseEscape (setPos p i)) as [r| | |]; cbn [bind]; try discriminate.
      apply Esc. }
    destruct (String.get (i + 1) (p_s p)) as [c1|]; [|exact Bind].
    destruct (isByte c1 CR).
    + destruct (String.get (i + 2) (p_s p)) as [c2|]; [|apply IH].
      destruct (isByte c2 LF); apply IH.
    + destruct (isByte c1 LF || isByte c1 FF); [apply IH | exact Bind].
  - destruct (isByte c quote) eqn:Q.
    + intros [= <- <-] _. apply Ascii.eqb_eq in Q. now subst c.
    + destruct (isByte c CR || isByte c LF || isByte c FF); [discriminate | apply IH].
Qed.

(** X18. When [parseString] succeeds, it has read at least two bytes
    within the text, and the last byte it read is the byte it started
    on: a string is closed by the quote that opened it. *)
Theorem parseString_closed_by_its_quote (p : parser) (res : string) (p' : parser) :
  parseString p = Ok (res, p') ->
  p_s p' = p_s p
  /\ (p_i p + 2 <= p_i p' <= len (p_s p))%nat
  /\ String.get (p_i p' - 1) (p_s p) = String.get (p_i p) (p_s p).
Proof.
  unfold parseString.
  destruct (Nat.ltb_spec (len (p_s p)) (p_i p + 2)) as [|L]; [discriminate|].
  unfold at_. destruct (String.get (p_i p) (p_s p)) as [quote|] eqn:G; [|discriminate].
  cbn [bind].
  pose proof (parseStringLoop_well (S (len (p_s p) - p_i p)) p quote (p_i p + 1) "") as W.
  destruct (parseStringLoop (S (len (p_s p) - p_i p)) p quote (p_i p + 1) "")
    as [[r j]| | |] eqn:Lp; cbn [bind]; try discriminate.
  destruct (Nat.leb_spec (len (p_s p)) j) as [|Lj]; [discriminate|].
  intros [= <- <-]. cbn [setPos p_s p_i]. split; [reflexivity|].
  specialize (W ltac:(lia) ltac:(lia)). split; [lia|].
  replace (j + 1 - 1)%nat with j by lia.
  now apply (parseStringLoop_quote _ _ _ _ _ _ _ Lp).
Qed.

Lemma runUpTo_app f k w rest :
  allBytes f w = true -> (len w <= k)%nat ->
  (len w = k \/ stops f rest = true) ->
  runUpTo f k (w +++ rest) = len w.
Proof.
  unfold len. revert k. induction w as [|c w IH]; intros k A L St.
  - simpl. destruct k as [|k]; [reflexivity|].
    destruct St as [St | St]; [discriminate|].
    destruct rest as [|c rest]; [reflexivity|]. simpl in *.
    destruct (f c); [discriminate St | reflexivity].
  - simpl in *. apply andb_true_iff in A. destruct A as (Fc & A).
    destruct k as [|k]; [lia|]. cbn [runUpTo]. rewrite Fc. f_equal.
    apply IH; [exact A | lia |]. destruct St as [St | St]; [left; lia | now right].
Qed.

(** X19. A backslash followed by one to five hexadecimal digits, and by
    no white space, is the code point the digits denote, UTF-8 encoded.
    At most five digits are read: a sixth hexadecimal digit is left in
    the text. *)
Theorem parseEscape_reads_five_hex_digits (p : parser) (h rest : string) :
  remaining p = "\" +++ h +++ rest ->
  h <> "" -> allBytes hexDigit h = true -> (len h <= 5)%nat ->
  (len h = 5%nat \/ stops hexDigit rest = true) ->
  stops isSpace rest = true ->
  parseEscape p = Ok (utf8 (parseHex 0 h), setPos p (p_i p + 1 + len h)).
Proof.
  intros R NE A L St Sp. unfold parseEscape.
  assert (F : (len (p_s p) - p_i p = S (len h + len rest))%nat).
  { rewrite <- len_remaining, R. unfold len. simpl. f_equal. apply len_app. }
  destruct (Nat.ltb_spec (len (p_s p)) (p_i p + 2)) as [L2|_].
  { destruct h; [contradiction|]. unfold len in *. simpl in *. lia. }
  unfold at_. rewrite get_here, R. cbn [String.append String.get bind isByte Ascii.eqb
                                         Bool.eqb negb].
  assert (R1 : remaining (setPos p (p_i p + 1)) = h +++ rest).
  { rewrite remaining_setPos, R. reflexivity. }
  destruct h as [|c h]; [contradiction|].
  assert (G0 : String.get (p_i p + 1) (p_s p) = Some c).
  { change (p_i p + 1)%nat with (p_i (setPos p (p_i p + 1))).
    change (p_s p) with (p_s (setPos p (p_i p + 1))).
    rewrite get_here, R1. reflexivity. }
  rewrite G0. cbn [bind]. pose proof A as A'. cbn [allBytes] in A'.
  apply andb_true_iff in A'. destruct A' as (Hc & _).
  assert (NL : isByte c CR || isByte c LF || isByte c FF = false).
  { revert Hc. clear. destruct c as [[] [] [] [] [] [] [] []]; 
      vm_compute; congruence. }
  rewrite NL, Hc.
  change (drop (p_i p + 1) (p_s p)) with (remaining (setPos p (p_i p + 1))).
  rewrite R1, (runUpTo_app _ _ _ _ A L St).
  change (slice (p_s p) (p_i p + 1) (p_i p + 1 + len (String c h)))
    with (slice (p_s (setPos p (p_i p + 1))) (p_i (setPos p (p_i p + 1)))
            (p_i (setPos p (p_i p + 1)) + len (String c h))).
  rewrite (slice_remaining _ _ _ _ R1 eq_refl).
  assert (G : String.get (p_i p + 1 + len (String c h)) (p_s p) = String.get 0 rest).
  { change (p_i p + 1)%nat with (p_i (setPos p (p_i p + 1))).
    change (p_s p) with (p_s (setPos p (p_i p + 1))).
    apply (get_after _ _ _ R1). }
  rewrite G. destruct rest as [|d rest]; [reflexivity|]. cbn [String.get].
  simpl in Sp. unfold isSpace in Sp. apply negb_true_iff in Sp.
  repeat (apply orb_false_iff in Sp; destruct Sp as (Sp & ?)).
  now rewrite H1, Sp, H2, H0, H.
Qed.

Lemma skipWhitespaceLoop_fixpoint fuel s : forall i j,
  skipWhitespaceLoop fuel s i = Ok j ->
  forall fuel', skipWhitespaceLoop (S fuel') s j = Ok j.
Proof.
  induction fuel as [|fuel IH]; intros i j; cbn [skipWhitespaceLoop]; [discriminate|].
  destruct (String.get i s) as [c|] eqn:G.
  2:{ intros [= <-] fuel'. cbn [skipWhitespaceLoop]. now rewrite G. }
  destruct (isByte c SP || isByte c TAB || isByte c CR || isByte c LF || isByte c FF)
    eqn:W; [apply IH|].
  destruct (isByte c "/" && strings_HasPrefix (drop i s) "/*") eqn:C.
  - destruct (strings_Index (drop (i + 2) s) "*/") eqn:X; [apply IH|].
    intros [= <-] fuel'. cbn [skipWhitespaceLoop]. now rewrite G, W, C, X.
  - intros [= <-] fuel'. cbn [skipWhitespaceLoop]. now rewrite G, W, C.
Qed.

(** X20. After [skipWhitespace], a second call skips nothing and leaves
    the parser where it is; the first call returns true exactly when it
    moved the position. *)
Theorem skipWhitespace_idempotent (p : parser) (skipped : bool) (p' : parser) :
  skipWhitespace p = Ok (skipped, p') ->
  skipWhitespace p' = Ok (false, p')
  /\ p_s p' = p_s p
  /\ (skipped = true <-> (p_i p < p_i p')%nat).
Proof.
  unfold skipWhitespace.
  destruct (skipWhitespaceLoop (S (len (p_s p) - p_i p)) (p_s p) (p_i p)) as [j| | |] eqn:L;
    cbn [bind]; try discriminate.
  pose proof (skipWhitespaceLoop_fixpoint _ _ _ _ L) as Fx.
  destruct (Nat.ltb_spec (p_i p) j) as [Lt|Ge]; intros [= <- <-].
  - cbn [setPos p_s p_i]. rewrite Fx. cbn [bind]. rewrite Nat.ltb_irrefl.
    repeat split; auto.
  - assert (J : j = p_i p).
    { pose proof L as L'. cbn [skipWhitespaceLoop] in L'. revert L'.
      destruct (String.get (p_i p) (p_s p)) as [c|] eqn:G; [intros _ | now intros [= ->]].
      pose proof (get_Some_lt _ _ _ G) as Lt.
      pose proof (skipWhitespaceLoop_well (S (len (p_s p) - p_i p)) (p_s p) (p_i p)
                    ltac:(lia) ltac:(lia)) as W.
      rewrite L in W. lia. }
    subst j. rewrite Fx. cbn [bind]. rewrite Nat.ltb_irrefl.
    repeat split; auto; try discriminate. intros H. lia.
Qed.

Lemma regexEnd_closing rest : forall i open,
  (regexEnd rest i open < i + len rest)%nat ->
  exists c, String.get (regexEnd rest i open - i) rest = Some c
            /\ (isByte c ")" || isByte c "]") = true.
Proof.
  unfold len. induction rest as [|c rest IH]; intros i open; cbn [regexEnd].
  - simpl. lia.
  - assert (Next : forall o, (regexEnd rest (S i) o < i + String.length (String c rest))%nat ->
        exists c0, String.get (regexEnd rest (S i) o - i) (String c rest) = Some c0
                   /\ (isByte c0 ")" || isByte c0 "]") = true).
    { intros o H. pose proof (regexEnd_bounds rest (S i) o) as B.
      destruct (IH (S i) o) as (c0 & G & K); [simpl in H; lia|].
      exists c0. split; [|exact K].
      replace (regexEnd rest (S i) o - i)%nat with (S (regexEnd rest (S i) o - S i)) by lia.
      exact G. }
    destruct (isByte c "(" || isByte c "["); [apply Next|].
    destruct (isByte c ")" || isByte c "]") eqn:K; [|apply Next].
    destruct (open - 1 <? 0); [|apply Next].
    intros _. exists c. rewrite Nat.sub_diag. now split.
Qed.

(** X21. When [parseRegex] succeeds, the pattern is the text from the
    old position to the new one, it compiles, and the parser is left,
    within the text, on a closing parenthesis or bracket, which is not
    consumed. *)
Theorem parseRegex_stops_at_closing (E : Ext) (p : parser) (rx : Regexp) (p' : parser) :
  parseRegex E p = Ok (rx, p') ->
  p_s p' = p_s p
  /\ (p_i p <= p_i p' < len (p_s p))%nat
  /\ rx = slice (p_s p) (p_i p) (p_i p')
  /\ regexp_valid E rx = true
  /\ exists c, String.get (p_i p') (p_s p) = Some c
               /\ (isByte c ")" || isByte c "]") = true.
Proof.
  unfold parseRegex.
  destruct (Nat.ltb_spec (len (p_s p)) (p_i p + 2)) as [|L]; [discriminate|].
  pose proof (regexEnd_bounds (drop (p_i p) (p_s p)) (p_i p) 0) as B.
  rewrite len_drop in B.
  destruct (Nat.leb_spec (len (p_s p)) (regexEnd (drop (p_i p) (p_s p)) (p_i p) 0))
    as [|Lt]; [discriminate|].
  destruct (regexp_valid E _) eqn:V; [|discriminate].
  intros [= <- <-]. cbn [setPos p_s p_i]. split; [reflexivity|]. split; [lia|].
  split; [reflexivity|]. split; [exact V|].
  destruct (regexEnd_closing (drop (p_i p) (p_s p)) (p_i p) 0) as (c & G & K).
  { rewrite len_drop. lia. }
  exists c. split; [|exact K]. rewrite <- G, <- get_drop. f_equal. lia.
Qed.

(** [parseIdentifier] on an identifier written without escapes, after a
    hyphen or not. *)
Lemma nameStart_nameChar c : nameStart c = true -> nameChar c = true.
Proof. unfold nameStart, nameChar. intros ->. reflexivity. Qed.

Lemma nameStart_no_dash c : nameStart c = true -> isByte c "-" = false.
Proof.
  destruct c as [[] [] [] [] [] [] [] []]; vm_compute; congruence.
Qed.

Lemma parseIdentifier_word p (dash : bool) w rest :
  remaining p = (if dash then "-" else "") +++ w +++ rest ->
  plainIdentifier w = true -> stops nameOrEscape rest = true ->
  parseIdentifier p
  = Ok ((if dash then "-" else "") +++ w,
        setPos p (p_i p + len ((if dash then "-" else "") +++ w))).
Proof.
  intros R Pl St. destruct w as [|c w]; [discriminate|].
  cbn [plainIdentifier] in Pl. apply andb_true_iff in Pl. destruct Pl as (Ns & A).
  assert (A' : allBytes nameChar (String c w) = true).
  { cbn [allBytes]. now rewrite (nameStart_nameChar _ Ns), A. }
  assert (NE : String c w <> "") by discriminate.
  unfold parseIdentifier. rewrite peek_remaining, R. destruct dash.
  - cbn [String.append String.get isByte Ascii.eqb Bool.eqb].
    assert (R1 : remaining (setPos p (p_i p + 1)) = String c w +++ rest).
    { rewrite remaining_setPos, R. reflexivity. }
    rewrite peek_remaining, R1. cbn [String.append String.get]. rewrite Ns.
    cbn [orb negb].
    rewrite (parseName_plain _ (String c w) rest R1 NE A' St). cbn [bind].
    cbn [setPos p_s p_i]. do 2 f_equal. unfold setPos. f_equal.
    unfold len. simpl. lia.
  - cbn [String.append String.get]. rewrite (nameStart_no_dash _ Ns).
    rewrite peek_remaining, R. cbn [String.append String.get]. rewrite Ns.
    cbn [orb negb].
    rewrite (parseName_plain p (String c w) rest R NE A' St). reflexivity.
Qed.

(** X22. [parseIdentifier] returns an identifier written without
    escapes as it stands, with its leading hyphen when it has one, and
    leaves the parser after it. *)
Theorem parseIdentifier_plain (p : parser) (dash : bool) (w rest : string) :
  remaining p = (if dash then "-" else "") +++ w +++ rest ->
  plainIdentifier w = true -> stops nameOrEscape rest = true ->
  parseIdentifier p
  = Ok ((if dash then "-" else "") +++ w,
        setPos p (p_i p + len ((if dash then "-" else "") +++ w))).
Proof. apply parseIdentifier_word. Qed.

(** ** Lower case *)

Lemma lowerByte_notUpper c : notUpper (lowerByte c) = true.
Proof. destruct c as [[] [] [] [] [] [] [] []]; vm_compute; reflexivity. Qed.

Lemma lowerByte_fixed c : lowerByte c = c <-> notUpper c = true.
Proof.
  destruct c as [[] [] [] [] [] [] [] []]; vm_compute; split; congruence.
Qed.

Lemma lowerByte_nameStart c : nameStart (lowerByte c) = nameStart c.
Proof. destruct c as [[] [] [] [] [] [] [] []]; vm_compute; reflexivity. Qed.

Lemma lowerByte_nameChar c : nameChar (lowerByte c) = nameChar c.
Proof. destruct c as [[] [] [] [] [] [] [] []]; vm_compute; reflexivity. Qed.

Lemma toLowerASCII_idempotent s : toLowerASCII (toLowerASCII s) = toLowerASCII s.
Proof.
  induction s as [|c s IH]; [reflexivity|]. cbn [toLowerASCII]. rewrite IH. f_equal.
  apply lowerByte_fixed, lowerByte_notUpper.
Qed.

(** X26. [toLowerASCII] keeps the length, yields a text without ASCII
    capital letters, is idempotent, and returns its argument unchanged
    exactly when the argument has no ASCII capital letter. *)
Theorem toLowerASCII_lowers (s : string) :
  len (toLowerASCII s) = len s
  /\ allBytes notUpper (toLowerASCII s) = true
  /\ toLowerASCII (toLowerASCII s) = toLowerASCII s
  /\ (toLowerASCII s = s <-> allBytes notUpper s = true).
Proof.
  split; [|split; [|split; [apply toLowerASCII_idempotent|]]].
  - unfold len. induction s as [|c s IH]; [reflexivity|]. simpl. now rewrite IH.
  - induction s as [|c s IH]; [reflexivity|]. cbn [toLowerASCII allBytes].
    now rewrite lowerByte_notUpper, IH.
  - induction s as [|c s IH]; [now split|]. cbn [toLowerASCII allBytes].
    rewrite andb_true_iff, <- IH, <- lowerByte_fixed. split.
    + intros [= H1 H2]. now split.
    + intros (-> & ->). reflexivity.
Qed.

Lemma allBytes_toLowerASCII s :
  allBytes nameChar (toLowerASCII s) = allBytes nameChar s.
Proof.
  induction s as [|c s IH]; [reflexivity|]. cbn [toLowerASCII allBytes].
  now rewrite lowerByte_nameChar, IH.
Qed.

Lemma plainIdentifier_toLowerASCII w :
  plainIdentifier (toLowerASCII w) = plainIdentifier w.
Proof.
  destruct w as [|c w]; [reflexivity|]. cbn [toLowerASCII plainIdentifier].
  now rewrite lowerByte_nameStart, allBytes_toLowerASCII.
Qed.

Lemma nameStart_first c :
  nameStart c = true ->
  isSpace c = false /\ isByte c "/" = false /\ isByte c "*" = false
  /\ (isByte c "#" || isByte c "." || isByte c "[" || isByte c ":") = false.
Proof.
  destruct c as [[] [] [] [] [] [] [] []]; vm_compute; intros H;
    repeat split; congruence.
Qed.

(** ** Whole selectors *)

Lemma skipWhitespace_stays p :
  match String.get 0 (remaining p) with
  | Some c => isSpace c = false /\ isByte c "/" = false
  | None => True
  end -> skipWhitespace p = Ok (false, p).
Proof.
  intros H. unfold skipWhitespace. cbn [skipWhitespaceLoop].
  rewrite get_here. destruct (String.get 0 (remaining p)) as [c|].
  - destruct H as (W & C). unfold isSpace in W. rewrite W, C.
    cbn [andb bind]. now rewrite Nat.ltb_irrefl.
  - cbn [bind]. now rewrite Nat.ltb_irrefl.
Qed.

Lemma peek_at_end p : remaining p = "" -> peek p = None.
Proof. intros R. now rewrite peek_remaining, R. Qed.

Lemma remaining_end p : remaining p = "" -> (len (p_s p) <= p_i p)%nat.
Proof.
  intros R. pose proof (len_drop (p_i p) (p_s p)) as L. fold (remaining p) in L.
  rewrite R in L. unfold len in *. simpl in L. lia.
Qed.

Section WholeSelectors.

Variable E : Ext.

(** What is left of a selector once its last compound is read: the loops
    of [parseSelector] and [parseSelectorGroup] end at the end of the
    text. *)
Lemma selectorLoop_at_end fuel g res p :
  remaining p = "" -> selectorLoop E (S fuel) g res p = Ok (res, p).
Proof.
  intros R. cbn [selectorLoop]. rewrite skipWhitespace_stays by now rewrite R.
  cbn [bind]. now rewrite (peek_at_end _ R).
Qed.

Lemma groupLoop_at_end fuel g res p :
  remaining p = "" -> groupLoop E (S fuel) g res p = Ok (res, p).
Proof. intros R. cbn [groupLoop]. now rewrite (peek_at_end _ R). Qed.

Lemma clauseLoop_at_end fuel g res p :
  remaining p = "" -> clauseLoop E (S fuel) g res p = Ok (res, p).
Proof.
  intros R. cbn [clauseLoop]. unfold parseClause. now rewrite (peek_at_end _ R).
Qed.

Lemma group_single s n :
  Match E (selectorGroup [Some s]) n = Match E s n ||| Some false.
Proof. reflexivity. Qed.


Lemma CompileGroup_id w :
  w <> "" -> allBytes nameChar w = true ->
  CompileGroup E ("#" +++ w)
  = Ok [withMatch (attributeEqualsSelector "id" w) (mkSpec 1 0 0)].
Proof.
  intros NE A.
  set (p0 := mkParser ("#" +++ w) 0).
  assert (R0 : remaining p0 = String "#" w) by reflexivity.
  assert (R1 : remaining (advance p0) = w +++ "") by (now rewrite string_app_nil_r).
  set (p1 := setPos (advance p0) (p_i (advance p0) + len w)).
  assert (Re : remaining p1 = "") by (apply (remaining_after _ _ _ R1)).
  assert (P : parseIDSelector p0
              = Ok (withMatch (attributeEqualsSelector "id" w) (mkSpec 1 0 0), p1)).
  { unfold parseIDSelector. rewrite peek_remaining, R0.
    cbn [String.get isByte Ascii.eqb Bool.eqb negb].
    now rewrite (parseName_plain _ _ _ R1 NE A eq_refl). }
  unfold CompileGroup. fold p0. cbn [parseSelectorGroup].
  unfold parseSelector. rewrite skipWhitespace_stays by (now rewrite R0).
  cbn [bind]. unfold parseSimpleSelectorSequence, parseBase.
  rewrite peek_remaining, R0. cbn [String.get isByte Ascii.eqb Bool.eqb orb bind].
  cbn [clauseLoop]. unfold parseClause at 1. rewrite peek_remaining, R0.
  cbn [String.get isByte Ascii.eqb Bool.eqb]. rewrite P. cbn [bind].
  cbn [addClause zeroSelector o_match withMatch bind].
  change (len (p_s p0) - p_i p0)%nat with (S (len w)).
  rewrite clauseLoop_at_end by exact Re. cbn [bind finish withMatch o_match].
  rewrite selectorLoop_at_end by exact Re. cbn [bind].
  rewrite groupLoop_at_end by exact Re. cbn [bind].
  pose proof (remaining_end _ Re) as L.
  destruct (Nat.ltb_spec (p_i p1) (len ("#" +++ w))) as [Lt|_]; [|reflexivity].
  change (p_s p1) with ("#" +++ w) in L. lia.
Qed.

Lemma CompileGroup_class w :
  plainIdentifier w = true ->
  CompileGroup E ("." +++ w)
  = Ok [withMatch (attributeIncludesSelector "class" w) (mkSpec 0 1 0)].
Proof.
  intros Pl.
  set (p0 := mkParser ("." +++ w) 0).
  assert (R0 : remaining p0 = String "." w) by reflexivity.
  assert (R1 : remaining (advance p0) = "" +++ w +++ "")
    by (simpl; now rewrite string_app_nil_r).
  pose proof (parseIdentifier_word (advance p0) false w "" R1 Pl eq_refl) as Id.
  cbn [String.append] in Id.
  set (p1 := setPos (advance p0) (p_i (advance p0) + len w)) in *.
  assert (Re : remaining p1 = "").
  { apply (remaining_after (advance p0) w ""). simpl. now rewrite string_app_nil_r. }
  assert (P : parseClassSelector p0
              = Ok (withMatch (attributeIncludesSelector "class" w) (mkSpec 0 1 0), p1)).
  { unfold parseClassSelector. rewrite peek_remaining, R0.
    cbn [String.get isByte Ascii.eqb Bool.eqb negb]. now rewrite Id. }
  unfold CompileGroup. fold p0. cbn [parseSelectorGroup].
  unfold parseSelector. rewrite skipWhitespace_stays by (now rewrite R0).
  cbn [bind]. unfold parseSimpleSelectorSequence, parseBase.
  rewrite peek_remaining, R0. cbn [String.get isByte Ascii.eqb Bool.eqb orb bind].
  cbn [clauseLoop]. unfold parseClause at 1. rewrite peek_remaining, R0.
  cbn [String.get isByte Ascii.eqb Bool.eqb]. rewrite P. cbn [bind].
  cbn [addClause zeroSelector o_match withMatch bind].
  change (len (p_s p0) - p_i p0)%nat with (S (len w)).
  rewrite clauseLoop_at_end by exact Re. cbn [bind finish withMatch o_match].
  rewrite selectorLoop_at_end by exact Re. cbn [bind].
  rewrite groupLoop_at_end by exact Re. cbn [bind].
  pose proof (remaining_end _ Re) as L.
  destruct (Nat.ltb_spec (p_i p1) (len ("." +++ w))) as [Lt|_]; [|reflexivity].
  change (p_s p1) with ("." +++ w) in L. lia.
Qed.

(** X23. For a name [w] of name bytes, [Compile] accepts [#w], and the
    selector matches exactly the elements that have an attribute [id] of
    value [w]; it never panics. *)
Theorem Compile_id_selector (w : string) :
  w <> "" -> allBytes nameChar w = true ->
  exists m, Compile E ("#" +++ w) = Ok m
    /\ forall n, exists b, m n = Some b
         /\ (b = true <->
             isElement n = true
             /\ exists a, In a (Attr n) /\ Key a = "id" /\ Val a = w).
Proof.
  intros NE A. pose proof (CompileGroup_id w NE A) as C.
  unfold Compile. rewrite C. cbn [bind]. eexists. split; [reflexivity|].
  intros n. exists (matchAttribute n "id" (fun s => String.eqb s w)). split.
  - cbn [map withMatch o_match]. rewrite group_single.
    change (Match E (attributeEqualsSelector "id" w) n)
      with (Some (matchAttribute n "id" (fun s => String.eqb s w))).
    apply orElse_false.
  - rewrite matchAttribute_spec. split; intros (El & a & Hin & K & V);
      (split; [exact El|]); exists a; (split; [exact Hin|]); (split; [exact K|]);
      now apply String.eqb_eq.
Qed.

Lemma CompileGroup_type w :
  plainIdentifier w = true -> CompileGroup E w = Ok [typeSelector w].
Proof.
  intros Pl. set (p0 := mkParser w 0).
  assert (R0 : remaining p0 = "" +++ w +++ "") by (simpl; now rewrite string_app_nil_r).
  pose proof (parseIdentifier_word p0 false w "" R0 Pl eq_refl) as Id.
  cbn [String.append] in Id.
  set (p1 := setPos p0 (p_i p0 + len w)) in *.
  assert (Re : remaining p1 = "").
  { apply (remaining_after p0 w ""). simpl. now rewrite string_app_nil_r. }
  destruct w as [|c w']; [discriminate|]. pose proof Pl as Pl'.
  cbn [plainIdentifier] in Pl'. apply andb_true_iff in Pl'. destruct Pl' as (Ns & _).
  destruct (nameStart_first _ Ns) as (Sp & Sl & St & Cl).
  unfold CompileGroup. fold p0. cbn [parseSelectorGroup].
  unfold parseSelector. rewrite skipWhitespace_stays
    by (simpl; now split).
  cbn [bind]. unfold parseSimpleSelectorSequence, parseBase.
  rewrite peek_remaining. cbn [p0 remaining p_s p_i drop String.get].
  rewrite St, Cl. unfold parseTypeSelector. fold p0. rewrite Id. cbn [bind].
  rewrite clauseLoop_at_end by exact Re. cbn [bind].
  rewrite selectorLoop_at_end by exact Re. cbn [bind].
  rewrite groupLoop_at_end by exact Re. cbn [bind].
  pose proof (remaining_end _ Re) as L. change (p_s p1) with (String c w') in L.
  destruct (Nat.ltb_spec (p_i p1) (len (String c w'))) as [Lt|_]; [lia|].
  reflexivity.
Qed.

(** X24. For an identifier [w] written without escapes, [Compile]
    accepts [w]; the selector matches exactly the elements whose tag is
    [w] in lower case; and the text [w] and its lower-case form compile to
    the same selector. *)
Theorem Compile_type_selector (w : string) :
  plainIdentifier w = true ->
  CompileGroup E w = Ok [typeSelector w]
  /\ CompileGroup E (toLowerASCII w) = CompileGroup E w
  /\ exists m, Compile E w = Ok m
       /\ forall n, m n = Some (isElement n && String.eqb (Data n) (toLowerASCII w)).
Proof.
  intros Pl. pose proof (CompileGroup_type w Pl) as C. split; [exact C|]. split.
  - rewrite C, CompileGroup_type by (now rewrite plainIdentifier_toLowerASCII).
    unfold typeSelector. now rewrite toLowerASCII_idempotent.
  - unfold Compile. rewrite C. cbn [bind]. eexists. split; [reflexivity|].
    intros n. cbn [map typeSelector withMatch o_match]. rewrite group_single.
    cbn [Match]. unfold tagMatch. apply orElse_false.
Qed.

Lemma selectorLoop_PseudoElement fuel g : forall res p res' p',
  selectorLoop E fuel g res p = Ok (res', p') ->
  o_PseudoElement res' = o_PseudoElement res.
Proof.
  induction fuel as [|fuel IH]; intros res p res' p'; cbn [selectorLoop];
    [discriminate|].
  destruct (skipWhitespace p) as [[skipped q]| | |]; cbn [bind]; try discriminate.
  destruct (peek q) as [c|]; [|now intros [= <- <-]].
  destruct (isByte c "," || isByte c ")"); [now intros [= <- <-]|].
  destruct (isByte c "+" || isByte c ">" || isByte c "~").
  - destruct (skipWhitespace (advance q)) as [[sk q2]| | |]; cbn [bind];
      try discriminate.
    destruct (isByte c zero); [now intros [= <- <-]|].
    destruct (parseSimpleSelectorSequence E g q2) as [[c2 q3]| | |]; cbn [bind];
      try discriminate.
    intros H. now rewrite (IH _ _ _ _ H).
  - cbn [bind]. destruct (isByte (if skipped then " "%char else zero) zero);
      [now intros [= <- <-]|].
    destruct (parseSimpleSelectorSequence E g q) as [[c2 q3]| | |]; cbn [bind];
      try discriminate.
    intros H. now rewrite (IH _ _ _ _ H).
Qed.

(** X25. The pseudo-element of a selector with combinators is the
    pseudo-element of its first compound: the loop of [parseSelector]
    never assigns the field, so the pseudo-element of a later compound is
    dropped. *)
Theorem combinators_keep_first_PseudoElement
        (g : parser -> result (Selector * parser)) (p : parser)
        (res : oneSelector) (p' : parser) :
  parseSelector E g p = Ok (res, p') ->
  exists skipped q first q1,
    skipWhitespace p = Ok (skipped, q)
    /\ parseSimpleSelectorSequence E g q = Ok (first, q1)
    /\ o_PseudoElement res = o_PseudoElement first.
Proof.
  unfold parseSelector.
  destruct (skipWhitespace p) as [[skipped q]| | |] eqn:S1; cbn [bind];
    try discriminate.
  destruct (parseSimpleSelectorSequence E g q) as [[first q1]| | |] eqn:S2;
    cbn [bind]; try discriminate.
  intros H. exists skipped, q, first, q1.
  split; [reflexivity|]. split; [exact S2|].
  exact (selectorLoop_PseudoElement _ _ _ _ _ _ H).
Qed.

Lemma plainIdentifier_name w :
  plainIdentifier w = true -> w <> "" /\ allBytes nameChar w = true.
Proof.
  destruct w as [|c w]; [discriminate|]. cbn [plainIdentifier allBytes].
  intros H. apply andb_true_iff in H. destruct H as (Ns & A).
  split; [discriminate|]. now rewrite (nameStart_nameChar _ Ns), A.
Qed.

(** X29. The text of an id, a class or a (lower-case) tag selector whose
    name is an identifier of plain name bytes compiles, and the compiled
    selector answers on every node what the [Match] of the rendered
    selector answers. *)
Theorem simple_selectors_round_trip (w : string) :
  plainIdentifier w = true ->
  (exists m, Sel_String (idSelector w) = Some ("#" +++ w)
             /\ Compile E ("#" +++ w) = Ok m
             /\ forall n, m n = Match E (idSelector w) n)
  /\ (exists m, Sel_String (classSelector w) = Some ("." +++ w)
                /\ Compile E ("." +++ w) = Ok m
                /\ forall n, m n = Match E (classSelector w) n)
  /\ (exists m, Sel_String (tagSelector (toLowerASCII w)) = Some (toLowerASCII w)
                /\ Compile E (toLowerASCII w) = Ok m
                /\ forall n, m n = Match E (tagSelector (toLowerASCII w)) n).
Proof.
  intros Pl. destruct (plainIdentifier_name w Pl) as (NE & A).
  split; [|split].
  - unfold Compile. rewrite (CompileGroup_id w NE A). cbn [bind]. eexists.
    split; [reflexivity|]. split; [reflexivity|]. intros n.
    cbn [map withMatch o_match]. rewrite group_single.
    change (Match E (attributeEqualsSelector "id" w) n) with (Match E (idSelector w) n).
    apply orElse_false.
  - unfold Compile. rewrite (CompileGroup_class w Pl). cbn [bind]. eexists.
    split; [reflexivity|]. split; [reflexivity|]. intros n.
    cbn [map withMatch o_match]. rewrite group_single.
    change (Match E (attributeIncludesSelector "class" w) n)
      with (Match E (classSelector w) n).
    apply orElse_false.
  - unfold Compile.
    rewrite CompileGroup_type by (now rewrite plainIdentifier_toLowerASCII).
    cbn [bind]. eexists. split; [reflexivity|]. split; [reflexivity|]. intros n.
    cbn [map typeSelector withMatch o_match]. rewrite group_single.
    rewrite toLowerASCII_idempotent. apply orElse_false.
Qed.

End WholeSelectors.

(** ** Matching never panics on what the parser builds *)

Lemma anyMatch_total a cs : (forall c, a c <> None) -> anyMatch a cs <> None.
Proof.
  intros T. induction cs as [|c cs IH]; cbn [anyMatch]; [discriminate|].
  specialize (T c). destruct (a c) as [[|]|]; cbn [orElse]; congruence.
Qed.


Lemma hasDescendantTree_total a t : forall cx,
  (forall c, a c <> None) -> hasDescendantTree a t cx <> None.
Proof.
  induction t as [ty d at_ ch IH] using tree_induction. intros cx T.
  cbn [hasDescendantTree]. generalize (@nil tree) as l.
  induction ch as [|x r IHr]; intros l; [discriminate|].
  inversion IH as [|? ? Px Pr]; subst.
  specialize (IHr Pr (x :: l)). specialize (Px (Below l ty d at_ cx r) T).
  pose proof (T (mkNode x (Below l ty d at_ cx r))) as Tc.
  destruct (a (mkNode x (Below l ty d at_ cx r))) as [[|]|]; cbn [orElse];
    [discriminate | | congruence].
  destruct (isElement (mkNode x (Below l ty d at_ cx r))); [|exact IHr].
  destruct (hasDescendantTree a x (Below l ty d at_ cx r)) as [[|]|]; cbn [orElse];
    [discriminate | exact IHr | congruence].
Qed.

Section MatchTotal.

Variable E : Ext.

Lemma existsb_eqb_cases name names :
  existsb (String.eqb name) names = true -> In name names.
Proof.
  intros H. apply existsb_exists in H. destruct H as (x & Hin & Hx).
  apply String.eqb_eq in Hx. now subst.
Qed.

Lemma Match_complete : forall s, complete s = true -> forall n, Match E s n <> None.
Proof.
  fix IH 1. intros s C n. destruct s; cbn [Match]; cbn [complete] in C;
    try discriminate.
  - (* attrSelector *)
    destruct (String.eqb operation "#=") eqn:R.
    + apply String.eqb_eq in R. subst operation. cbn [String.eqb Ascii.eqb Bool.eqb].
      destruct regexp; [discriminate | discriminate C].
    + apply existsb_eqb_cases in C. cbn [In] in C.
      repeat (destruct C as [<- | C]; [cbn [String.eqb Ascii.eqb Bool.eqb]; discriminate|]).
      destruct C.
  - (* relativePseudoClassSelector *)
    apply andb_true_iff in C. destruct C as (N & M).
    destruct match_ as [s'|]; [|discriminate].
    pose proof (IH s' M) as T.
    destruct (negb (isElement n)); [discriminate|].
    apply existsb_eqb_cases in N. cbn [In] in N.
    destruct N as [<- | [<- | [<- | []]]]; cbn [String.eqb Ascii.eqb Bool.eqb].
    + specialize (T n). destruct (Match E s' n); [discriminate | congruence].
    + apply hasDescendantTree_total. exact T.
    + apply anyMatch_total. exact T.
  - (* regexpPseudoClassSelector *)
    destruct regexp; [discriminate | discriminate C].
  - (* nthPseudoClassSelector *)
    destruct (a =? 0); [destruct last|]; discriminate.
  - (* emptyElementPseudoClassSelector *)
    destruct (negb (isElement n)); discriminate.
  - (* rootPseudoClassSelector *)
    destruct (negb (isElement n)); [discriminate|]. destruct (Parent n); discriminate.
  - (* compoundSelector *)
    assert (H : (fix each (l : list (option Sel)) : option bool :=
                   match l with
                   | [] => Some true
                   | sel :: l' =>
                       match sel with Some s' => Match E s' n | None => None end
                       &&& each l'
                   end) selectors <> None).
    { revert C. induction selectors as [|x l IHl]; [discriminate|].
      intros C. apply andb_true_iff in C. destruct C as (Cx & Cl).
      destruct x as [s'|]; [|discriminate].
      specialize (IH s' Cx n). destruct (Match E s' n) as [[|]|]; cbn [andAlso];
        [now apply IHl | discriminate | congruence]. }
    destruct selectors; [discriminate | exact H].
  - (* combinedSelector *)
    apply andb_true_iff in C. destruct C as (C & K).
    apply andb_true_iff in C. destruct C as (C1 & C2).
    destruct first as [f|]; [|discriminate]. destruct second as [g|]; [|discriminate].
    pose proof (IH f C1) as Tf. pose proof (IH g C2 n) as Tg.
    unfold descendantMatch, childMatch, siblingMatch.
    destruct (isByte combinator zero); [apply Tf|].
    assert (A : forall x, Match E g n &&& x <> None <-> (Match E g n = Some true -> x <> None)).
    { intros x. destruct (Match E g n) as [[|]|]; cbn [andAlso]; split; intros H;
        try congruence; try (intros; discriminate); now apply H. }
    cbn [existsb] in K.
    destruct (isByte combinator " "); [apply A; intros _; now apply anyMatch_total|].
    destruct (isByte combinator ">").
    { apply A. intros _. destruct (Parent n); [apply Tf | discriminate]. }
    destruct (isByte combinator "+").
    { apply A. intros _. induction (prevSiblings n) as [|c cs IHc]; cbn [adjacentLoop];
        [discriminate|].
      destruct (NodeType_eqb (Type_ c) TextNode || NodeType_eqb (Type_ c) CommentNode);
        [exact IHc | apply Tf]. }
    destruct (isByte combinator "~"); [|discriminate].
    apply A. intros _. now apply anyMatch_total.
  - (* selectorGroup *)
    induction sels as [|x l IHl]; [discriminate|].
    apply andb_true_iff in C. destruct C as (Cx & Cl).
    destruct x as [s'|]; [|discriminate].
    specialize (IH s' Cx n). destruct (Match E s' n) as [[|]|]; cbn [orElse];
      [discriminate | now apply IHl | congruence].
Qed.

End MatchTotal.

(** ** Where the parser can panic *)

Lemma get_None_ge k : forall s, String.get k s = None -> (len s <= k)%nat.
Proof.
  unfold len. induction k as [|k IH]; intros [|c s]; simpl; try discriminate; try lia.
  intros H. apply IH in H. lia.
Qed.

Lemma at_quiet s k : (k < len s)%nat -> exists c, at_ s k = Ok c.
Proof.
  intros L. unfold at_. destruct (String.get k s) as [c|] eqn:G; [now exists c|].
  apply get_None_ge in G. lia.
Qed.

Create HintDb quiets.

(** One step of a proof that a call does not panic. *)
Ltac quiet_step :=
  match goal with
  | |- Ok _ <> Panic => discriminate
  | |- Err _ <> Panic => discriminate
  | |- OutOfFuel <> Panic => discriminate
  | |- bind (Ok _) _ <> Panic => cbn [bind]
  | |- bind (Err _) _ <> Panic => discriminate
  | |- bind (bind _ _) _ <> Panic => rewrite bind_assoc
  | |- bind (if ?b then _ else _) _ <> Panic => destruct b eqn:?
  | |- bind (match ?x with _ => _ end) _ <> Panic => destruct x eqn:?
  | |- bind ?r _ <> Panic =>
      let H := fresh "Q" in
      assert (H : r <> Panic) by (solve [eauto with quiets]);
      destruct r as [[? ?]| | |]; cbn [bind];
      [ clear H | discriminate | contradiction | discriminate ]
  | |- (if ?b then _ else _) <> Panic => destruct b eqn:?
  | |- match ?x with _ => _ end <> Panic => destruct x eqn:?
  end.

Ltac quiet := repeat quiet_step.

Lemma parseEscape_quiet p : parseEscape p <> Panic.
Proof.
  unfold parseEscape.
  destruct (Nat.ltb_spec (len (p_s p)) (p_i p + 2)) as [|L]; [discriminate|].
  destruct (at_quiet (p_s p) (p_i p)) as (c0 & ->); [lia|]. cbn [bind].
  destruct (negb (isByte c0 "\")); [discriminate|].
  destruct (at_quiet (p_s p) (p_i p + 1)) as (c & ->); [lia|]. cbn [bind].
  quiet.
Qed.

#[local] Hint Resolve parseEscape_quiet : quiets.

Lemma parseNameLoop_quiet fuel p : forall i res, parseNameLoop fuel p i res <> Panic.
Proof.
  induction fuel as [|fuel IH]; intros i res; cbn [parseNameLoop]; [discriminate|].
  destruct (String.get i (p_s p)) as [c|]; [|discriminate].
  destruct (nameChar c); [apply IH|].
  destruct (isByte c "\"); [|discriminate].
  pose proof (parseEscape_quiet (setPos p i)) as Q.
  destruct (parseEscape (setPos p i)) as [[val p']| | |]; cbn [bind];
    [apply IH | discriminate | contradiction | discriminate].
Qed.

Lemma parseName_quiet p : parseName p <> Panic.
Proof.
  unfold parseName.
  pose proof (parseNameLoop_quiet (S (len (p_s p) - p_i p)) p (p_i p) "") as Q.
  destruct (parseNameLoop _ p (p_i p) "") as [[res i]| | |]; cbn [bind];
    [|discriminate | contradiction | discriminate].
  destruct (String.eqb res ""); discriminate.
Qed.

#[local] Hint Resolve parseName_quiet : quiets.

Lemma parseIdentifier_quiet p : parseIdentifier p <> Panic.
Proof.
  unfold parseIdentifier.
  destruct (match peek p with
            | Some c => if isByte c "-" then (true, setPos p (p_i p + 1)) else (false, p)
            | None => (false, p)
            end) as [dash q].
  quiet.
Qed.

Lemma parseStringLoop_quiet fuel p quote : forall i res,
  parseStringLoop fuel p quote i res <> Panic.
Proof.
  induction fuel as [|fuel IH]; intros i res; cbn [parseStringLoop]; [discriminate|].
  destruct (String.get i (p_s p)) as [c|]; [|discriminate].
  assert (Esc : ('(val, p') <- parseEscape (setPos p i) ;;
                 parseStringLoop fuel p quote (p_i p') (res +++ val)) <> Panic).
  { pose proof (parseEscape_quiet (setPos p i)) as Q.
    destruct (parseEscape (setPos p i)) as [[val p']| | |]; cbn [bind];
      [apply IH | discriminate | contradiction | discriminate]. }
  destruct (isByte c "\").
  - destruct (String.get (i + 1) (p_s p)) as [c1|]; [|exact Esc].
    destruct (isByte c1 CR).
    + destruct (String.get (i + 2) (p_s p)) as [c2|]; [|apply IH].
      destruct (isByte c2 LF); apply IH.
    + destruct (isByte c1 LF || isByte c1 FF); [apply IH | exact Esc].
  - destruct (isByte c quote); [discriminate|].
    destruct (isByte c CR || isByte c LF || isByte c FF); [discriminate | apply IH].
Qed.

Lemma parseString_quiet p : parseString p <> Panic.
Proof.
  unfold parseString.
  destruct (Nat.ltb_spec (len (p_s p)) (p_i p + 2)) as [|L]; [discriminate|].
  destruct (at_quiet (p_s p) (p_i p)) as (quote & ->); [lia|]. cbn [bind].
  pose proof (parseStringLoop_quiet (S (len (p_s p) - p_i p)) p quote (p_i p + 1) "") as Q.
  destruct (parseStringLoop _ p quote (p_i p + 1) "") as [[res i]| | |]; cbn [bind];
    [|discriminate | contradiction | discriminate].
  destruct (len (p_s p) <=? i)%nat; discriminate.
Qed.

Lemma skipWhitespaceLoop_quiet fuel s : forall i, skipWhitespaceLoop fuel s i <> Panic.
Proof.
  induction fuel as [|fuel IH]; intros i; cbn [skipWhitespaceLoop]; [discriminate|].
  destruct (String.get i s) as [c|]; [|discriminate].
  destruct (isByte c SP || isByte c TAB || isByte c CR || isByte c LF || isByte c FF);
    [apply IH|].
  destruct (isByte c "/" && strings_HasPrefix (drop i s) "/*"); [|discriminate].
  destruct (strings_Index (drop (i + 2) s) "*/"); [apply IH | discriminate].
Qed.

Lemma skipWhitespace_quiet p : skipWhitespace p <> Panic.
Proof.
  unfold skipWhitespace.
  pose proof (skipWhitespaceLoop_quiet (S (len (p_s p) - p_i p)) (p_s p) (p_i p)) as Q.
  destruct (skipWhitespaceLoop _ (p_s p) (p_i p)) as [i| | |]; cbn [bind];
    [|discriminate | contradiction | discriminate].
  destruct (p_i p <? i)%nat; discriminate.
Qed.

#[local] Hint Resolve parseIdentifier_quiet parseString_quiet skipWhitespace_quiet : quiets.

Lemma consumeParenthesis_quiet p : consumeParenthesis p <> Panic.
Proof. unfold consumeParenthesis. quiet. Qed.

Lemma consumeClosingParenthesis_quiet p : consumeClosingParenthesis p <> Panic.
Proof. unfold consumeClosingParenthesis. quiet. Qed.

Lemma parseInteger_quiet p : parseInteger p <> Panic.
Proof. unfold parseInteger. quiet. Qed.

#[local] Hint Resolve consumeParenthesis_quiet consumeClosingParenthesis_quiet
  parseInteger_quiet : quiets.

Lemma parseNth_readN_quiet a p : parseNth_readN a p <> Panic.
Proof. unfold parseNth_readN. quiet. Qed.

#[local] Hint Resolve parseNth_readN_quiet : quiets.

Lemma parseNth_readA_quiet a p : parseNth_readA a p <> Panic.
Proof. unfold parseNth_readA. quiet. auto with quiets. Qed.

#[local] Hint Resolve parseNth_readA_quiet : quiets.

Lemma parseNth_positiveA_quiet p : parseNth_positiveA p <> Panic.
Proof. unfold parseNth_positiveA. quiet; auto with quiets. Qed.

Lemma parseNth_negativeA_quiet p : parseNth_negativeA p <> Panic.
Proof. unfold parseNth_negativeA. quiet; auto with quiets. Qed.

#[local] Hint Resolve parseNth_positiveA_quiet parseNth_negativeA_quiet : quiets.

Lemma parseNth_quiet p : parseNth p <> Panic.
Proof. unfold parseNth. quiet; auto with quiets. Qed.

Lemma openParenthesis_quiet p : openParenthesis p <> Panic.
Proof. unfold openParenthesis. quiet. Qed.

Lemma closeParenthesis_quiet p : closeParenthesis p <> Panic.
Proof. unfold closeParenthesis. quiet. Qed.

Lemma parseTypeSelector_quiet p : parseTypeSelector p <> Panic.
Proof. unfold parseTypeSelector. quiet. Qed.

Lemma parseIDSelector_quiet p : parseIDSelector p <> Panic.
Proof. unfold parseIDSelector. quiet. Qed.

Lemma parseClassSelector_quiet p : parseClassSelector p <> Panic.
Proof. unfold parseClassSelector. quiet. Qed.

Lemma parseStringOrIdentifier_quiet p :
  (p_i p < len (p_s p))%nat -> parseStringOrIdentifier p <> Panic.
Proof.
  intros L. unfold parseStringOrIdentifier.
  destruct (at_quiet _ _ L) as (c & ->). cbn [bind].
  destruct (isQuote c); auto with quiets.
Qed.

#[local] Hint Resolve parseNth_quiet openParenthesis_quiet closeParenthesis_quiet
  parseTypeSelector_quiet parseIDSelector_quiet parseClassSelector_quiet : quiets.

Lemma quiet_calm {A} s (r : result A) : r <> Panic -> calm s r.
Proof. intros H P. contradiction. Qed.

#[local] Hint Resolve parseEscape_well parseName_well parseIdentifier_well
  parseString_well skipWhitespace_well consumeParenthesis_well
  consumeClosingParenthesis_well parseInteger_well parseNth_well
  parseTypeSelector_well parseStringOrIdentifier_well : wells.

#[local] Hint Extern 1 (parseStringOrIdentifier _ <> Panic) =>
  apply parseStringOrIdentifier_quiet; unfold atEnd in *; tidy; unfold within in *; lia
  : quiets.

(** One step of a proof that a parser function is [calm]. *)
Ltac calm_basic :=
  match goal with
  | |- calm _ (Ok _) => intro; discriminate
  | |- calm _ (Err _) => intro; discriminate
  | |- calm _ (bind (bind _ _) _) => rewrite bind_assoc
  | |- calm _ (bind (Ok _) _) => cbn [bind]
  | |- calm _ (bind (Err _) _) => intro; discriminate
  | |- calm _ (bind (if ?b then _ else _) _) => destruct b eqn:?
  | |- calm _ (bind (match ?x with _ => _ end) _) => destruct x eqn:?
  | |- calm _ (if ?b then _ else _) => destruct b eqn:?
  | |- calm _ (match ?x with _ => _ end) => destruct x eqn:?
  end.

Ltac calm_lexer :=
  match goal with
  | |- calm ?s (bind (?f ?q) _) =>
      let W := fresh "W" in
      let Qt := fresh "Qt" in
      assert (W : well (p_i q) s (f q))
        by (apply (lift_well f);
            [ solve [eauto with wells]
            | tidy; solve [reflexivity | congruence]
            | tidy; unfold within in *; lia ]);
      assert (Qt : f q <> Panic) by (solve [eauto with quiets]);
      destruct (f q) as [[? ?]| | |]; cbn [bind];
      [ simpl in W; destruct W as (? & ?); clear Qt
      | intro; discriminate
      | contradiction
      | intro; discriminate ]
  | |- calm ?s (?f ?q) =>
      apply quiet_calm; solve [eauto with quiets]
  end.

Ltac calm_steps := repeat first [calm_basic | calm_lexer].

(** One step of a proof about the value a parser function returns. *)
Ltac yield_step :=
  match goal with
  | |- yields _ (Ok _) => intros ? ? [= <- <-]
  | |- yields _ (Err _) => intros ? ? ?; discriminate
  | |- yields _ Panic => intros ? ? ?; discriminate
  | |- yields _ OutOfFuel => intros ? ? ?; discriminate
  | |- yields _ (bind (bind _ _) _) => rewrite bind_assoc
  | |- yields _ (bind (Ok _) _) => cbn [bind]
  | |- yields _ (bind (if ?b then _ else _) _) => destruct b eqn:?
  | |- yields _ (bind (match ?x with _ => _ end) _) => destruct x eqn:?
  | |- yields _ (bind ?r _) => destruct r as [?| | |] eqn:?; cbn [bind]
  | |- yields _ (if ?b then _ else _) => destruct b eqn:?
  | |- yields _ (match ?x with _ => _ end) => destruct x eqn:?
  end.

Ltac yield_steps := repeat yield_step.

Section ClauseSound.

Variable E : Ext.

Lemma parseRegex_quiet p : parseRegex E p <> Panic.
Proof. unfold parseRegex. quiet. Qed.

Lemma substring_len s : forall a k, (a + k <= len s)%nat -> len (substring a k s) = k.
Proof.
  unfold len. induction s as [|c s IH]; intros a k L.
  - simpl in L. assert (a = 0 /\ k = 0)%nat as (-> & ->) by lia. reflexivity.
  - destruct a as [|a]; simpl.
    + destruct k as [|k]; [reflexivity|]. simpl. f_equal. apply (IH 0%nat). simpl in L. lia.
    + apply IH. simpl in L. lia.
Qed.

#[local] Hint Resolve parseRegex_quiet : quiets.
#[local] Hint Resolve parseRegex_well : wells.

Ltac calm_at :=
  match goal with
  | |- calm _ (bind (at_ ?t ?k) _) =>
      let c := fresh "c" in
      destruct (at_quiet t k) as (c & ->);
      [ unfold slice; rewrite substring_len by (tidy; lia); lia | cbn [bind] ]
  end.

Lemma parseAttributeMatcher_calm p :
  within p -> calm (p_s p) (parseAttributeMatcher E p).
Proof.
  intros Wp. unfold parseAttributeMatcher.
  repeat first [calm_basic | calm_lexer | calm_at].
  match goal with
  | |- context [len (if ?b then "=" else slice ?s ?i ?j)] =>
      pose proof (operator_len b s i j) as OL;
      set (op := if b then "=" else slice s i j) in *;
      clearbody op
  end.
  repeat first [calm_basic | calm_lexer | calm_at].
Qed.

Lemma parseAttributeMatcher_complete p :
  yields (fun m => complete m = true) (parseAttributeMatcher E p).
Proof.
  unfold parseAttributeMatcher. yield_steps; reflexivity.
Qed.

Lemma parseAttributeSelector_calm p :
  within p -> calm (p_s p) (parseAttributeSelector E p).
Proof.
  intros Wp. unfold parseAttributeSelector.
  pose proof (parseAttributeMatcher_calm p Wp) as C.
  destruct (parseAttributeMatcher E p) as [[m q]| | |]; cbn [bind];
    [intro; discriminate | intro; discriminate | intros _; now apply C
    | intro; discriminate].
Qed.

Lemma parseAttributeSelector_full p : yields full (parseAttributeSelector E p).
Proof.
  unfold parseAttributeSelector. intros o q.
  destruct (parseAttributeMatcher E p) as [[m p1]| | |] eqn:A; cbn [bind];
    try discriminate.
  intros [= <- <-]. exact (parseAttributeMatcher_complete p m p1 A).
Qed.

Lemma last_byte_colon s i :
  String.get i s = Some ":"%char -> (len s <= i + 1)%nat -> endsWithColon s.
Proof.
  intros G L. unfold endsWithColon, strings_HasSuffix.
  pose proof (get_Some_lt _ _ _ G) as Lt.
  destruct (get_Some_drop _ _ _ G) as (r & D).
  assert (R : r = "").
  { pose proof (len_drop i s) as LD. rewrite D in LD. unfold len in *. simpl in LD.
    destruct r; [reflexivity | simpl in LD; lia]. }
  subst r. change (len ":") with 1%nat.
  replace (len s - 1)%nat with i by lia. rewrite D.
  destruct (Nat.leb_spec 1 (len s)); [reflexivity | lia].
Qed.

Lemma pseudoclassName_calm p : calm (p_s p) (pseudoclassName p).
Proof.
  unfold pseudoclassName. destruct (peek p) as [c|] eqn:Pk; [|intro; discriminate].
  destruct (isByte c ":") eqn:C; cbn [negb]; [|intro; discriminate].
  apply Ascii.eqb_eq in C. subst c. unfold peek in Pk.
  unfold at_. cbn [advance setPos p_s p_i].
  destruct (String.get (p_i p + 1) (p_s p)) as [c|] eqn:G; cbn [bind].
  - apply quiet_calm. quiet; eauto with quiets.
  - intros _. apply get_None_ge in G. now apply last_byte_colon with (p_i p).
Qed.

End ClauseSound.

#[local] Hint Resolve parseRegex_quiet : quiets.
#[local] Hint Resolve parseRegex_well : wells.

Lemma complete_union (sel : Selector) :
  Forall full sel -> complete (selectorGroup (map o_match sel)) = true.
Proof.
  intros F. cbn [complete]. induction F as [|o l Fo Fl IH]; [reflexivity|].
  cbn [map]. unfold full in Fo. destruct (o_match o) as [m|]; [|contradiction].
  now rewrite Fo, IH.
Qed.

Section GroupSound.

Variable E : Ext.
Variable g : parser -> result (Selector * parser).
Variable s0 : string.
Variable i0 : nat.
Hypothesis g_well :
  forall q, p_s q = s0 -> (i0 < p_i q <= len s0)%nat -> well (p_i q) s0 (g q).
Hypothesis g_calm :
  forall q, p_s q = s0 -> (i0 < p_i q <= len s0)%nat -> calm s0 (g q).
Hypothesis g_full : forall q, yields (Forall full) (g q).

Ltac calm_group :=
  match goal with
  | |- calm s0 (bind (g ?q) _) =>
      let W := fresh "W" in
      let C := fresh "C" in
      assert (W : well (p_i q) s0 (g q))
        by (apply g_well; [tidy; solve [reflexivity | congruence] | tidy; lia]);
      assert (C : calm s0 (g q))
        by (apply g_calm; [tidy; solve [reflexivity | congruence] | tidy; lia]);
      destruct (g q) as [[? ?]| | |]; cbn [bind];
      [ simpl in W; destruct W as (? & ?); clear C
      | intro; discriminate
      | intros _; now apply C
      | intro; discriminate ]
  end.

Ltac calm_all := repeat first [calm_basic | calm_lexer | calm_group].

Lemma pseudoclassBody_calm name p :
  p_s p = s0 -> (i0 < p_i p <= len s0)%nat ->
  calm s0 (pseudoclassBody E g name p).
Proof.
  intros Hs Hp. unfold pseudoclassBody, openParenthesis, closeParenthesis, atEnd.
  calm_all.
Qed.

Lemma oneOf_nonempty name names :
  oneOf name names = true -> Forall (fun x => x <> "") names -> name <> "".
Proof.
  unfold oneOf. intros H F. apply existsb_exists in H. destruct H as (x & Hin & Hx).
  apply String.eqb_eq in Hx. subst x. rewrite Forall_forall in F. now apply F.
Qed.

Lemma pseudoclassBody_clauseOk name p : yields clauseOk (pseudoclassBody E g name p).
Proof.
  unfold pseudoclassBody, openParenthesis, closeParenthesis, atEnd.
  yield_steps; try reflexivity.
  all: try (match goal with
            | H : g _ = Ok (?sel, _) |- _ =>
                apply g_full in H; unfold clauseOk, withMatch; cbn [o_match];
                unfold negatedSelector, hasDescendantSelector, hasChildSelector, unionMatch;
                cbn [complete existsb String.eqb Ascii.eqb Bool.eqb orb andb];
                exact (complete_union _ H)
            end).
  all: try (unfold clauseOk; cbn [o_match o_PseudoElement];
            eapply oneOf_nonempty; [eassumption|];
            unfold pseudoElements; repeat constructor; discriminate).
Qed.

Lemma calm_bind {A B} i s (r : result (A * parser)) (k : A * parser -> result B) :
  well i s r -> calm s r ->
  (forall x p', r = Ok (x, p') -> p_s p' = s -> (i <= p_i p' <= len s)%nat ->
                calm s (k (x, p'))) ->
  calm s (bind r k).
Proof.
  destruct r as [[x p']| | |]; cbn [bind]; intros W C K.
  - destruct W as (Hs & L). now apply K.
  - intro; discriminate.
  - intros _. now apply C.
  - intro; discriminate.
Qed.

Lemma yields_bind {A B} (Q1 : A -> Prop) (Q2 : B -> Prop)
      (r : result (A * parser)) (k : A * parser -> result (B * parser)) :
  yields Q1 r -> (forall x p', Q1 x -> yields Q2 (k (x, p'))) -> yields Q2 (bind r k).
Proof.
  destruct r as [[x p']| | |]; cbn [bind]; intros Y K; try (intros ? ? ?; discriminate).
  apply K. now apply (Y x p').
Qed.

Lemma parsePseudoclassSelector_calm p :
  p_s p = s0 -> (i0 <= p_i p <= len s0)%nat ->
  calm s0 (parsePseudoclassSelector E g p).
Proof.
  intros Hs Hp. unfold parsePseudoclassSelector.
  apply calm_bind with (S (p_i p)).
  - rewrite <- Hs. apply pseudoclassName_well. unfold within. rewrite Hs. lia.
  - rewrite <- Hs. apply pseudoclassName_calm.
  - intros name p' _ Hs' Hp'. apply pseudoclassBody_calm; [exact Hs' | lia].
Qed.

Lemma parsePseudoclassSelector_clauseOk p :
  yields clauseOk (parsePseudoclassSelector E g p).
Proof.
  unfold parsePseudoclassSelector. intros o q.
  destruct (pseudoclassName p) as [[name p1]| | |]; cbn [bind]; try discriminate.
  apply pseudoclassBody_clauseOk.
Qed.

Lemma full_clauseOk o : full o -> clauseOk o.
Proof. unfold full, clauseOk. now destruct (o_match o). Qed.

Lemma full_baseOk o : full o -> baseOk o.
Proof. unfold full, baseOk. now destruct (o_match o). Qed.

Lemma parseIDSelector_full p : yields full (parseIDSelector p).
Proof. unfold parseIDSelector. yield_steps; reflexivity. Qed.

Lemma parseClassSelector_full p : yields full (parseClassSelector p).
Proof. unfold parseClassSelector. yield_steps; reflexivity. Qed.

Lemma parseTypeSelector_full p : yields full (parseTypeSelector p).
Proof. unfold parseTypeSelector. yield_steps; reflexivity. Qed.

Lemma parseClause_calm p clause :
  p_s p = s0 -> (i0 <= p_i p <= len s0)%nat ->
  parseClause E g p = Some clause -> calm s0 clause.
Proof.
  intros Hs Hp. unfold parseClause.
  assert (W : within p) by (unfold within; rewrite Hs; lia).
  destruct (peek p) as [c|]; [|discriminate].
  destruct (isByte c "#"); [intros [= <-]; apply quiet_calm; auto with quiets|].
  destruct (isByte c "."); [intros [= <-]; apply quiet_calm; auto with quiets|].
  destruct (isByte c "[");
    [intros [= <-]; rewrite <- Hs; now apply parseAttributeSelector_calm|].
  destruct (isByte c ":"); [|discriminate].
  intros [= <-]. now apply parsePseudoclassSelector_calm.
Qed.

Lemma parseClause_clauseOk p clause :
  parseClause E g p = Some clause -> yields clauseOk clause.
Proof.
  unfold parseClause. destruct (peek p) as [c|]; [|discriminate].
  destruct (isByte c "#").
  { intros [= <-] o q H. apply full_clauseOk. exact (parseIDSelector_full p o q H). }
  destruct (isByte c ".").
  { intros [= <-] o q H. apply full_clauseOk. exact (parseClassSelector_full p o q H). }
  destruct (isByte c "[").
  { intros [= <-] o q H. apply full_clauseOk.
    exact (parseAttributeSelector_full E p o q H). }
  destruct (isByte c ":"); [|discriminate].
  intros [= <-]. apply parsePseudoclassSelector_clauseOk.
Qed.

Lemma addClause_full res ns r :
  baseOk res -> clauseOk ns -> addClause res ns = Ok r -> full r.
Proof.
  unfold baseOk, clauseOk, addClause, full.
  destruct (o_match res) as [mr|]; intros Br Cn.
  - intros [= <-]. cbn [o_match].
    destruct (String.eqb (o_PseudoElement ns) "") eqn:Pe; [|exact Br].
    apply String.eqb_eq in Pe. destruct (o_match ns) as [mn|]; [|contradiction].
    unfold intersectionSelector. cbn [complete]. now rewrite Br, Cn.
  - destruct (o_match ns) as [mn|] eqn:Mn.
    + intros [= <-]. now rewrite Mn.
    + apply String.eqb_neq in Cn. rewrite Cn. discriminate.
Qed.

Lemma clauseLoop_calm fuel : forall res p,
  p_s p = s0 -> (i0 <= p_i p <= len s0)%nat ->
  calm s0 (clauseLoop E fuel g res p).
Proof.
  induction fuel as [|fuel IH]; intros res p Hs Hp; [intro; discriminate|].
  cbn [clauseLoop].
  destruct (parseClause E g p) as [clause|] eqn:C; [|intro; discriminate].
  pose proof (parseClause_well E g s0 i0 g_well p clause Hs Hp C) as W.
  pose proof (parseClause_calm p clause Hs Hp C) as Cm.
  destruct clause as [[ns p1]| | |]; cbn [bind];
    [| intro; discriminate | intros _; now apply Cm | intro; discriminate].
  simpl in W. destruct W as (Hs1 & H1).
  destruct (addClause_returns res ns) as (_ & A2).
  destruct (addClause res ns) as [res1| | |]; cbn [bind];
    [| intro; discriminate | contradiction | intro; discriminate].
  apply IH; [exact Hs1 | lia].
Qed.

Lemma clauseLoop_baseOk fuel : forall res p,
  baseOk res -> yields baseOk (clauseLoop E fuel g res p).
Proof.
  induction fuel as [|fuel IH]; intros res p B; [intros ? ? ?; discriminate|].
  cbn [clauseLoop].
  destruct (parseClause E g p) as [clause|] eqn:C; [|now intros ? ? [= <- <-]].
  pose proof (parseClause_clauseOk p clause C) as Y.
  destruct clause as [[ns p1]| | |]; cbn [bind]; try (intros ? ? ?; discriminate).
  destruct (addClause res ns) as [res1| | |] eqn:A; cbn [bind];
    try (intros ? ? ?; discriminate).
  apply IH. apply full_baseOk. apply (addClause_full res ns res1 B); [|exact A].
  now apply (Y ns p1).
Qed.

Lemma parseBase_baseOk p : yields baseOk (parseBase p).
Proof.
  unfold parseBase. destruct (peek p) as [c|]; [|intros ? ? ?; discriminate].
  destruct (isByte c "*"); [now intros ? ? [= <- <-]|].
  destruct (isByte c "#" || isByte c "." || isByte c "[" || isByte c ":");
    [now intros ? ? [= <- <-]|].
  intros o q H. apply full_baseOk. exact (parseTypeSelector_full p o q H).
Qed.

Lemma parseBase_quiet p : parseBase p <> Panic.
Proof. unfold parseBase. quiet; auto with quiets. Qed.

Lemma finish_full res : baseOk res -> full (finish res).
Proof.
  unfold baseOk, finish, full. destruct (o_match res) as [m|] eqn:M; intros B.
  - now rewrite M.
  - reflexivity.
Qed.

Lemma parseSimpleSelectorSequence_calm p :
  p_s p = s0 -> (i0 <= p_i p <= len s0)%nat ->
  calm s0 (parseSimpleSelectorSequence E g p).
Proof.
  intros Hs Hp. unfold parseSimpleSelectorSequence.
  apply calm_bind with (p_i p).
  - rewrite <- Hs. apply parseBase_well. unfold within. rewrite Hs. lia.
  - apply quiet_calm, parseBase_quiet.
  - intros r0 p0 _ Hs0 Hp0. apply calm_bind with (p_i p0).
    + rewrite Hs0. apply (clauseLoop_well E g s0 i0 g_well); [exact Hs0 | lia | lia].
    + apply clauseLoop_calm; [exact Hs0 | lia].
    + intros; intro; discriminate.
Qed.

Lemma parseSimpleSelectorSequence_full p :
  yields full (parseSimpleSelectorSequence E g p).
Proof.
  unfold parseSimpleSelectorSequence.
  apply yields_bind with baseOk; [apply parseBase_baseOk|].
  intros r0 p0 B. apply yields_bind with baseOk; [now apply clauseLoop_baseOk|].
  intros r1 p1 B1 o q [= <- <-]. now apply finish_full.
Qed.

Lemma combine_full c res x : full res -> full x -> full (combine c res x).
Proof.
  unfold full, combine. cbn [o_match].
  destruct (o_match res) as [mr|]; [|contradiction].
  destruct (o_match x) as [mx|]; [|contradiction]. intros Cr Cx.
  unfold descendantSelector, childSelector, siblingSelector.
  destruct (isByte c " "); [cbn [complete]; now rewrite Cr, Cx|].
  destruct (isByte c ">"); [cbn [complete]; now rewrite Cr, Cx|].
  destruct (isByte c "+"); [cbn [complete]; now rewrite Cr, Cx|].
  destruct (isByte c "~"); [cbn [complete]; now rewrite Cr, Cx | exact Cr].
Qed.

Lemma selectorLoop_calm fuel : forall res p,
  p_s p = s0 -> (i0 <= p_i p <= len s0)%nat ->
  calm s0 (selectorLoop E fuel g res p).
Proof.
  induction fuel as [|fuel IH]; intros res p Hs Hp; [intro; discriminate|].
  cbn [selectorLoop].
  assert (Next : forall c q r, p_s q = s0 -> (i0 <= p_i q <= len s0)%nat ->
                 calm s0 ('(c', q') <- parseSimpleSelectorSequence E g q ;;
                          selectorLoop E fuel g (combine c r c') q')).
  { intros c q r Hq Lq. apply calm_bind with (p_i q).
    - now apply (parseSimpleSelectorSequence_well E g s0 i0 g_well).
    - now apply parseSimpleSelectorSequence_calm.
    - intros c' q' _ Hq' Lq'. apply IH; [exact Hq' | lia]. }
  calm_all; apply Next; tidy; solve [reflexivity | congruence | lia].
Qed.

Lemma selectorLoop_full fuel : forall res p,
  full res -> yields full (selectorLoop E fuel g res p).
Proof.
  induction fuel as [|fuel IH]; intros res p F; [intros ? ? ?; discriminate|].
  cbn [selectorLoop].
  assert (Next : forall c q, yields full
                   ('(c', q') <- parseSimpleSelectorSequence E g q ;;
                    selectorLoop E fuel g (combine c res c') q')).
  { intros c q. apply yields_bind with full; [apply parseSimpleSelectorSequence_full|].
    intros c' q' F'. apply IH. now apply combine_full. }
  destruct (skipWhitespace p) as [[skipped q]| | |]; cbn [bind];
    try (intros ? ? ?; discriminate).
  destruct (peek q) as [c|]; [|now intros ? ? [= <- <-]].
  destruct (isByte c "," || isByte c ")"); [now intros ? ? [= <- <-]|].
  destruct (isByte c "+" || isByte c ">" || isByte c "~").
  - destruct (skipWhitespace (advance q)) as [[sk q2]| | |]; cbn [bind];
      try (intros ? ? ?; discriminate).
    destruct (isByte c zero); [now intros ? ? [= <- <-] | apply Next].
  - cbn [bind]. destruct (isByte (if skipped then " "%char else zero) zero);
      [now intros ? ? [= <- <-] | apply Next].
Qed.

Lemma parseSelector_calm p :
  p_s p = s0 -> (i0 <= p_i p <= len s0)%nat -> calm s0 (parseSelector E g p).
Proof.
  intros Hs Hp. unfold parseSelector.
  apply calm_bind with (p_i p).
  - apply (lift_well skipWhitespace skipWhitespace_well); [exact Hs | lia].
  - apply quiet_calm, skipWhitespace_quiet.
  - intros x q _ Hq Lq. apply calm_bind with (p_i q).
    + apply (parseSimpleSelectorSequence_well E g s0 i0 g_well); [exact Hq | lia].
    + apply parseSimpleSelectorSequence_calm; [exact Hq | lia].
    + intros r q' _ Hq' Lq'. apply selectorLoop_calm; [exact Hq' | lia].
Qed.

Lemma parseSelector_full p : yields full (parseSelector E g p).
Proof.
  unfold parseSelector. intros o q.
  destruct (skipWhitespace p) as [[x p1]| | |]; cbn [bind]; try discriminate.
  revert o q. apply yields_bind with full; [apply parseSimpleSelectorSequence_full|].
  intros r q' F. now apply selectorLoop_full.
Qed.

Lemma groupLoop_calm fuel : forall res p,
  p_s p = s0 -> (i0 <= p_i p <= len s0)%nat ->
  calm s0 (groupLoop E fuel g res p).
Proof.
  induction fuel as [|fuel IH]; intros res p Hs Hp; [intro; discriminate|].
  cbn [groupLoop].
  destruct (peek p) as [c|] eqn:P; [|intro; discriminate].
  destruct (negb (isByte c ",")); [intro; discriminate|].
  apply peek_Some_lt in P. rewrite Hs in P.
  apply calm_bind with (p_i (advance p)).
  - apply (parseSelector_well E g s0 i0 g_well); simpl; [exact Hs | lia].
  - apply parseSelector_calm; simpl; [exact Hs | lia].
  - intros c' q _ Hq Lq. simpl in Lq. apply IH; [exact Hq | lia].
Qed.

Lemma groupLoop_full fuel : forall res p,
  Forall full res -> yields (Forall full) (groupLoop E fuel g res p).
Proof.
  induction fuel as [|fuel IH]; intros res p F; [intros ? ? ?; discriminate|].
  cbn [groupLoop].
  destruct (peek p) as [c|]; [|now intros ? ? [= <- <-]].
  destruct (negb (isByte c ",")); [now intros ? ? [= <- <-]|].
  apply yields_bind with full; [apply parseSelector_full|].
  intros c' q Fc. apply IH. apply Forall_app. split; [exact F | now constructor].
Qed.

End GroupSound.

(** [parseSelectorGroup] and [Compile]. *)
Lemma parseSelectorGroup_full E depth : forall p,
  yields (Forall full) (parseSelectorGroup E depth p).
Proof.
  induction depth as [|depth IH]; intros p; [intros ? ? ?; discriminate|].
  cbn [parseSelectorGroup].
  apply yields_bind with full; [now apply parseSelector_full|].
  intros c q F. apply groupLoop_full; [exact IH | now constructor].
Qed.

Lemma parseSelectorGroup_calm E depth : forall p,
  within p -> (len (p_s p) - p_i p < depth)%nat ->
  calm (p_s p) (parseSelectorGroup E depth p).
Proof.
  induction depth as [|depth IH]; intros p W D; [lia|].
  unfold within in W. cbn [parseSelectorGroup].
  assert (G : forall q, p_s q = p_s p -> (p_i p < p_i q <= len (p_s p))%nat ->
              well (p_i q) (p_s p) (parseSelectorGroup E depth q)).
  { intros q Hq Lq. rewrite <- Hq. apply parseSelectorGroup_well;
      unfold within; rewrite Hq; lia. }
  assert (C : forall q, p_s q = p_s p -> (p_i p < p_i q <= len (p_s p))%nat ->
              calm (p_s p) (parseSelectorGroup E depth q)).
  { intros q Hq Lq. rewrite <- Hq. apply IH; unfold within; rewrite Hq; lia. }
  apply calm_bind with (p_i p).
  - apply (parseSelector_well E _ (p_s p) (p_i p) G); [reflexivity | lia].
  - apply (parseSelector_calm E _ (p_s p) (p_i p) G C); [reflexivity | lia].
  - intros c q _ Hq Lq.
    apply (groupLoop_calm E _ (p_s p) (p_i p) G C); [exact Hq | lia].
Qed.

Lemma CompileGroup_sound E sel :
  calm sel (CompileGroup E sel)
  /\ forall compiled, CompileGroup E sel = Ok compiled -> Forall full compiled.
Proof.
  unfold CompileGroup.
  pose proof (parseSelectorGroup_calm E (S (len sel)) (mkParser sel 0)
                ltac:(unfold within; simpl; lia) ltac:(simpl; lia)) as C.
  pose proof (parseSelectorGroup_full E (S (len sel)) (mkParser sel 0)) as F.
  destruct (parseSelectorGroup E (S (len sel)) (mkParser sel 0)) as [[c q]| | |];
    cbn [bind]; simpl in C.
  - split.
    + destruct (p_i q <? len sel)%nat; intro; discriminate.
    + intros compiled. destruct (p_i q <? len sel)%nat; [discriminate|].
      intros [= <-]. exact (F c q eq_refl).
  - split; [intro|intros ?]; discriminate.
  - split; [intros _; now apply C | intros ?; discriminate].
  - split; [intro|intros ?]; discriminate.
Qed.

(** ** What a compiled selector never does *)

Lemma Filter_total s nodes : (forall n, s n <> None) -> Filter s nodes <> None.
Proof.
  intros T. induction nodes as [|n nodes IH]; cbn [Filter]; [discriminate|].
  specialize (T n). destruct (s n) as [[|]|]; [| exact IH | congruence].
  destruct (Filter s nodes); [discriminate | congruence].
Qed.

Lemma firstMatch_total s nodes : (forall n, s n <> None) -> firstMatch s nodes <> None.
Proof.
  intros T. induction nodes as [|n nodes IH]; cbn [firstMatch]; [discriminate|].
  specialize (T n). destruct (s n) as [[|]|]; [discriminate | exact IH | congruence].
Qed.

Lemma matchDetailsLoop_total E s n :
  (forall sel, In sel s -> oneMatch E sel n <> None) ->
  forall out, matchDetailsLoop E s n out <> None.
Proof.
  induction s as [|x s IH]; intros T out; cbn [matchDetailsLoop]; [discriminate|].
  assert (Tx := T x (or_introl eq_refl)).
  destruct (oneMatch E x n) as [[|]|]; [| | congruence];
    apply IH; intros sel H; apply T; now right.
Qed.

Lemma full_oneMatch E sel n : full sel -> oneMatch E sel n <> None.
Proof.
  unfold full, oneMatch. destruct (o_match sel) as [m|]; [|contradiction].
  intros C. now apply Match_complete.
Qed.

(** X27. Matching with a selector that the parser returned never
    panics: every matcher the parser builds has what its [Match] needs (no
    nil part, a known operation, name and combinator, a compiled regular
    expression). So [Compile] returns a selector whose call, [MatchAll],
    [MatchFirst] and [Filter] return on every node, and [MatchDetails] and
    [MatchWithSpecificity] return on the parsed group. *)
Theorem compiled_selector_never_panics (E : Ext) (sel : string) (compiled : Selector) :
  CompileGroup E sel = Ok compiled ->
  let s := Match E (selectorGroup (map o_match compiled)) in
  Compile E sel = Ok s
  /\ forall n, s n <> None
               /\ MatchAll s n <> None
               /\ MatchFirst s n <> None
               /\ Filter s (childNodes n) <> None
               /\ MatchDetails E compiled n <> None
               /\ MatchWithSpecificity E compiled n <> None.
Proof.
  intros C s. split; [unfold Compile; now rewrite C|].
  pose proof (proj2 (CompileGroup_sound E sel) compiled C) as F.
  assert (T : forall n, s n <> None).
  { intros n. apply Match_complete. now apply complete_union. }
  assert (O : forall n sel0, In sel0 compiled -> oneMatch E sel0 n <> None).
  { intros n sel0 Hin. apply full_oneMatch. rewrite Forall_forall in F. now apply F. }
  intros n. split; [apply T|]. split; [|split; [|split; [|split]]].
  - rewrite MatchAll_Filter. now apply Filter_total.
  - unfold MatchFirst. rewrite MatchFirstFrom_firstMatch. now apply firstMatch_total.
  - now apply Filter_total.
  - unfold MatchDetails.
    pose proof (matchDetailsLoop_total E compiled n (O n) []) as D.
    destruct (matchDetailsLoop E compiled n []); [discriminate | congruence].
  - apply matchWithSpecificityLoop_total. apply O.
Qed.

Lemma compiled_selector_never_panics_witness :
  let s := Match asciiExt (selectorGroup (map o_match itemOrThird)) in
  Compile asciiExt "li, #3" = Ok s
  /\ forall n, s n <> None
               /\ MatchAll s n <> None
               /\ MatchFirst s n <> None
               /\ Filter s (childNodes n) <> None
               /\ MatchDetails asciiExt itemOrThird n <> None
               /\ MatchWithSpecificity asciiExt itemOrThird n <> None.
Proof.
  exact (compiled_selector_never_panics asciiExt "li, #3" itemOrThird eq_refl).
Defined.

(** X28. [Compile] panics only on a text that ends with a colon: the
    read after the colon in [parsePseudoclassSelector] is the only index
    the parser does not guard. *)
Theorem Compile_panics_only_after_colon (E : Ext) (sel : string) :
  Compile E sel = Panic \/ CompileGroup E sel = Panic ->
  strings_HasSuffix sel ":" = true.
Proof.
  intros H. apply (proj1 (CompileGroup_sound E sel)).
  destruct H as [H | H]; [|exact H]. unfold Compile in H.
  now destruct (CompileGroup E sel).
Qed.

Lemma Compile_panics_only_after_colon_witness : strings_HasSuffix "p:not(:" ":" = true.
Proof.
  apply (Compile_panics_only_after_colon asciiExt "p:not(:"). left. reflexivity.
Defined.

(** ** Instances *)

Lemma MatchWithSpecificity_greatest_witness :
  (true = true <->
   exists sel, In sel itemOrThird /\ oneMatch asciiExt sel thirdItem = Some true)
  /\ (forall sel, In sel itemOrThird -> oneMatch asciiExt sel thirdItem = Some true ->
      Less (mkSpec 1 0 0) (o_Specificity sel) = false)
  /\ (true = true ->
      exists sel, In sel itemOrThird /\ oneMatch asciiExt sel thirdItem = Some true
                  /\ o_Specificity sel = mkSpec 1 0 0)
  /\ (true = false -> mkSpec 1 0 0 = noSpecificity).
Proof.
  exact (MatchWithSpecificity_greatest asciiExt itemOrThird thirdItem true (mkSpec 1 0 0)
           eq_refl).
Defined.

Lemma MatchDetails_agrees_witness :
  Match asciiExt (selectorGroup (map o_match itemOrThird)) thirdItem = Some true
  /\ [mkDetail "" (mkSpec 0 0 1); mkDetail "" (mkSpec 1 0 0)]
     = map detailOf (filter (matches asciiExt thirdItem) itemOrThird)
  /\ exists sp, MatchWithSpecificity asciiExt itemOrThird thirdItem = Some (true, sp)
       /\ forall d, In d [mkDetail "" (mkSpec 0 0 1); mkDetail "" (mkSpec 1 0 0)] ->
                    Less sp (d_Specificity d) = false.
Proof.
  exact (MatchDetails_agrees asciiExt itemOrThird thirdItem true
           [mkDetail "" (mkSpec 0 0 1); mkDetail "" (mkSpec 1 0 0)] eq_refl).
Defined.

Lemma MatchFirst_is_head_of_MatchAll_witness :
  MatchFirst (tagMatch "li") orderedList = Some (Some firstItem).
Proof.
  exact (MatchFirst_is_head_of_MatchAll (tagMatch "li") orderedList
           (childNodes orderedList) eq_refl).
Defined.

Lemma Filter_keeps_the_matching_nodes_witness :
  (forall x, In x [firstItem] <->
             In x (childNodes orderedList)
             /\ Match asciiExt (attrSelector "id" "1" "=" None) x = Some true)
  /\ Filter (Match asciiExt (attrSelector "id" "1" "=" None)) [firstItem] = Some [firstItem]
  /\ (forall more rest,
        Filter (Match asciiExt (attrSelector "id" "1" "=" None)) more = Some rest ->
        Filter (Match asciiExt (attrSelector "id" "1" "=" None))
               (childNodes orderedList ++ more) = Some ([firstItem] ++ rest)).
Proof.
  exact (Filter_keeps_the_matching_nodes
           (Match asciiExt (attrSelector "id" "1" "=" None))
           (childNodes orderedList) [firstItem] eq_refl).
Defined.

Lemma descendantMatch_correct_witness :
  descendantMatch (tagMatch "ol") (tagMatch "li") thirdItem = Some true <->
  tagMatch "li" thirdItem = Some true
  /\ exists p, ancestor p thirdItem /\ tagMatch "ol" p = Some true.
Proof.
  apply (descendantMatch_correct (tagMatch "ol") (tagMatch "li") thirdItem).
  intros p _. discriminate.
Defined.

Lemma child_refines_descendant_witness :
  Match asciiExt (combinedSelector (Some (tagSelector "ol")) " " (Some (tagSelector "li")))
        thirdItem = Some true.
Proof.
  apply (child_refines_descendant asciiExt (Some (tagSelector "ol"))
           (Some (tagSelector "li")) thirdItem).
  reflexivity.
Defined.

Lemma general_sibling_correct_witness :
  (siblingMatch (tagMatch "li") (tagMatch "li") false thirdItem = Some true <->
   tagMatch "li" thirdItem = Some true
   /\ exists c, In c (prevSiblings thirdItem) /\ tagMatch "li" c = Some true)
  /\ (siblingMatch (tagMatch "li") (tagMatch "li") true thirdItem = Some true ->
      siblingMatch (tagMatch "li") (tagMatch "li") false thirdItem = Some true).
Proof.
  apply (general_sibling_correct (tagMatch "li") (tagMatch "li") thirdItem).
  intros c _. discriminate.
Defined.

Lemma root_is_never_positional_witness :
  Match asciiExt (nthPseudoClassSelector 0 1 false false) htmlRoot = Some false
  /\ Match asciiExt (onlyChildPseudoClassSelector false) htmlRoot = Some false.
Proof.
  apply (root_is_never_positional asciiExt htmlRoot 0 1 false false). reflexivity.
Defined.

Lemma hasDescendantMatch_document_order_witness :
  hasDescendantMatch nested (tagMatch "p")
  = anyMatch (tagMatch "p") (properDescendants nested).
Proof.
  apply (hasDescendantMatch_document_order nested (tagMatch "p")).
  let l := eval vm_compute in (properDescendants nested) in
  change (Forall leafy l).
  repeat constructor; intro H; vm_compute in H; discriminate H.
Defined.

Lemma empty_element_has_no_text_witness :
  nodeText thirdItem = "" /\ nodeOwnText thirdItem = ""
  /\ Match asciiExt (hasChildSelector anyElement) thirdItem = Some false.
Proof.
  apply (empty_element_has_no_text asciiExt thirdItem). reflexivity.
Defined.

Lemma matchInclude_pieces_witness :
  matchInclude "t2" "t1 t2" = true <-> In "t2" (pieces "t1 t2").
Proof. apply (matchInclude_pieces "t2" "t1 t2"). discriminate. Defined.

Lemma parseString_plain_witness :
  parseString (mkParser "[a='b c']" 3) = Ok ("b c", mkParser "[a='b c']" 8).
Proof.
  apply (parseString_plain (mkParser "[a='b c']" 3) "'" "b c" "]"); reflexivity.
Defined.

Lemma parseString_closed_by_its_quote_witness :
  p_s (mkParser "[a='b c']" 8) = p_s (mkParser "[a='b c']" 3)
  /\ (p_i (mkParser "[a='b c']" 3) + 2 <= p_i (mkParser "[a='b c']" 8)
      <= len (p_s (mkParser "[a='b c']" 3)))%nat
  /\ String.get (p_i (mkParser "[a='b c']" 8) - 1) (p_s (mkParser "[a='b c']" 3))
     = String.get (p_i (mkParser "[a='b c']" 3)) (p_s (mkParser "[a='b c']" 3)).
Proof.
  exact (parseString_closed_by_its_quote (mkParser "[a='b c']" 3) "b c"
           (mkParser "[a='b c']" 8) eq_refl).
Defined.

Lemma parseEscape_reads_five_hex_digits_witness :
  parseEscape (mkParser "\00004142" 0)
  = Ok (utf8 (parseHex 0 "00004"), mkParser "\00004142" 6).
Proof.
  apply (parseEscape_reads_five_hex_digits (mkParser "\00004142" 0) "00004" "142");
    try reflexivity.
  - discriminate.
  - now left.
Defined.

Lemma skipWhitespace_idempotent_witness :
  skipWhitespace (mkParser "a  /*c*/ b" 9) = Ok (false, mkParser "a  /*c*/ b" 9)
  /\ p_s (mkParser "a  /*c*/ b" 9) = p_s (mkParser "a  /*c*/ b" 1)
  /\ (true = true <-> (p_i (mkParser "a  /*c*/ b" 1) < p_i (mkParser "a  /*c*/ b" 9))%nat).
Proof.
  exact (skipWhitespace_idempotent (mkParser "a  /*c*/ b" 1) true
           (mkParser "a  /*c*/ b" 9) eq_refl).
Defined.

Lemma parseRegex_stops_at_closing_witness :
  p_s (mkParser ":matches([a-z]+)" 15) = p_s (mkParser ":matches([a-z]+)" 9)
  /\ (p_i (mkParser ":matches([a-z]+)" 9) <= p_i (mkParser ":matches([a-z]+)" 15)
      < len (p_s (mkParser ":matches([a-z]+)" 9)))%nat
  /\ "[a-z]+" = slice (p_s (mkParser ":matches([a-z]+)" 9))
                      (p_i (mkParser ":matches([a-z]+)" 9))
                      (p_i (mkParser ":matches([a-z]+)" 15))
  /\ regexp_valid asciiExt "[a-z]+" = true
  /\ exists c, String.get (p_i (mkParser ":matches([a-z]+)" 15))
                          (p_s (mkParser ":matches([a-z]+)" 9)) = Some c
               /\ (isByte c ")" || isByte c "]") = true.
Proof.
  exact (parseRegex_stops_at_closing asciiExt (mkParser ":matches([a-z]+)" 9) "[a-z]+"
           (mkParser ":matches([a-z]+)" 15) eq_refl).
Defined.

Lemma parseIdentifier_plain_witness :
  parseIdentifier (mkParser "-moz-x y" 0) = Ok ("-moz-x", mkParser "-moz-x y" 6).
Proof.
  apply (parseIdentifier_plain (mkParser "-moz-x y" 0) true "moz-x" " y"); reflexivity.
Defined.

Lemma Compile_id_selector_witness :
  exists m, Compile asciiExt "#main" = Ok m
    /\ forall n, exists b, m n = Some b
         /\ (b = true <->
             isElement n = true
             /\ exists a, In a (Attr n) /\ Key a = "id" /\ Val a = "main").
Proof.
  apply (Compile_id_selector asciiExt "main"); [discriminate | reflexivity].
Defined.

Lemma Compile_type_selector_witness :
  CompileGroup asciiExt "DIV" = Ok [typeSelector "DIV"]
  /\ CompileGroup asciiExt (toLowerASCII "DIV") = CompileGroup asciiExt "DIV"
  /\ exists m, Compile asciiExt "DIV" = Ok m
       /\ forall n, m n = Some (isElement n && String.eqb (Data n) (toLowerASCII "DIV")).
Proof. apply (Compile_type_selector asciiExt "DIV"). reflexivity. Defined.

Lemma combinators_keep_first_PseudoElement_witness :
  exists skipped q first q1,
    skipWhitespace (mkParser "a::before > b" 0) = Ok (skipped, q)
    /\ parseSimpleSelectorSequence asciiExt (parseSelectorGroup asciiExt 1) q
       = Ok (first, q1)
    /\ "before" = o_PseudoElement first.
Proof.
  exact (combinators_keep_first_PseudoElement asciiExt (parseSelectorGroup asciiExt 1)
           (mkParser "a::before > b" 0)
           (mkOne (Some (combinedSelector (Some (tagSelector "a")) ">"
                                          (Some (tagSelector "b"))))
                  (mkSpec 0 0 3) "before")
           (mkParser "a::before > b" 13) eq_refl).
Defined.

Lemma simple_selectors_round_trip_witness :
  (exists m, Sel_String (idSelector "Main") = Some ("#" +++ "Main")
             /\ Compile asciiExt ("#" +++ "Main") = Ok m
             /\ forall n, m n = Match asciiExt (idSelector "Main") n)
  /\ (exists m, Sel_String (classSelector "Main") = Some ("." +++ "Main")
                /\ Compile asciiExt ("." +++ "Main") = Ok m
                /\ forall n, m n = Match asciiExt (classSelector "Main") n)
  /\ (exists m, Sel_String (tagSelector (toLowerASCII "Main"))
                = Some (toLowerASCII "Main")
                /\ Compile asciiExt (toLowerASCII "Main") = Ok m
                /\ forall n, m n = Match asciiExt (tagSelector (toLowerASCII "Main")) n).
Proof.
  apply (simple_selectors_round_trip asciiExt "Main"). reflexivity.
Defined.
